(** * Edna: the pipeline coordinator of a local voice assistant

    A shallow embedding of the coordinator of the [edna] voice assistant
    ([state_machine.cpp], [main.cpp], [asr_whisper.cpp]) and the proofs of
    its specified properties.

    Conventions of the embedding:
    - a [std::string] is a [list ascii] (a sequence of 8-bit characters);
      the notes passed to [dispatch] are opaque and kept as [string];
    - the character classes are those of the "C" locale, the one a C++
      program runs in when it never calls [setlocale];
    - an [int] counter is a [Z]; the counters of the capture loop stay far
      away from the bounds of [int], see [reachable_bounds];
    - the neural engines (VAD, recognizer, synthesizer) are opaque: their
      results are inputs of the model;
    - every access to a shared queue happens under that queue's mutex, so a
      critical section is one atomic step of the model. *)

From Stdlib Require Import List String Ascii ZArith Bool Arith Lia Permutation.
Import ListNotations.


(* ================================================================== *)
(** * Part I: the embedding *)
(* ================================================================== *)

(** ** The state machine ([state_machine.hpp], [state_machine.cpp]) *)

Module EdnaStateMachine.

Inductive State : Set :=
| Boot
| AwaitSpeech
| CapturingSpeech
| Transcribing
| Thinking
| Speaking
| Error
| Shutdown.

Inductive Event : Set :=
| Start
| SpeechStart
| SpeechEndQueued
| TranscriptReady
| ReplyReady
| TtsDone
| Stop
| NoCommand
| Fail.

Scheme Equality for State.
Scheme Equality for Event.

(** One call of the observer: [(from, to, why, note)]. *)
Definition Notification : Set := (State * State * Event * string)%type.

(** The members [st_] and [obs_]; the observer only logs, so the model
    keeps whether one is installed ([obs_]) and the calls it received
    ([observed], oldest first). *)
Record Machine : Set := mkMachine {
  st_ : State;
  obs_ : bool;
  observed : list Notification
}.

(** [State st_ = State::Boot;] and an empty [obs_]. *)
Definition initial : Machine :=
  {| st_ := Boot; obs_ := false; observed := [] |}.

Definition set_observer (m : Machine) : Machine :=
  {| st_ := st_ m; obs_ := true; observed := observed m |}.

(** [transition_locked(cur, ev, note, did_transition)]: the returned
    state paired with the final value of the out-parameter. *)
Definition transition_locked (cur : State) (ev : Event) (note : string)
  : State * bool :=
  match cur with
  | Boot =>
      match ev with
      | Start => (AwaitSpeech, true)
      | _ => (cur, false)
      end
  | AwaitSpeech =>
      match ev with
      | SpeechStart => (CapturingSpeech, true)
      | _ => (cur, false)
      end
  | CapturingSpeech =>
      match ev with
      | SpeechEndQueued => (Transcribing, true)
      | _ => (cur, false)
      end
  | Transcribing =>
      match ev with
      | TranscriptReady => (Thinking, true)
      | NoCommand => (AwaitSpeech, true)
      | _ => (cur, false)
      end
  | Thinking =>
      match ev with
      | ReplyReady => (Speaking, true)
      | NoCommand => (AwaitSpeech, true)
      | _ => (cur, false)
      end
  | Speaking =>
      match ev with
      | TtsDone => (AwaitSpeech, true)
      | _ => (cur, false)
      end
  | Error =>
      match ev with
      | Start => (AwaitSpeech, true)
      | _ => (cur, false)
      end
  | Shutdown => (cur, false)
  end.

(** [dispatch(ev, note)]: the critical section updates [st_]; the
    observer is called afterwards, when a transition happened and an
    observer is installed. *)
Definition dispatch (m : Machine) (ev : Event) (note : string) : Machine :=
  let from := st_ m in
  let '(to, did) := transition_locked (st_ m) ev note in
  {| st_ := if did then to else st_ m;
     obs_ := obs_ m;
     observed := if did && obs_ m
                 then observed m ++ [(from, to, ev, note)]
                 else observed m |}.

Definition start (m : Machine) : Machine := dispatch m Start "start()".

(** The default value of the parameter [note], the empty string. *)
Definition no_note : string := EmptyString.

Definition state (m : Machine) : State := st_ m.

(** A run: the events dispatched one after the other. *)
Definition dispatch_all (m : Machine) (evs : list (Event * string)) : Machine :=
  fold_left (fun m' en => dispatch m' (fst en) (snd en)) evs m.

(** *** The transition table of the specification

    The table as the specification lists it, and the pure step function
    that looks a (state, event) pair up and leaves the state alone when
    the pair is not listed. *)
Definition transition_table : list (State * Event * State) :=
  [ (Boot,            Start,           AwaitSpeech);
    (AwaitSpeech,     SpeechStart,     CapturingSpeech);
    (CapturingSpeech, SpeechEndQueued, Transcribing);
    (Transcribing,    TranscriptReady, Thinking);
    (Transcribing,    NoCommand,       AwaitSpeech);
    (Thinking,        ReplyReady,      Speaking);
    (Thinking,        NoCommand,       AwaitSpeech);
    (Speaking,        TtsDone,         AwaitSpeech);
    (Error,           Start,           AwaitSpeech) ].

Definition table_lookup (s : State) (e : Event) : option State :=
  match find (fun r => State_beq (fst (fst r)) s && Event_beq (snd (fst r)) e)
             transition_table with
  | Some r => Some (snd r)
  | None => None
  end.



End EdnaStateMachine.

(** ** Characters and strings ([<cctype>], [std::string]) *)

Module CLocale.

Definition code (c : ascii) : N := N_of_ascii c.

(** [std::isspace]: space, and the controls from tab to carriage return. *)
Definition isspace (c : ascii) : bool :=
  ((code c =? 32) || ((9 <=? code c) && (code c <=? 13)))%N.

Definition isdigit (c : ascii) : bool := ((48 <=? code c) && (code c <=? 57))%N.
Definition isupper (c : ascii) : bool := ((65 <=? code c) && (code c <=? 90))%N.
Definition islower (c : ascii) : bool := ((97 <=? code c) && (code c <=? 122))%N.
Definition isalpha (c : ascii) : bool := isupper c || islower c.
Definition isalnum (c : ascii) : bool := isalpha c || isdigit c.

(** [std::tolower]: the upper-case letters move 32 places up. *)
Definition tolower (c : ascii) : ascii :=
  if isupper c then ascii_of_N (code c + 32) else c.

End CLocale.

Module Text.
Import CLocale.

(** A [std::string]. *)
Definition text : Set := list ascii.

(** A string literal of the source. *)
Definition lit (s : string) : text := list_ascii_of_string s.

Definition empty (s : text) : bool :=
  match s with [] => true | _ :: _ => false end.

(** [s.substr(pos, n)] and [s.substr(pos)], for [pos <= s.size()], which
    holds at every call of the source (beyond it [substr] throws). *)
Definition substr (s : text) (pos n : nat) : text := firstn n (skipn pos s).
Definition substr_from (s : text) (pos : nat) : text := skipn pos s.

(** [while (a < b && isspace(s[a])) a++], from [a = 0]: the number of
    leading whitespace characters. *)
Fixpoint leading_ws (s : text) : nat :=
  match s with
  | c :: t => if isspace c then S (leading_ws t) else 0
  | [] => 0
  end.

(** [while (b > a && isspace(s[b - 1])) b--]. *)
Fixpoint trim_back (s : text) (a b : nat) : nat :=
  match b with
  | 0 => 0
  | S b' => if (a <? b) && isspace (nth b' s " "%char)
            then trim_back s a b'
            else b
  end.

(** [trim_ws], the same function in [main.cpp] and [asr_whisper.cpp]. *)
Definition trim_ws (s : text) : text :=
  let a := leading_ws s in
  let b := trim_back s a (List.length s) in
  substr s a (b - a).

(** [trim_ws] read on lists, for the proofs ([trim_ws_strip]): drop the
    leading whitespace, then the trailing whitespace. *)
Fixpoint lstrip (s : text) : text :=
  match s with
  | c :: t => if isspace c then lstrip t else s
  | [] => []
  end.

Definition rstrip (s : text) : text := rev (lstrip (rev s)).

(** A string of whitespace, and the characters of a string that are not
    whitespace. *)
Definition blank (w : text) : Prop := Forall (fun c => isspace c = true) w.

Definition solid (s : text) : text := filter (fun c => negb (isspace c)) s.

(** *** [normalize] *)

(** The first loop of [normalize], one character. *)
Definition lower_or_space (c : ascii) : ascii :=
  if isalnum c || isspace c then tolower c else " "%char.

(** The second loop of [normalize] ("collapse spaces"); [prev_space] is
    the variable of that name. *)
Fixpoint collapse (prev_space : bool) (s : text) : text :=
  match s with
  | [] => []
  | c :: t =>
      let sp := isspace c in
      (if sp then (if prev_space then [] else [" "%char]) else [c])
        ++ collapse sp t
  end.

Definition normalize (input : text) : text :=
  let s := map lower_or_space input in
  let out := collapse true s in
  trim_ws out.

(** The shape of a normalized string, for the proofs: lower-case
    letters, digits and single spaces, the first character not a space
    when [prev_space] holds. *)
Fixpoint wellspaced (prev_space : bool) (s : text) : bool :=
  match s with
  | [] => true
  | c :: t =>
      if Ascii.eqb c " "%char
      then negb prev_space && wellspaced true t
      else (islower c || isdigit c) && wellspaced false t
  end.

Definition normal_form (s : text) : Prop :=
  wellspaced true s = true /\ rstrip s = s.

(** *** [strip_invocation] *)

(** [t.rfind(pfx, 0) == 0]: [pfx] is a prefix of [t]. *)
Fixpoint starts_with (pfx t : text) : bool :=
  match pfx, t with
  | [], _ => true
  | p :: pfx', c :: t' => Ascii.eqb p c && starts_with pfx' t'
  | _ :: _, [] => false
  end.

(** The lambda [strip_prefix]: [None] when it returns [false], the new
    value of the captured [t] when it returns [true]. *)
Definition strip_prefix (t pfx : text) : option text :=
  if starts_with pfx t
  then Some (trim_ws (substr_from t (List.length pfx)))
  else None.

(** The prefixes in the order of the [||] chain. *)
Definition invocation_prefixes : list text :=
  map lit [ "hey edna"; "okay edna"; "ok edna"; "edna"; "etna"; "ewa";
            "ed"; "ed nah"; "ed na" ]%string.

(** The short-circuit chain: the first prefix that matches is stripped
    and the later ones are not tried. *)
Fixpoint strip_chain (pfxs : list text) (t : text) : bool * text :=
  match pfxs with
  | [] => (false, t)
  | pfx :: rest =>
      match strip_prefix t pfx with
      | Some t' => (true, t')
      | None => strip_chain rest t
      end
  end.

(** [strip_invocation(text)]: the returned flag and the final value of
    the reference parameter. *)
Definition strip_invocation (txt : text) : bool * text :=
  let t := normalize txt in
  let '(invoked, t') := strip_chain invocation_prefixes t in
  if invoked then (true, t') else (false, txt).

(** *** Invocation stripping as the specification words it

    The longest prefix of the list that matches the normalized text is
    the one removed. *)
Definition longest_match (pfxs : list text) (t : text) : option text :=
  fold_left
    (fun best pfx =>
       if starts_with pfx t
       then match best with
            | Some b => if List.length b <? List.length pfx then Some pfx else best
            | None => Some pfx
            end
       else best)
    pfxs None.

Definition strip_invocation_longest (txt : text) : bool * text :=
  let t := normalize txt in
  match longest_match invocation_prefixes t with
  | Some pfx => (true, trim_ws (substr_from t (List.length pfx)))
  | None => (false, txt)
  end.

(** *** [split_sentences] *)

(** The locals [cur] and [out] of the first loop. *)
Record Splitter : Set := mkSplitter {
  cur : text;
  out : list text
}.

(** The lambda [flush]. *)
Definition flush (st : Splitter) : Splitter :=
  let s := trim_ws (cur st) in
  {| cur := [];
     out := if empty s then out st else out st ++ [s] |}.

Definition end_punct (c : ascii) : bool :=
  Ascii.eqb c "."%char || Ascii.eqb c "!"%char || Ascii.eqb c "?"%char.

(** The [for] loop over [in], on the characters from index [i] on. *)
Fixpoint split_loop (rest : text) (st : Splitter) : Splitter :=
  match rest with
  | [] => st
  | c :: rest' =>
      let st1 := {| cur := cur st ++ [c]; out := out st |} in
      if negb (end_punct c) then split_loop rest' st1
      else
        let at_end := empty rest' in
        let next_space :=
          negb at_end && match rest' with n :: _ => isspace n | [] => false end in
        if at_end || next_space
        then split_loop rest' (flush st1)
        else split_loop rest' st1
  end.

(** The loop and the [flush()] after it. *)
Definition fragments (input : text) : list text :=
  out (flush (split_loop input {| cur := []; out := [] |})).

(** [s.rfind(ch, pos)]: the last index [<= pos] that holds [ch], [None]
    for [npos]. [rfind_at i] searches the suffix that starts at index
    [i]. *)
Fixpoint rfind_at (i : nat) (s : text) (ch : ascii) (pos : nat) : option nat :=
  match s with
  | [] => None
  | c :: t =>
      match (if i <? pos then rfind_at (S i) t ch pos else None) with
      | Some j => Some j
      | None => if (i <=? pos) && Ascii.eqb c ch then Some i else None
      end
  end.

Definition rfind (s : text) (ch : ascii) (pos : nat) : option nat :=
  rfind_at 0 s ch pos.

(** Where the soft wrap cuts the window that starts at [pos]. *)
Definition wrap_cut (s : text) (pos : nat) : nat :=
  let take := Nat.min 180 (List.length s - pos) in
  match rfind s " "%char (pos + take) with
  | None => pos + take
  | Some cut => if cut <=? pos then pos + take else cut
  end.

(** [while (pos < s.size() && isspace(s[pos])) pos++]. *)
Definition skip_ws (s : text) (pos : nat) : nat :=
  pos + leading_ws (skipn pos s).

(** The [while (pos < s.size())] loop of the soft wrap; every turn moves
    [pos] forward, [fuel] bounds the number of turns, and [None] means
    the fuel ran out ([wrap_loop_total]: it does not, from
    [fuel = s.size()]). *)
Fixpoint wrap_loop (fuel : nat) (s : text) (pos : nat) (acc : list text)
  : option (list text) :=
  if List.length s <=? pos then Some acc
  else
    match fuel with
    | 0 => None
    | S fuel' =>
        let cut := wrap_cut s pos in
        let acc' := acc ++ [trim_ws (substr s pos (cut - pos))] in
        wrap_loop fuel' s (skip_ws s cut) acc'
    end.

(** "Remove empties." *)
Definition clean (parts : list text) : list text :=
  filter (fun p => negb (empty p)) parts.

Definition soft_wrap (s : text) : option (list text) :=
  option_map clean (wrap_loop (List.length s) s 0 []).

Definition split_sentences (input : text) : option (list text) :=
  let parts := fragments input in
  match parts with
  | [s] => if 180 <? List.length s then soft_wrap s else Some parts
  | _ => Some parts
  end.

(** What a cut of the soft wrap is, for the window that starts at [pos]
    and spans [take = min(180, s.size() - pos)] characters: the last
    space at an index in [(pos, pos + take]], or, when none of these
    indices holds a space, the end of the window. *)
Definition no_space_between (s : text) (lo hi : nat) : Prop :=
  forall j, lo < j <= hi -> nth_error s j <> Some " "%char.

Definition good_cut (s : text) (pos cut : nat) : Prop :=
  let take := Nat.min 180 (List.length s - pos) in
  pos < cut <= pos + take
  /\ ((nth_error s cut = Some " "%char /\ no_space_between s cut (pos + take))
      \/ (cut = pos + take /\ no_space_between s pos (pos + take))).

(** The chunks of a wrap that starts at [pos]: cut, trim the piece, skip
    the whitespace after the cut, go on until the string is used up. *)
Inductive wrapped (s : text) : nat -> list text -> Prop :=
| wrapped_done (pos : nat) :
    List.length s <= pos -> wrapped s pos []
| wrapped_cut (pos cut : nat) (chunks : list text) :
    pos < List.length s ->
    good_cut s pos cut ->
    wrapped s (skip_ws s cut) chunks ->
    wrapped s pos (trim_ws (substr s pos (cut - pos)) :: chunks).

(** [cur] put in front of the first raw fragment. *)
Definition prepend (c0 : text) (frs : list text) : list text :=
  match frs with
  | f :: fs => (c0 ++ f) :: fs
  | [] => [c0]
  end.

(** *** The sentence splitter as the specification words it

    A fragment ends at each [.], [!] or [?] that is followed by
    whitespace or by the end of the input; [raw_fragments] cuts the input
    there and nowhere else, [spec_fragments] trims the pieces and drops
    the empty ones. *)
Definition boundary (c : ascii) (rest : text) : bool :=
  end_punct c && match rest with [] => true | n :: _ => isspace n end.

Fixpoint raw_fragments (s : text) : list text :=
  match s with
  | [] => [[]]
  | c :: rest =>
      if boundary c rest then [c] :: raw_fragments rest
      else match raw_fragments rest with
           | f :: fs => (c :: f) :: fs
           | [] => [[c]]
           end
  end.

Definition spec_fragments (s : text) : list text :=
  clean (map trim_ws (raw_fragments s)).

End Text.

(** ** The utterance queue and the command queue ([main.cpp])

    [audio_q] (audio loop to ASR thread) and [text_q] (ASR thread to brain
    thread) are [std::deque]s, the front of the deque at the head of the
    list. An utterance is a vector of 16-bit samples. *)

Module Queues.
Import Text.

Definition sample : Set := Z.
Definition pcm : Set := list sample.

(** The critical sections on [audio_q], each under [q_m]. *)

(** The mic gate: [audio_q.clear()]. *)
Definition q_clear (q : list pcm) : list pcm := [].

(** The enqueue: [audio_q.clear(); audio_q.emplace_back(utterance)]. *)
Definition q_replace (q : list pcm) (u : pcm) : list pcm := q_clear q ++ [u].

(** The ASR thread, once woken: [audio_q.back()] and [audio_q.clear()]
    when the queue is not empty, nothing otherwise. *)
Definition q_take_newest (q : list pcm) : option pcm * list pcm :=
  match q with
  | [] => (None, q)
  | _ :: _ => (Some (last q []), q_clear q)
  end.

Inductive QueueOp : Set :=
| OpGate
| OpEnqueue (u : pcm)
| OpTake.

Definition apply_op (q : list pcm) (op : QueueOp) : list pcm :=
  match op with
  | OpGate => q_clear q
  | OpEnqueue u => q_replace q u
  | OpTake => snd (q_take_newest q)
  end.

(** What the three threads share. *)
Record Shared : Set := mkShared {
  sm : EdnaStateMachine.Machine;
  audio_q : list pcm;
  text_q : list text
}.

End Queues.

(** ** The ASR stage ([asr_whisper.cpp], the ASR thread of [main.cpp]) *)

Module Asr.
Import CLocale Text Queues EdnaStateMachine.

Fixpoint text_eqb (a b : text) : bool :=
  match a, b with
  | [], [] => true
  | x :: a', y :: b' => Ascii.eqb x y && text_eqb a' b'
  | _, _ => false
  end.

Definition BLANK_AUDIO : text := lit "[BLANK_AUDIO]".

(** What the recognizer gives back for one buffer: the status of
    [whisper_full] and the segment texts ([None] for a null pointer). *)
Record WhisperRun : Set := mkWhisperRun {
  rc : Z;
  segment_text : list (option text)
}.

(** The recognizer is opaque: any function of the samples. *)
Definition Recognizer : Type := pcm -> WhisperRun.

(** The loop [for (i < nseg) if (t) out += t]. *)
Fixpoint join_segments (segs : list (option text)) : text :=
  match segs with
  | [] => []
  | Some t :: rest => t ++ join_segments rest
  | None :: rest => join_segments rest
  end.

(** [WhisperASR::transcribe_16k_mono_s16], for a live context. *)
Definition transcribe_16k_mono_s16 (whisper : Recognizer) (pcm16 : pcm) : text :=
  match pcm16 with
  | [] => []
  | _ :: _ =>
      let run := whisper pcm16 in
      if negb (rc run =? 0)%Z then []
      else
        let out := trim_ws (join_segments (segment_text run)) in
        if text_eqb out BLANK_AUDIO then [] else out
  end.

(** [sm.dispatch(Event::NoCommand, note)] and nothing else. *)
Definition no_command (sh : Shared) (note : string) : Shared :=
  {| sm := dispatch (sm sh) NoCommand note;
     audio_q := audio_q sh; text_q := text_q sh |}.

(** One turn of the ASR thread after the dequeue, on the machine and the
    command queue. *)
Definition asr_turn (whisper : Recognizer) (audio : pcm) (sh : Shared) : Shared :=
  match audio with
  | [] => sh
  | _ :: _ =>
      let txt := trim_ws (transcribe_16k_mono_s16 whisper audio) in
      if (List.length txt <? 2) || text_eqb txt BLANK_AUDIO then
        no_command sh "blank audio"
      else
        let '(invoked, cmd) := strip_invocation txt in
        if negb invoked then no_command sh "ignored transcript"
        else
          let cmd' := trim_ws cmd in
          if empty cmd' then no_command sh "invocation only"
          else
            {| sm := dispatch (sm sh) TranscriptReady no_note;
               audio_q := audio_q sh;
               text_q := text_q sh ++ [cmd'] |}
  end.

(** The dequeue and the turn. *)
Definition asr_step (whisper : Recognizer) (sh : Shared) : Shared :=
  match q_take_newest (audio_q sh) with
  | (None, _) => sh
  | (Some audio, q') =>
      asr_turn whisper audio
               {| sm := sm sh; audio_q := q'; text_q := text_q sh |}
  end.

End Asr.

(** ** The speech stage (the brain thread of [main.cpp], after the reply) *)

Module Speech.
Import Text EdnaStateMachine.

(** [CoquiTTS] as the brain thread uses it: an object with a state of its
    own, [is_enabled()] and [speak(text)], which tells whether the chunk
    was synthesized and played. The worker process and the player behind
    it are opaque. *)
Record TtsEngine : Type := mkTtsEngine {
  tts : Type;
  is_enabled : tts -> bool;
  speak : tts -> text -> bool * tts
}.

(** The outcome of the stage for one reply. *)
Record SpeechResult (E : TtsEngine) : Type := mkSpeechResult {
  calls : list (text * bool);           (* the calls of [speak], with their results *)
  tts_ok : bool;
  failures_logged : nat;                (* "[tts] speak() FAILED" lines *)
  engine : tts E;
  dispatched : list (Event * string);   (* the calls of [sm.dispatch] *)
  machine : Machine
}.

Arguments calls {E} _.
Arguments tts_ok {E} _.
Arguments failures_logged {E} _.
Arguments engine {E} _.
Arguments dispatched {E} _.
Arguments machine {E} _.

(** The [for] loop over [parts]: an empty chunk is skipped, a failed chunk
    sets [tts_ok = false], is logged, and ends the loop ([break]). *)
Fixpoint speak_parts (E : TtsEngine) (t : tts E) (parts : list text)
  : list (text * bool) * bool * tts E :=
  match parts with
  | [] => ([], true, t)
  | p :: rest =>
      let chunk := trim_ws p in
      if empty chunk then speak_parts E t rest
      else
        let '(ok, t') := speak E t chunk in
        if ok then
          let '(more, all_ok, t'') := speak_parts E t' rest in
          ((chunk, true) :: more, all_ok, t'')
        else ([(chunk, false)], false, t')
  end.

(** From [bool tts_ok = true] to [sm.dispatch(Event::TtsDone)]; [None]
    only if [split_sentences] did not return. *)
Definition speech_stage (E : TtsEngine) (t : tts E) (m : Machine) (reply : text)
  : option (SpeechResult E) :=
  let done := [(TtsDone, no_note)] in
  if is_enabled E t then
    match split_sentences reply with
    | None => None
    | Some parts =>
        let '(cs, ok, t') := speak_parts E t parts in
        Some {| calls := cs; tts_ok := ok;
                failures_logged := if ok then 0 else 1;
                engine := t';
                dispatched := done;
                machine := dispatch_all m done |}
    end
  else
    Some {| calls := []; tts_ok := true; failures_logged := 0;
            engine := t;
            dispatched := done;
            machine := dispatch_all m done |}.

(** The chunks of a reply that are worth a call of [speak]. *)
Definition chunks_of (parts : list text) : list text :=
  clean (map trim_ws parts).

(** A call of [speak] that returned [true]. *)
Definition succeeded (c : text * bool) : Prop := snd c = true.

(** An engine whose every [speak] fails. *)
Definition failing_engine : TtsEngine :=
  {| tts := unit; is_enabled := fun _ => true; speak := fun t _ => (false, t) |}.

End Speech.

(** ** The audio loop ([main], "Audio + VAD") *)

Module Capture.
Import Queues EdnaStateMachine.

Definition sr : Z := 16000.
Definition frame_ms : Z := 20.
Definition frame_samples : Z := (sr * frame_ms) / 1000.
Definition tts_cooldown_ms : Z := 600.
Definition cooldown_frames : Z := (tts_cooldown_ms + frame_ms - 1) / frame_ms.
Definition preroll_frames : Z := 15.
Definition max_preroll_samples : nat := Z.to_nat (preroll_frames * frame_samples).
Definition start_trigger : Z := 3.
Definition stop_trigger : Z := 20.

(** [secs >= 0.20] for [secs = (double)utterance.size() / (double)sr]:
    the division of doubles is monotone and 3200 / 16000.0 rounds to the
    double that the literal [0.20] denotes, so the test holds exactly from
    3200 samples on. *)
Definition min_utterance_samples : nat := 3200.

(** The locals of [main] that the loop carries from turn to turn. *)
Record Locals : Set := mkLocals {
  in_speech : bool;
  voiced_run : Z;
  unvoiced_run : Z;
  utterance : pcm;
  preroll : pcm;
  ignore_frames : Z;
  last_was_speaking : bool
}.

Definition initial_locals : Locals :=
  {| in_speech := false; voiced_run := 0; unvoiced_run := 0;
     utterance := []; preroll := [];
     ignore_frames := 0; last_was_speaking := false |}.

(** What a turn of the loop gets from outside: the frame that
    [snd_pcm_readi] filled (a turn whose read fails or comes short goes
    back to the top of the loop before it touches anything) and the answer
    of [fvad_process] for it. *)
Record Tick : Set := mkTick {
  frame : pcm;
  is_speech : Z
}.

(** The outcome of a turn: [Die] for [die("fvad_process failed")],
    otherwise the locals, the shared objects and the utterance handed to
    the queue in this turn, if any. *)
Inductive Outcome : Set :=
| Die
| Next (l : Locals) (sh : Shared) (enqueued : option pcm).

(** "Update pre-roll". *)
Definition update_preroll (pre frm : pcm) : pcm :=
  let p := pre ++ frm in
  if max_preroll_samples <? List.length p
  then skipn (List.length p - max_preroll_samples) p
  else p.

(** The body of [while (g_running.load())] from [sm.state()] on. *)
Definition audio_iteration (tk : Tick) (l : Locals) (sh : Shared) : Outcome :=
  let st := state (sm sh) in
  let speaking_now := State_beq st Speaking in
  (* Detect transition out of Speaking -> start cooldown *)
  let ignore1 :=
    if last_was_speaking l && negb speaking_now
    then cooldown_frames else ignore_frames l in
  if speaking_now || (0 <? ignore1)%Z then
    (* the mic gate *)
    let ignore2 := if (0 <? ignore1)%Z then (ignore1 - 1)%Z else ignore1 in
    Next {| in_speech := false; voiced_run := 0; unvoiced_run := 0;
            utterance := []; preroll := [];
            ignore_frames := ignore2; last_was_speaking := speaking_now |}
         {| sm := sm sh; audio_q := q_clear (audio_q sh); text_q := text_q sh |}
         None
  else
    let preroll1 := update_preroll (preroll l) (frame tk) in
    if (is_speech tk <? 0)%Z then Die
    else if negb (in_speech l) then
      let voiced1 :=
        if negb (is_speech tk =? 0)%Z then (voiced_run l + 1)%Z else 0%Z in
      if (start_trigger <=? voiced1)%Z then
        Next {| in_speech := true; voiced_run := 0; unvoiced_run := 0;
                utterance := preroll1; preroll := preroll1;
                ignore_frames := ignore1; last_was_speaking := speaking_now |}
             {| sm := dispatch (sm sh) SpeechStart "VAD start_trigger";
                audio_q := audio_q sh; text_q := text_q sh |}
             None
      else
        Next {| in_speech := false; voiced_run := voiced1;
                unvoiced_run := unvoiced_run l;
                utterance := utterance l; preroll := preroll1;
                ignore_frames := ignore1; last_was_speaking := speaking_now |}
             sh None
    else
      let utterance1 := utterance l ++ frame tk in
      let unvoiced1 :=
        if (is_speech tk =? 0)%Z then (unvoiced_run l + 1)%Z else 0%Z in
      if (stop_trigger <=? unvoiced1)%Z then
        let long_enough := min_utterance_samples <=? List.length utterance1 in
        Next {| in_speech := false; voiced_run := voiced_run l; unvoiced_run := 0;
                utterance := []; preroll := preroll1;
                ignore_frames := ignore1; last_was_speaking := speaking_now |}
             {| sm := dispatch (sm sh) SpeechEndQueued "VAD stop_trigger";
                audio_q := if long_enough
                           then q_replace (audio_q sh) utterance1
                           else audio_q sh;
                text_q := text_q sh |}
             (if long_enough then Some utterance1 else None)
      else
        Next {| in_speech := true; voiced_run := voiced_run l;
                unvoiced_run := unvoiced1;
                utterance := utterance1; preroll := preroll1;
                ignore_frames := ignore1; last_was_speaking := speaking_now |}
             sh None.

(** A turn's input: the tick and the shared objects as the turn finds
    them. The other threads run between the turns, so a run of the loop
    takes the shared objects of each turn as given. *)
Definition Turn : Set := (Tick * Shared)%type.

(** The locals after the turns of [turns], [None] after a [Die]. *)
Fixpoint run (turns : list Turn) (l : Locals) : option Locals :=
  match turns with
  | [] => Some l
  | (tk, sh) :: rest =>
      match audio_iteration tk l sh with
      | Die => None
      | Next l' _ _ => run rest l'
      end
  end.

(** The frames that the device delivers hold [frame_samples] samples. *)
Definition full_frame (tk : Tick) : Prop :=
  List.length (frame tk) = Z.to_nat frame_samples.

(** The duration of a buffer in milliseconds, rounded down. *)
Definition duration_ms (u : pcm) : Z := (Z.of_nat (List.length u) * 1000) / sr.

(** The frames of a list of turns, one after the other. *)
Definition frames_of (turns : list Turn) : pcm :=
  List.concat (map (fun t => frame (fst t)) turns).

(** The ranges the counters and the pre-roll stay in. *)
Definition bounded (l : Locals) : Prop :=
  (0 <= voiced_run l < start_trigger)%Z
  /\ (0 <= unvoiced_run l < stop_trigger)%Z
  /\ (0 <= ignore_frames l <= cooldown_frames)%Z
  /\ List.length (preroll l) <= max_preroll_samples.

(** The mic gate is open in this turn: the machine is not [Speaking], no
    cooldown is left and none starts. *)
Definition gate_open (l : Locals) (sh : Shared) : Prop :=
  state (sm sh) <> Speaking
  /\ (ignore_frames l <= 0)%Z
  /\ last_was_speaking l = false.

(** The history of the utterance under construction: the turns so far end
    with the turn [start] that detected the speech, which seeded the
    utterance with the pre-roll [pre], and the turns [during] since, each
    of which found the loop in speech. *)
Definition speech_history (turns : list Turn) (pre : pcm) (during : list Turn)
  : Prop :=
  exists before start l0 l1 sh1,
    turns = before ++ start :: during
    /\ run before initial_locals = Some l0
    /\ in_speech l0 = false
    /\ audio_iteration (fst start) l0 (snd start) = Next l1 sh1 None
    /\ in_speech l1 = true
    /\ utterance l1 = pre
    /\ preroll l1 = pre
    /\ List.length pre <= max_preroll_samples
    /\ (forall d1 d2, during = d1 ++ d2 ->
        exists l, run (before ++ start :: d1) initial_locals = Some l
                  /\ in_speech l = true).

Definition in_speech_inv (turns : list Turn) (l : Locals) : Prop :=
  in_speech l = true ->
  exists pre during,
    speech_history turns pre during
    /\ utterance l = pre ++ frames_of during.

(** The shared objects with the machine in [AwaitSpeech], in
    [Transcribing] and in [Speaking], and empty queues. *)
Definition listening : Shared :=
  {| sm := start initial; audio_q := []; text_q := [] |}.

Definition while_transcribing : Shared :=
  {| sm := dispatch_all initial
             [ (Start, "start()");
               (SpeechStart, "VAD start_trigger");
               (SpeechEndQueued, "VAD stop_trigger") ]%string;
     audio_q := []; text_q := [] |}.

Definition while_speaking : Shared :=
  {| sm := dispatch_all initial
             [ (Start, "start()");
               (SpeechStart, "VAD start_trigger");
               (SpeechEndQueued, "VAD stop_trigger");
               (TranscriptReady, no_note);
               (ReplyReady, no_note) ]%string;
     audio_q := []; text_q := [] |}.

Definition voiced_tick : Tick :=
  {| frame := repeat 1%Z (Z.to_nat frame_samples); is_speech := 1 |}.

Definition silent_tick : Tick :=
  {| frame := repeat 0%Z (Z.to_nat frame_samples); is_speech := 0 |}.

(** A long speech: [n] voiced frames and then 19 silent ones, all taken
    with the machine in [AwaitSpeech]. *)
Definition long_speech (n : nat) : list Turn :=
  repeat (voiced_tick, listening) n ++ repeat (silent_tick, listening) 19.

(** What the turn after [turns] hands to the queue. *)
Definition enqueued_after (turns : list Turn) (tk : Tick) (sh : Shared)
  : option pcm :=
  match run turns initial_locals with
  | Some l =>
      match audio_iteration tk l sh with
      | Next _ _ e => e
      | Die => None
      end
  | None => None
  end.

End Capture.

(** ** The threads together

    A step of the whole program is a turn of the audio loop, the dequeue
    of the ASR thread, or any other action of the ASR and brain threads,
    which touch the machine and the command queue only. *)

Module Pipeline.
Import Text Queues EdnaStateMachine Capture.

Record System : Set := mkSystem {
  locals : Locals;
  shared : Shared
}.

Definition initial_system : System :=
  {| locals := initial_locals;
     shared := {| sm := initial; audio_q := []; text_q := [] |} |}.

Inductive sys_step : System -> System -> Prop :=
| step_audio (tk : Tick) (l l' : Locals) (sh sh' : Shared) (e : option pcm) :
    audio_iteration tk l sh = Next l' sh' e ->
    sys_step {| locals := l; shared := sh |} {| locals := l'; shared := sh' |}
| step_asr_take (l : Locals) (sh : Shared) :
    sys_step {| locals := l; shared := sh |}
             {| locals := l;
                shared := {| sm := sm sh;
                             audio_q := snd (q_take_newest (audio_q sh));
                             text_q := text_q sh |} |}
| step_other (l : Locals) (sh : Shared) (m' : Machine) (tq' : list text) :
    sys_step {| locals := l; shared := sh |}
             {| locals := l;
                shared := {| sm := m'; audio_q := audio_q sh; text_q := tq' |} |}.

Inductive reachable : System -> Prop :=
| reachable_init : reachable initial_system
| reachable_step (s s' : System) :
    reachable s -> sys_step s s' -> reachable s'.

End Pipeline.

(** ** The names of states and events, the observer's log
    ([state_machine.cpp]) *)

Module MachineLog.
Import EdnaStateMachine.

(** [EdnaStateMachine::state_name]. *)
Definition state_name (s : State) : string :=
  match s with
  | Boot => "Boot"
  | AwaitSpeech => "AwaitSpeech"
  | CapturingSpeech => "CapturingSpeech"
  | Transcribing => "Transcribing"
  | Thinking => "Thinking"
  | Speaking => "Speaking"
  | Error => "Error"
  | Shutdown => "Shutdown"
  end.

(** [EdnaStateMachine::event_name]. *)
Definition event_name (e : Event) : string :=
  match e with
  | Start => "Start"
  | SpeechStart => "SpeechStart"
  | SpeechEndQueued => "SpeechEndQueued"
  | TranscriptReady => "TranscriptReady"
  | ReplyReady => "ReplyReady"
  | TtsDone => "TtsDone"
  | Stop => "Stop"
  | NoCommand => "NoCommand"
  | Fail => "Fail"
  end.

(** A log of notifications read as a path: every entry starts where the
    one before it ended and follows a row of the transition table;
    [Some s] gives the state the path ends in, [None] says that the log is
    no path from [from]. *)
Fixpoint path_end (from : State) (log : list Notification) : option State :=
  match log with
  | [] => Some from
  | (f, t, e, _) :: rest =>
      if State_beq f from
         && match table_lookup f e with
            | Some t' => State_beq t' t
            | None => false
            end
      then path_end t rest
      else None
  end.

(** The machine as [main] sets it up before [sm.start()]. *)
Definition observed_machine : Machine := set_observer initial.

(** *** [dispatch] among several threads

    The audio loop, the ASR thread and the brain thread all call
    [dispatch]. A call is two steps: the critical section, which updates
    [st_] and copies the observer, and, after the unlock, the call of the
    observer. Between the two the other threads take their steps. *)

(** A thread is known by its number; a transition is kept with the thread
    that made it. *)

(** [st_], whether an observer is installed, the transitions whose
    thread has left the critical section and not yet called the observer,
    the calls of the observer (oldest first), and the transitions in the
    order of the critical sections. *)
Record Threads : Set := mkThreads {
  shared_st : State;
  observer : bool;
  waiting : list (nat * Notification);
  notified : list (nat * Notification);
  taken : list (nat * Notification)
}.

(** A thread goes through the critical section of [dispatch(ev, note)],
    or goes on from there to the end of the call. *)
Inductive Step : Set :=
| Locked (th : nat) (ev : Event) (note : string)
| Returns (th : nat).

(** The waiting transition of a thread, taken out of the list. *)
Fixpoint take_waiting (th : nat) (w : list (nat * Notification))
  : option ((nat * Notification) * list (nat * Notification)) :=
  match w with
  | [] => None
  | x :: rest =>
      if Nat.eqb (fst x) th then Some (x, rest)
      else match take_waiting th rest with
           | Some (y, rest') => Some (y, x :: rest')
           | None => None
           end
  end.

(** One step; [None] for a step that a thread cannot take: it enters
    [dispatch] again only after its call of the observer. *)
Definition step (c : Threads) (s : Step) : option Threads :=
  match s with
  | Locked th ev note =>
      match take_waiting th (waiting c) with
      | Some _ => None
      | None =>
          let from := shared_st c in
          let '(to, did) := transition_locked from ev note in
          let n := (th, (from, to, ev, note)) in
          Some {| shared_st := if did then to else from;
                  observer := observer c;
                  waiting := if did && observer c
                             then waiting c ++ [n] else waiting c;
                  notified := notified c;
                  taken := if did then taken c ++ [n] else taken c |}
      end
  | Returns th =>
      match take_waiting th (waiting c) with
      | Some (n, rest) =>
          Some {| shared_st := shared_st c;
                  observer := observer c;
                  waiting := rest;
                  notified := notified c ++ [n];
                  taken := taken c |}
      | None => Some c
      end
  end.

Fixpoint run_threads (c : Threads) (ss : list Step) : option Threads :=
  match ss with
  | [] => Some c
  | s :: rest =>
      match step c s with
      | Some c' => run_threads c' rest
      | None => None
      end
  end.

(** The machine of [main], before [sm.start()], and one without an
    observer. *)
Definition observed_threads : Threads :=
  {| shared_st := Boot; observer := true;
     waiting := []; notified := []; taken := [] |}.

Definition unobserved_threads : Threads :=
  {| shared_st := Boot; observer := false;
     waiting := []; notified := []; taken := [] |}.

(** The transitions of one thread. *)
Definition by_thread (th : nat) (l : list (nat * Notification)) : list (nat * Notification) :=
  filter (fun x => Nat.eqb (fst x) th) l.

(** One thread that makes the calls one after the other. *)
Definition sequential (th : nat) (evs : list (Event * string)) : list Step :=
  flat_map (fun en => [Locked th (fst en) (snd en); Returns th]) evs.

(** A notification that is a row of the transition table. *)
Definition table_row (n : Notification) : Prop :=
  table_lookup (fst (fst (fst n))) (snd (fst n)) = Some (snd (fst (fst n))).

(** The audio loop (0) starts the machine and hears a command; the ASR
    thread (1) hands it over; while the brain thread computes the reply a
    second utterance is transcribed, and the ASR thread is between its
    critical section and its call of the observer when the audio loop
    dispatches the next start of speech. *)
Definition late_notification : list Step :=
  [ Locked 0 Start "start()"; Returns 0;
    Locked 0 SpeechStart "VAD start_trigger"; Returns 0;
    Locked 0 SpeechEndQueued "VAD stop_trigger"; Returns 0;
    Locked 1 TranscriptReady no_note; Returns 1;
    Locked 1 NoCommand "blank audio";
    Locked 0 SpeechStart "VAD start_trigger"; Returns 0;
    Returns 1 ].

(** The threads after that schedule. *)
Definition after_late_notification : Threads :=
  match run_threads observed_threads late_notification with
  | Some c => c
  | None => observed_threads
  end.

End MachineLog.

(** ** The brain thread ([main.cpp], "Brain nat") *)

Module Brain.
Import CLocale Text Queues EdnaStateMachine Asr Speech.

(** [s.find(t)]: the first index at which [t] occurs in [s], [None] for
    [npos]. [find_at i] searches the suffix that starts at index [i]. *)
Fixpoint find_at (i : nat) (s t : text) : option nat :=
  if starts_with t s then Some i
  else match s with
       | [] => None
       | _ :: s' => find_at (S i) s' t
       end.

Definition find (s t : text) : option nat := find_at 0 s t.

(** [cut = std::min(cut, p)], with [None] for [npos], the largest value. *)
Definition min_cut (cut : option nat) (p : nat) : option nat :=
  match cut with
  | None => Some p
  | Some c => Some (Nat.min c p)
  end.

(** The loop of the lambda [strip_after_any]: the smallest first
    occurrence of a token. *)
Definition first_cut (s : text) (toks : list text) : option nat :=
  fold_left
    (fun cut t =>
       match find s t with
       | Some p => min_cut cut p
       | None => cut
       end)
    toks None.

(** The lambda [strip_after_any]: [s.resize(cut)] when a token was
    found, then [s = trim_ws(s)]. *)
Definition strip_after_any (s : text) (toks : list text) : text :=
  let s1 :=
    match first_cut s toks with
    | Some cut => firstn cut s
    | None => s
    end in
  trim_ws s1.

Definition newline : ascii := "010"%char.

(** The tokens passed at the call. *)
Definition stop_markers : list text :=
  [ lit "<|endoftext|>";
    lit "<|im_end|>";
    newline :: lit "Human:";
    newline :: lit "USER:";
    newline :: lit "User:";
    newline :: lit "### Human:";
    newline :: lit "### Instruction:" ].

(** [LlamaBrain::reply] as the thread sees it: a function of the command. *)
Definition Llm : Type := text -> text.

(** *** The turn among the other threads

    A turn of the brain thread takes seconds: the language model, then
    the synthesizer and the player. Meanwhile the audio loop (which is
    gated in [Speaking] only) and the ASR thread go on: they dispatch
    events, the ASR thread appends commands under [b_m], and both work on
    [audio_q] under [q_m]. *)

(** One step of another thread on what is shared. *)
Inductive Other : Set :=
| Dispatches (ev : Event) (note : string)
| Appends (cmd : text)
| Audio (op : QueueOp).

Definition other_step (sh : Shared) (o : Other) : Shared :=
  match o with
  | Dispatches ev note =>
      {| sm := dispatch (sm sh) ev note;
         audio_q := audio_q sh; text_q := text_q sh |}
  | Appends cmd =>
      {| sm := sm sh; audio_q := audio_q sh; text_q := text_q sh ++ [cmd] |}
  | Audio op =>
      {| sm := sm sh; audio_q := apply_op (audio_q sh) op; text_q := text_q sh |}
  end.

Definition others (sh : Shared) (os : list Other) : Shared :=
  fold_left other_step os sh.

(** [ReplyReady] and [TtsDone] are dispatched by the brain thread only
    ([main.cpp], the two calls after the reply and after the speech): a
    step of another thread is not one of them. *)
Definition foreign (o : Other) : bool :=
  match o with
  | Dispatches ReplyReady _ => false
  | Dispatches TtsDone _ => false
  | _ => true
  end.


(** The commands that the steps append. *)
Definition appended (os : list Other) : list text :=
  flat_map (fun o => match o with Appends cmd => [cmd] | _ => [] end) os.

(** The critical section under [b_m]: the front command is taken. *)
Definition pop_command (sh : Shared) : Shared :=
  {| sm := sm sh; audio_q := audio_q sh; text_q := tl (text_q sh) |}.

(** [sm.dispatch(ev, note)] by the brain thread. *)
Definition brain_dispatch (sh : Shared) (ev : Event) (note : string) : Shared :=
  {| sm := dispatch (sm sh) ev note;
     audio_q := audio_q sh; text_q := text_q sh |}.

(** The reply to the command at the front of the queue, after the cut. *)
Definition reply_to (llm : Llm) (front : text) : text :=
  strip_after_any (llm (trim_ws front)) stop_markers.

(** What is shared when the brain thread has dispatched [ReplyReady]:
    the command was taken, the other threads took the steps
    [during_reply]. *)
Definition at_reply_ready (sh : Shared) (during_reply : list Other) : Shared :=
  brain_dispatch (others (pop_command sh) during_reply) ReplyReady no_note.

(** One turn of the brain thread with a command waiting: the command is
    taken from the front of [text_q]; a blank one is skipped; the reply is
    cut at the first stop marker, and while it is computed the other
    threads take the steps [during_reply]; an empty reply is answered with
    [NoCommand], any other with [ReplyReady], then the speech stage, during
    which the other threads take the steps [during_speech], and its
    [TtsDone]. [None] only if the speech stage did not return. *)
Definition brain_turn (E : TtsEngine) (llm : Llm) (t : tts E) (sh : Shared)
           (during_reply during_speech : list Other)
  : option (Shared * tts E) :=
  match text_q sh with
  | [] => Some (sh, t)
  | front :: rest =>
      let txt := trim_ws front in
      if empty txt || text_eqb txt BLANK_AUDIO then
        Some (pop_command sh, t)
      else
        let reply := reply_to llm front in
        if empty reply then
          Some (brain_dispatch (others (pop_command sh) during_reply)
                               NoCommand "empty reply", t)
        else
          let sh3 := others (at_reply_ready sh during_reply) during_speech in
          match speech_stage E t (sm sh3) reply with
          | None => None
          | Some r =>
              Some ({| sm := machine r;
                       audio_q := audio_q sh3; text_q := text_q sh3 |},
                    engine r)
          end
  end.

(** [t] occurs nowhere in [s]. *)
Definition absent (t s : text) : Prop :=
  forall p, starts_with t (skipn p s) = false.

End Brain.

(** ** The audio loop: the gate, the runs, the events *)

Module CaptureMore.
Import Queues EdnaStateMachine Capture.

(** The condition of the mic gate in a turn, [speaking_now ||
    ignore_frames > 0] after the cooldown was armed. *)
Definition gate_closed (l : Locals) (sh : Shared) : bool :=
  let speaking_now := State_beq (state (sm sh)) Speaking in
  let ignore1 :=
    if last_was_speaking l && negb speaking_now
    then cooldown_frames else ignore_frames l in
  speaking_now || (0 <? ignore1)%Z.

(** The call of [sm.dispatch] that a turn makes, if it makes one. *)
Definition turn_dispatch (tk : Tick) (l : Locals) (sh : Shared)
  : option (Event * string) :=
  if gate_closed l sh then None
  else if (is_speech tk <? 0)%Z then None
  else if negb (in_speech l) then
    if (start_trigger <=?
          (if negb (is_speech tk =? 0)%Z then voiced_run l + 1 else 0))%Z
    then Some (SpeechStart, "VAD start_trigger"%string)
    else None
  else
    if (stop_trigger <=?
          (if (is_speech tk =? 0)%Z then unvoiced_run l + 1 else 0))%Z
    then Some (SpeechEndQueued, "VAD stop_trigger"%string)
    else None.

(** The dispatches of a run of the loop, turn by turn. *)
Fixpoint run_dispatches (turns : list Turn) (l : Locals) : list Event :=
  match turns with
  | [] => []
  | (tk, sh) :: rest =>
      match audio_iteration tk l sh with
      | Die => []
      | Next l' _ _ =>
          match turn_dispatch tk l sh with
          | Some (e, _) => e :: run_dispatches rest l'
          | None => run_dispatches rest l'
          end
      end
  end.

(** [SpeechStart] and [SpeechEndQueued] in turns: no [SpeechEndQueued]
    without a [SpeechStart] since the one before; [open] tells whether a
    [SpeechStart] is waiting for its end. *)
Fixpoint well_bracketed (open : bool) (evs : list Event) : bool :=
  match evs with
  | [] => true
  | SpeechStart :: rest => well_bracketed true rest
  | SpeechEndQueued :: rest => open && well_bracketed false rest
  | _ :: _ => false
  end.

(** A turn taken while the machine is not [Speaking]. *)
Definition quiet_speaker (t : Turn) : Prop := state (sm (snd t)) <> Speaking.

(** A turn for which the VAD reports silence, and one for which it
    reports voice. *)
Definition silent (t : Turn) : Prop := is_speech (fst t) = 0%Z.
Definition voiced (t : Turn) : Prop := (0 < is_speech (fst t))%Z.

(** [a] is the end of [b]. *)
Definition suffix_of (a b : pcm) : Prop := exists older, b = older ++ a.

(** How much audio the buffers hold, with full frames: out of speech the
    pre-roll holds the voiced frames of the current run, in speech the
    utterance holds three frames of pre-roll and the silent frames of the
    current run. *)
Definition filled (l : Locals) : Prop :=
  if in_speech l
  then (960 + 320 * unvoiced_run l <= Z.of_nat (List.length (utterance l)))%Z
       /\ voiced_run l = 0%Z
  else (320 * voiced_run l <= Z.of_nat (List.length (preroll l)))%Z.

End CaptureMore.

(** ** The language model ([llm_llama.hpp], [llm_llama.cpp]) *)

Module Llama.
Import CLocale Text Brain.

(** [LlamaBrain::Params], the fields that [reply] reads. The [int]s are
    [Z]s within the range of [int32_t] ([well_sized]). *)
Record Params : Set := mkParams {
  n_ctx : Z;
  n_batch : Z;
  max_new_tokens : Z;
  max_prompt_tokens : Z;
  system_prompt : text;
  stop_on_newline : bool
}.

Definition int32_max : Z := 2147483647.
Definition int32_min : Z := -2147483648.

(** A value of type [int]. *)
Definition int32 (z : Z) : Prop := (int32_min <= z <= int32_max)%Z.

(** The result of an [int32_t] operation that leaves the range, as the
    two's-complement machine gives it. *)
Definition wrap32 (z : Z) : Z :=
  ((z - int32_min) mod 4294967296 + int32_min)%Z.

(** The fields of [Params] that [reply] computes with are [int]s. *)
Definition well_sized (p : Params) : Prop :=
  int32 (n_ctx p) /\ int32 (max_new_tokens p) /\ int32 (max_prompt_tokens p).

(** The defaults of [llm_llama.hpp] and the values that [main] sets. *)
Definition default_params : Params :=
  {| n_ctx := 512; n_batch := 64; max_new_tokens := 128;
     max_prompt_tokens := 384;
     system_prompt :=
       lit "You are Edna, a concise voice assistant. Answer in 1-2 sentences.";
     stop_on_newline := true |}.

Definition main_params : Params :=
  {| n_ctx := 1024; n_batch := 256; max_new_tokens := 96;
     max_prompt_tokens := max_prompt_tokens default_params;
     system_prompt := system_prompt default_params;
     stop_on_newline := stop_on_newline default_params |}.

(** [build_prompt]. *)
Definition build_prompt (p : Params) (user_text : text) : text :=
  let s := system_prompt p in
  let s1 :=
    if negb (empty s) && negb (Ascii.eqb (last s " "%char) newline)
    then s ++ [newline] else s in
  s1 ++ lit "User: " ++ user_text ++ newline :: lit "Edna:".

(** A token. *)
Definition token : Set := Z.

(** The context size that [reply] works with, [std::max(64, n_ctx)]. *)
Definition context_size (p : Params) : Z := Z.max 64 (n_ctx p).

(** The number of prompt tokens that [reply] allows. The sum
    [max_new_tokens + 8] is the one operation that can leave the range of
    [int32_t]; the differences stay within it. *)
Definition max_prompt (p : Params) : Z :=
  let safety := Z.max 32 (wrap32 (max_new_tokens p + 8)) in
  let m0 :=
    if (0 <? max_prompt_tokens p)%Z
    then max_prompt_tokens p else (context_size p - safety)%Z in
  let m1 := Z.min m0 (context_size p - safety) in
  if (m1 <? 16)%Z then 16%Z else m1.

(** The truncation of the prompt: keep the tail, put the
    beginning-of-sequence token in front unless it is there. *)
Definition clamp_prompt (p : Params) (bos : token) (toks : list token)
  : list token :=
  if (max_prompt p <? Z.of_nat (List.length toks))%Z then
    let tail := skipn (List.length toks - Z.to_nat (max_prompt p)) toks in
    match tail with
    | [] => tail
    | front :: _ => if (front =? bos)%Z then tail else bos :: tail
    end
  else toks.

(** The engine behind [reply]: what the calls into [llama.cpp] answer.
    The tokens decoded so far in the context, oldest first, stand for the
    state of the context, so a function of them is any behaviour. *)
Record Engine : Type := mkEngine {
  model_loaded : bool;                      (* [impl_->model], [impl_->vocab] *)
  context_created : bool;                   (* [llama_init_from_model] *)
  sampler_created : bool;                   (* [make_sampler] *)
  tokenize_prompt : text -> list token;
  vocab_bos : token;
  vocab_eos : token;
  decode : list token -> token -> Z;        (* [llama_decode], 0 for success *)
  logits_ready : list token -> bool;        (* [llama_get_logits_ith] *)
  sample : list token -> token;             (* [llama_sampler_sample] *)
  token_to_piece : token -> text
}.

(** [out.find(c)] for a character. *)
Fixpoint find_char_at (i : nat) (s : text) (c : ascii) : option nat :=
  match s with
  | [] => None
  | d :: t => if Ascii.eqb d c then Some i else find_char_at (S i) t c
  end.

Definition find_char (s : text) (c : ascii) : option nat := find_char_at 0 s c.

(** The loop "Prompt decode": the tokens decoded and the position after
    it, [None] when a [llama_decode] failed. *)
Fixpoint decode_prompt (E : Engine) (ctx : Z) (toks : list token)
         (hist : list token) (pos : Z) : option (list token * Z) :=
  match toks with
  | [] => Some (hist, pos)
  | tok :: rest =>
      if (ctx <=? pos)%Z then Some (hist, pos)
      else if negb (decode E hist tok =? 0)%Z then None
      else decode_prompt E ctx rest (hist ++ [tok]) (pos + 1)%Z
  end.

(** The generation loop, [fuel] the turns that are left of
    [max_new_tokens]; the result is [out] at the end of the loop. *)
Fixpoint generate (E : Engine) (p : Params) (fuel : nat)
         (hist : list token) (pos : Z) (out : text) : text :=
  match fuel with
  | 0 => out
  | S fuel' =>
      if (context_size p - 1 <=? pos)%Z then out
      else if negb (logits_ready E hist) then out
      else
        let tok := sample E hist in
        if (tok =? vocab_eos E)%Z then out
        else
          let out1 := out ++ token_to_piece E tok in
          match (if stop_on_newline p then find_char out1 newline else None) with
          | Some nl => firstn nl out1
          | None =>
              if negb (decode E hist tok =? 0)%Z
              then out1 ++ lit " (decode failed)"
              else generate E p fuel' (hist ++ [tok]) (pos + 1)%Z out1
          end
  end.

(** [LlamaBrain::reply]. *)
Definition reply (p : Params) (E : Engine) (user_text : text) : text :=
  if negb (model_loaded E) then lit "(no model)"
  else
    let prompt := build_prompt p user_text in
    if negb (context_created E) then lit "(failed to recreate context)"
    else if negb (sampler_created E) then lit "(failed to recreate sampler)"
    else
      let toks := tokenize_prompt E prompt in
      if match toks with [] => true | _ => false end then lit "(empty prompt)"
      else
        let toks1 := clamp_prompt p (vocab_bos E) toks in
        match decode_prompt E (context_size p) toks1 [] 0 with
        | None => lit "(decode failed on prompt)"
        | Some (hist, pos) =>
            let out :=
              generate E p (Z.to_nat (max_new_tokens p)) hist pos [] in
            let out1 := trim_ws out in
            if empty out1 then lit "(no response)" else out1
        end.

(** An engine that plays a script: the prompt is one token, the sampler
    gives the tokens of [script] one after the other and then the
    end-of-sequence token, a token is the code of its character. *)
Definition scripted_engine (script : text) : Engine :=
  {| model_loaded := true;
     context_created := true;
     sampler_created := true;
     tokenize_prompt := fun _ => [1%Z];
     vocab_bos := 1%Z;
     vocab_eos := 2%Z;
     decode := fun _ _ => 0%Z;
     logits_ready := fun _ => true;
     sample := fun hist =>
                 match nth_error script (List.length hist - 1) with
                 | Some c => Z.of_N (N_of_ascii c)
                 | None => 2%Z
                 end;
     token_to_piece := fun tok => [ascii_of_N (Z.to_N tok)] |}.

(** *** The reference count of the backend *)

(** [g_backend_once], [g_backend_refcnt], and the calls of
    [llama_backend_init] and [llama_backend_free] made so far. *)
Record Backend : Set := mkBackend {
  once_done : bool;
  refcnt : Z;
  inits : nat;
  frees : nat
}.

Definition fresh_backend : Backend :=
  {| once_done := false; refcnt := 0; inits := 0; frees := 0 |}.

Definition backend_acquire (b : Backend) : Backend :=
  {| once_done := true;
     refcnt := (refcnt b + 1)%Z;
     inits := if once_done b then inits b else S (inits b);
     frees := frees b |}.

Definition backend_release (b : Backend) : Backend :=
  let n := (refcnt b - 1)%Z in
  {| once_done := once_done b;
     refcnt := n;
     inits := inits b;
     frees := if (n =? 0)%Z then S (frees b) else frees b |}.

(** The constructors and destructors of [LlamaBrain] objects, in the
    order they run. *)
Inductive BackendOp : Set := Acquire | Release.

Definition backend_step (b : Backend) (op : BackendOp) : Backend :=
  match op with
  | Acquire => backend_acquire b
  | Release => backend_release b
  end.

(** A destructor runs on an object that was constructed: no prefix of
    the sequence releases more than it acquired. [live] counts the objects
    alive. *)
Fixpoint balanced (live : nat) (ops : list BackendOp) : bool :=
  match ops with
  | [] => true
  | Acquire :: rest => balanced (S live) rest
  | Release :: rest =>
      match live with
      | 0 => false
      | S live' => balanced live' rest
      end
  end.

End Llama.

(* ------------------------------------------------------------------ *)
(** ** The speech synthesizer ([tts_coqui.cpp]) *)
(* ------------------------------------------------------------------ *)

Module Coqui.
Import CLocale Text.

(** [CoquiTTS::Params]. *)
Record Params : Set := mkParams {
  out_device : text;
  python_bin : text;
  model_name : text;
  use_cuda : bool;
  tmp_dir : text;
  aplay_bin : text;
  aplay_extra_args : text
}.

(** The defaults of [tts_coqui.hpp] and the device that [main] sets. *)
Definition default_params : Params :=
  {| out_device := lit "default";
     python_bin := lit "python3";
     model_name := lit "tts_models/en/ljspeech/vits";
     use_cuda := false;
     tmp_dir := lit "/tmp";
     aplay_bin := lit "aplay";
     aplay_extra_args := [] |}.

Definition main_params : Params :=
  {| out_device := lit "plughw:CARD=V3,DEV=0";
     python_bin := python_bin default_params;
     model_name := model_name default_params;
     use_cuda := use_cuda default_params;
     tmp_dir := tmp_dir default_params;
     aplay_bin := aplay_bin default_params;
     aplay_extra_args := aplay_extra_args default_params |}.

(** [CoquiTTS::Worker]: the two descriptors, the process id, the flag. *)
Record Worker : Set := mkWorker {
  to_child : Z;
  from_child : Z;
  pid : Z;
  ready : bool
}.

(** [Worker{}]. *)
Definition no_worker : Worker :=
  {| to_child := -1; from_child := -1; pid := -1; ready := false |}.

(** The members of a [CoquiTTS] object. *)
Record Tts : Set := mkTts {
  p_ : Params;
  worker_ : Worker;
  enabled_ : bool;
  last_err_ : text
}.

(** [CoquiTTS(p)]: the worker is started by the first [speak]. *)
Definition new_tts (p : Params) : Tts :=
  {| p_ := p; worker_ := no_worker; enabled_ := true; last_err_ := [] |}.

Definition set_worker (t : Tts) (w : Worker) : Tts :=
  {| p_ := p_ t; worker_ := w; enabled_ := enabled_ t; last_err_ := last_err_ t |}.

Definition set_enabled (t : Tts) (b : bool) : Tts :=
  {| p_ := p_ t; worker_ := worker_ t; enabled_ := b; last_err_ := last_err_ t |}.

Definition set_err (t : Tts) (e : text) : Tts :=
  {| p_ := p_ t; worker_ := worker_ t; enabled_ := enabled_ t; last_err_ := e |}.

(** What the object does to the processes around it: a worker forked, a
    line handed to [write_all_locked] and whether all of it was written, a
    worker stopped (asked to quit, its descriptors closed, reaped or
    killed), the player run with an argument vector. *)
Inductive Effect : Set :=
| Spawned (child : Z)
| Written (data : text) (all : bool)
| Stopped (child : Z)
| Played (argv : list text).

(** *** What the operating system answers *)

(** One turn of the loop of [read_line_locked]: [select] fails (with
    [EINTR] or not) or times out, or [read] fails (with [EINTR] or not) or
    gives bytes; no bytes is the end of the file. *)
Inductive FdEvent : Set :=
| SelectFails (eintr : bool)
| SelectTimeout
| ReadFails (eintr : bool)
| ReadGives (chunk : text).

(** One call of [write]: an error (with [EINTR] or not) or the number of
    bytes taken. *)
Inductive WriteResult : Set :=
| WriteFails (eintr : bool)
| WriteTakes (w : nat).

(** The answers to [start_worker_locked]: the two calls of [pipe] (the
    descriptors, [None] for a failure), [fork] as the parent sees it (the
    child's id, [None] for a failure), and what the descriptor of the
    worker's output gives while the handshake reads. *)
Record StartOs : Set := mkStartOs {
  in_pipe : option (nat * nat);
  out_pipe : option (nat * nat);
  forked : option positive;
  hello : list FdEvent
}.

(** The answers to [play_wav_locked]: [fork], whether [waitpid] fails,
    [WIFEXITED] and [WEXITSTATUS]. *)
Record PlayOs : Set := mkPlayOs {
  play_forked : option positive;
  waitpid_fails : bool;
  exited : bool;
  exit_status : Z
}.

(** The answers to one call of [speak]. *)
Record SpeakOs : Set := mkSpeakOs {
  start_os : StartOs;
  write_os : list WriteResult;
  response : list FdEvent;
  play_os : PlayOs
}.

(** *** The functions of the file *)

Definition quote : ascii := "'"%char.
Definition space : ascii := " "%char.
Definition carriage_return : ascii := "013"%char.

(** [shell_escape_single_quotes]. *)
Fixpoint shell_escape_single_quotes (s : text) : text :=
  match s with
  | [] => []
  | c :: t =>
      (if Ascii.eqb c quote then lit "'\''" else [c])
        ++ shell_escape_single_quotes t
  end.

(** [stop_worker_locked]: the object forgets its worker; with a worker
    running, the worker is stopped. *)
Definition stop_worker_locked (t : Tts) : Tts * list Effect :=
  if (pid (worker_ t) <=? 0)%Z then (set_worker t no_worker, [])
  else (set_worker t no_worker, [Stopped (pid (worker_ t))]).

(** The loop of [write_all_locked], [off] the bytes written so far of
    [n]; the descriptor answers nothing more after the last result, which
    is an error. *)
Fixpoint write_all_loop (rs : list WriteResult) (n off : nat) : bool :=
  if n <=? off then true
  else
    match rs with
    | [] => false
    | WriteFails true :: rest => write_all_loop rest n off
    | WriteFails false :: _ => false
    | WriteTakes w :: rest => write_all_loop rest n (off + w)
    end.

(** [write_all_locked]. *)
Definition write_all_locked (t : Tts) (rs : list WriteResult) (data : text)
  : bool :=
  if (to_child (worker_ t) <? 0)%Z then false
  else write_all_loop rs (List.length data) 0.

(** The loop of [read_line_locked], [buf] the bytes read so far; the
    line, or [None] for [false]. The descriptor giving nothing more is
    [select] timing out. *)
Fixpoint read_line_loop (evs : list FdEvent) (buf : text) : option text :=
  match evs with
  | [] => None
  | SelectFails true :: rest => read_line_loop rest buf
  | SelectFails false :: _ => None
  | SelectTimeout :: _ => None
  | ReadFails true :: rest => read_line_loop rest buf
  | ReadFails false :: _ => None
  | ReadGives chunk :: rest =>
      if empty chunk then None
      else
        let buf1 := buf ++ chunk in
        match Llama.find_char buf1 Brain.newline with
        | Some pos =>
            let out_line := firstn pos buf1 in
            Some (if negb (empty out_line)
                     && Ascii.eqb (last out_line space) carriage_return
                  then removelast out_line else out_line)
        | None => read_line_loop rest buf1
        end
  end.

(** [read_line_locked]. *)
Definition read_line_locked (t : Tts) (evs : list FdEvent) : option text :=
  if (from_child (worker_ t) <? 0)%Z then None else read_line_loop evs [].

(** [worker_handshake_locked]. *)
Definition worker_handshake_locked (t : Tts) (evs : list FdEvent) : bool * Tts :=
  match read_line_locked t evs with
  | None => (false, set_err t (lit "TTS worker handshake timeout"))
  | Some line =>
      if negb (Asr.text_eqb line (lit "READY"))
      then (false, set_err t (lit "TTS worker bad hello: '" ++ line ++ lit "'"))
      else (true, t)
  end.

(** [start_worker_locked], in the parent process. *)
Definition start_worker_locked (t : Tts) (os : StartOs)
  : bool * Tts * list Effect :=
  if (0 <? pid (worker_ t))%Z && ready (worker_ t) then (true, t, [])
  else
    let '(t0, e0) :=
      if (0 <? pid (worker_ t))%Z then stop_worker_locked t else (t, []) in
    match in_pipe os with
    | None =>
        (false, set_enabled (set_err t0 (lit "pipe(in_pipe) failed")) false, e0)
    | Some (_, in1) =>
        match out_pipe os with
        | None =>
            (false,
             set_enabled (set_err t0 (lit "pipe(out_pipe) failed")) false, e0)
        | Some (out0, _) =>
            match forked os with
            | None =>
                (false, set_enabled (set_err t0 (lit "fork() failed")) false, e0)
            | Some child =>
                let t1 :=
                  set_worker t0 {| to_child := Z.of_nat in1;
                                   from_child := Z.of_nat out0;
                                   pid := Z.pos child;
                                   ready := false |} in
                let e1 := e0 ++ [Spawned (Z.pos child)] in
                let '(ok, t2) := worker_handshake_locked t1 (hello os) in
                if negb ok then
                  let '(t3, e3) := stop_worker_locked t2 in
                  let t4 := set_enabled t3 false in
                  let t5 :=
                    if empty (last_err_ t4)
                    then set_err t4 (lit "TTS worker bad hello") else t4 in
                  (false, t5, e1 ++ e3)
                else
                  (true,
                   {| p_ := p_ t2;
                      worker_ := {| to_child := to_child (worker_ t2);
                                    from_child := from_child (worker_ t2);
                                    pid := pid (worker_ t2);
                                    ready := true |};
                      enabled_ := true;
                      last_err_ := [] |},
                   e1)
            end
        end
    end.

(** [ensure_worker]. *)
Definition ensure_worker (t : Tts) (os : StartOs) : bool * Tts * list Effect :=
  if negb (enabled_ t) then (false, t, [])
  else if (0 <? pid (worker_ t))%Z && ready (worker_ t) then (true, t, [])
  else start_worker_locked t os.

(** [shutdown], [is_enabled], [last_error]. *)
Definition shutdown (t : Tts) : Tts * list Effect := stop_worker_locked t.

Definition is_enabled (t : Tts) : bool := enabled_ t.

Definition last_error (t : Tts) : text := last_err_ t.

(** The split of [aplay_extra_args] at the spaces, [cur] the argument
    that is being read. *)
Fixpoint split_extra_args (s cur : text) (args : list text) : list text :=
  match s with
  | [] => if negb (empty cur) then args ++ [cur] else args
  | c :: rest =>
      if Ascii.eqb c space then
        if negb (empty cur) then split_extra_args rest [] (args ++ [cur])
        else split_extra_args rest cur args
      else split_extra_args rest (cur ++ [c]) args
  end.

(** The argument vector that [play_wav_locked] builds. *)
Definition aplay_args (p : Params) (wav_path : text) : list text :=
  let args := [aplay_bin p] in
  let args :=
    if negb (empty (out_device p))
    then args ++ [lit "-D"; out_device p] else args in
  let args :=
    if negb (empty (aplay_extra_args p))
    then split_extra_args (aplay_extra_args p) [] args else args in
  args ++ [wav_path].

(** [play_wav_locked], in the parent process. *)
Definition play_wav_locked (t : Tts) (wav_path : text) (os : PlayOs)
  : bool * Tts * list Effect :=
  let argv := aplay_args (p_ t) wav_path in
  match play_forked os with
  | None => (false, set_err t (lit "fork() failed for aplay"), [])
  | Some _ =>
      if waitpid_fails os
      then (false, set_err t (lit "waitpid() failed for aplay"), [Played argv])
      else if negb (exited os) || negb (exit_status os =? 0)%Z
      then (false, set_err t (lit "aplay failed"), [Played argv])
      else (true, t, [Played argv])
  end.

(** [speak]. *)
Definition speak (t : Tts) (txt : text) (os : SpeakOs)
  : bool * Tts * list Effect :=
  if negb (enabled_ t) then (false, t, [])
  else
    let '(started, t0, e0) :=
      if (pid (worker_ t) <=? 0)%Z || negb (ready (worker_ t))
      then start_worker_locked t (start_os os) else (true, t, []) in
    if negb started then (false, t0, e0)
    else
      let line := txt ++ [Brain.newline] in
      let all := write_all_locked t0 (write_os os) line in
      let e1 := e0 ++ [Written line all] in
      if negb all then
        let '(t1, e2) :=
          stop_worker_locked
            (set_enabled (set_err t0 (lit "Failed writing to TTS worker")) false) in
        (false, t1, e1 ++ e2)
      else
        match read_line_locked t0 (response os) with
        | None =>
            let '(t1, e2) :=
              stop_worker_locked
                (set_enabled (set_err t0 (lit "TTS worker timeout")) false) in
            (false, t1, e1 ++ e2)
        | Some resp =>
            if starts_with (lit "ERR") resp
            then (false, set_err t0 (lit "TTS worker: " ++ resp), e1)
            else
              let '(ok, t1, e2) := play_wav_locked t0 resp (play_os os) in
              (ok, t1, e1 ++ e2)
        end.

(** *** A sequence of calls on one object *)

Inductive Call : Set :=
| Speak (txt : text) (os : SpeakOs)
| EnsureWorker (os : StartOs)
| Shutdown.

(** One call: what it returns ([None] for [void]), the object and the
    effects. *)
Definition call (t : Tts) (c : Call) : option bool * Tts * list Effect :=
  match c with
  | Speak txt os => let '(b, t', e) := speak t txt os in (Some b, t', e)
  | EnsureWorker os => let '(b, t', e) := ensure_worker t os in (Some b, t', e)
  | Shutdown => let '(t', e) := shutdown t in (None, t', e)
  end.

Fixpoint calls (t : Tts) (cs : list Call)
  : list (option bool) * Tts * list Effect :=
  match cs with
  | [] => ([], t, [])
  | c :: rest =>
      let '(r, t1, e1) := call t c in
      let '(rs, t2, e2) := calls t1 rest in
      (r :: rs, t2, e1 ++ e2)
  end.

(** The object has no worker, or one that passed the handshake. *)
Definition settled (t : Tts) : Prop :=
  worker_ t = no_worker
  \/ ((0 < pid (worker_ t))%Z /\ ready (worker_ t) = true
      /\ (0 <= to_child (worker_ t))%Z /\ (0 <= from_child (worker_ t))%Z).

(** What holds of the object between two calls. *)
Definition consistent (t : Tts) : Prop :=
  settled t /\ (enabled_ t = false -> worker_ t = no_worker).

(** The workers forked and the workers stopped in a list of effects. *)
Definition spawned (es : list Effect) : list Z :=
  flat_map (fun e => match e with Spawned c => [c] | _ => [] end) es.

Definition stopped (es : list Effect) : list Z :=
  flat_map (fun e => match e with Stopped c => [c] | _ => [] end) es.

(** The worker that the object holds. *)
Definition held (t : Tts) : list Z :=
  if (0 <? pid (worker_ t))%Z then [pid (worker_ t)] else [].

(** An effect that reaches a process: a fork, a write, a player. *)
Definition reaches_out (e : Effect) : bool :=
  match e with
  | Stopped _ => false
  | _ => true
  end.

(** A process that is forked or stopped, the effects around a worker. *)
Definition worker_effect (e : Effect) : Prop :=
  exists child : Z, e = Spawned child \/ e = Stopped child.

(** Answers of a system that works: the pipes and the fork succeed, the
    worker says [READY], takes the line, answers with a path, and the
    player exits with 0. *)
Definition good_start : StartOs :=
  {| in_pipe := Some (3, 4); out_pipe := Some (5, 6);
     forked := Some 100%positive;
     hello := [ReadGives (lit "READY" ++ [Brain.newline])] |}.

Definition good_play : PlayOs :=
  {| play_forked := Some 101%positive; waitpid_fails := false;
     exited := true; exit_status := 0 |}.

Definition good_os : SpeakOs :=
  {| start_os := good_start;
     write_os := [WriteTakes 3; WriteFails true; WriteTakes 64];
     response := [ReadGives (lit "/tmp/edna_tts_100_1.wav" ++ [Brain.newline])];
     play_os := good_play |}.

(** The same, with a worker that does not answer the line. *)
Definition mute_os : SpeakOs :=
  {| start_os := good_start;
     write_os := [WriteTakes 64];
     response := [SelectTimeout];
     play_os := good_play |}.

(** The bytes that a list of events delivers. *)
Definition bytes (evs : list FdEvent) : text :=
  flat_map (fun e => match e with ReadGives chunk => chunk | _ => [] end) evs.

(** An event after which [read_line_locked] reads on: an interrupted
    call, or bytes. *)
Definition benign (e : FdEvent) : bool :=
  match e with
  | SelectFails eintr => eintr
  | SelectTimeout => false
  | ReadFails eintr => eintr
  | ReadGives chunk => negb (empty chunk)
  end.



End Coqui.

(* ================================================================== *)
(** * Part II: the properties *)
(* ================================================================== *)

Section StateMachineProperties.
Import EdnaStateMachine.

Lemma dispatch_st (m : Machine) (ev : Event) (note : string) :
  st_ (dispatch m ev note) = fst (transition_locked (st_ m) ev note).
Proof.
  unfold dispatch.
  destruct (transition_locked (st_ m) ev note) as [to did] eqn:E; simpl.
  destruct did; [reflexivity|].
  destruct (st_ m), ev; simpl in E; congruence.
Qed.










End StateMachineProperties.

(** ** Strings: trimming and normalization *)

Section TextProperties.
Import CLocale Text.

Lemma leading_ws_le (s : text) : leading_ws s <= List.length s.
Proof. induction s as [| c t IH]; simpl; [lia|]. destruct (isspace c); simpl; lia. Qed.

Lemma skipn_leading_ws (s : text) : skipn (leading_ws s) s = lstrip s.
Proof. induction s as [| c t IH]; simpl; [reflexivity|]. destruct (isspace c); auto. Qed.

Lemma lstrip_suffix (s : text) : exists w, s = w ++ lstrip s /\ blank w.
Proof.
  induction s as [| c t (w & IH & Hw)]; simpl.
  - exists []. split; [reflexivity | constructor].
  - destruct (isspace c) eqn:E.
    + exists (c :: w). split; [simpl; congruence | constructor; assumption].
    + exists []. split; [reflexivity | constructor].
Qed.

Lemma lstrip_idem (s : text) : lstrip (lstrip s) = lstrip s.
Proof.
  induction s as [| c t IH]; simpl; [reflexivity|].
  destruct (isspace c) eqn:E; [exact IH|]. simpl. rewrite E. reflexivity.
Qed.

Lemma rstrip_prefix (s : text) : exists w, s = rstrip s ++ w /\ blank w.
Proof.
  unfold rstrip. destruct (lstrip_suffix (rev s)) as (w & H & Hw).
  exists (rev w). split.
  - rewrite <- rev_app_distr, <- H, rev_involutive. reflexivity.
  - apply Forall_rev. exact Hw.
Qed.

Lemma rstrip_idem (s : text) : rstrip (rstrip s) = rstrip s.
Proof. unfold rstrip. rewrite rev_involutive, lstrip_idem. reflexivity. Qed.

Lemma rstrip_snoc (s : text) (c : ascii) :
  rstrip (s ++ [c]) = if isspace c then rstrip s else s ++ [c].
Proof.
  unfold rstrip. rewrite rev_app_distr. simpl.
  destruct (isspace c); [reflexivity|].
  simpl. rewrite rev_involutive. reflexivity.
Qed.

Lemma rstrip_nil : rstrip [] = [].
Proof. reflexivity. Qed.

Lemma trim_back_spec (pre mid extra : text) :
  trim_back (pre ++ mid ++ extra) (List.length pre)
            (List.length pre + List.length mid)
  = List.length pre + List.length (rstrip mid).
Proof.
  revert extra. induction mid as [| c m IH] using rev_ind; intros extra.
  - rewrite rstrip_nil. simpl. rewrite Nat.add_0_r.
    destruct (List.length pre) as [| a] eqn:E; [reflexivity|].
    cbn [trim_back]. rewrite Nat.ltb_irrefl. reflexivity.
  - rewrite length_app. simpl List.length.
    replace (List.length pre + (List.length m + 1))
      with (S (List.length pre + List.length m)) by lia.
    cbn [trim_back].
    replace (List.length pre <? S (List.length pre + List.length m)) with true
      by (symmetry; apply Nat.ltb_lt; lia).
    rewrite <- app_assoc. rewrite (app_assoc pre m).
    rewrite app_nth2 by (rewrite length_app; lia).
    rewrite length_app, Nat.sub_diag. simpl nth.
    rewrite rstrip_snoc. simpl andb.
    destruct (isspace c).
    + rewrite <- app_assoc. apply (IH ([c] ++ extra)).
    + rewrite length_app. simpl. lia.
Qed.

Lemma trim_ws_strip (s : text) : trim_ws s = rstrip (lstrip s).
Proof.
  unfold trim_ws, substr.
  pose proof (leading_ws_le s) as Hle.
  pose proof (firstn_skipn (leading_ws s) s) as Hsplit.
  rewrite skipn_leading_ws in *.
  set (pre := firstn (leading_ws s) s) in *.
  assert (Hpre : List.length pre = leading_ws s)
    by (unfold pre; rewrite length_firstn; lia).
  assert (Hlen : List.length s = List.length pre + List.length (lstrip s))
    by (rewrite <- Hsplit at 1; apply length_app).
  rewrite Hlen. rewrite <- Hsplit at 1. rewrite <- Hpre.
  rewrite <- (app_nil_r (lstrip s)) at 1.
  rewrite trim_back_spec.
  replace (List.length pre + List.length (rstrip (lstrip s)) - List.length pre)
    with (List.length (rstrip (lstrip s))) by lia.
  destruct (rstrip_prefix (lstrip s)) as (w & Hw & _).
  rewrite Hw at 2. rewrite firstn_app, Nat.sub_diag, firstn_all. simpl.
  apply app_nil_r.
Qed.

(** Facts about single characters, checked on all 256 of them. *)
Ltac all_chars c :=
  destruct c as [[] [] [] [] [] [] [] []]; vm_compute; try tauto; try congruence.

Lemma lower_or_space_class (c : ascii) :
  isspace (lower_or_space c) = true
  \/ (isspace (lower_or_space c) = false
      /\ Ascii.eqb (lower_or_space c) " " = false
      /\ (islower (lower_or_space c) || isdigit (lower_or_space c)) = true).
Proof. all_chars c. Qed.

Lemma normal_char_fixed (c : ascii) :
  (islower c || isdigit c) = true ->
  lower_or_space c = c /\ isspace c = false.
Proof. all_chars c. Qed.

Lemma collapse_wellspaced (s : text) (prev : bool) :
  wellspaced prev (collapse prev (map lower_or_space s)) = true.
Proof.
  revert prev. induction s as [| c t IH]; intros prev; simpl; [reflexivity|].
  destruct (lower_or_space_class c) as [Hsp | (Hsp & Hne & Hcl)]; rewrite Hsp.
  - destruct prev; simpl.
    + apply IH.
    + apply IH.
  - simpl. rewrite Hne, Hcl. simpl. apply IH.
Qed.

Lemma wellspaced_app_l (a b : text) (prev : bool) :
  wellspaced prev (a ++ b) = true -> wellspaced prev a = true.
Proof.
  revert prev. induction a as [| c t IH]; intros prev; simpl; [reflexivity|].
  destruct (Ascii.eqb c " ").
  - intros H. apply andb_prop in H as [H1 H2]. rewrite H1. simpl. eauto.
  - intros H. apply andb_prop in H as [H1 H2]. rewrite H1. simpl. eauto.
Qed.

Lemma wellspaced_lstrip (s : text) : wellspaced true s = true -> lstrip s = s.
Proof.
  destruct s as [| c t]; simpl; [reflexivity|].
  destruct (Ascii.eqb c " ") eqn:E; simpl; [discriminate|].
  intros H. apply andb_prop in H as [H1 _].
  destruct (normal_char_fixed c H1) as [_ Hsp]. rewrite Hsp. reflexivity.
Qed.

Lemma wellspaced_map (s : text) (prev : bool) :
  wellspaced prev s = true -> map lower_or_space s = s.
Proof.
  revert prev. induction s as [| c t IH]; intros prev; simpl; [reflexivity|].
  destruct (Ascii.eqb c " ") eqn:E; intros H; apply andb_prop in H as [H1 H2].
  - apply Ascii.eqb_eq in E. subst c. f_equal. eauto.
  - destruct (normal_char_fixed c H1) as [Hc _]. rewrite Hc. f_equal. eauto.
Qed.

Lemma wellspaced_collapse (s : text) (prev : bool) :
  wellspaced prev s = true -> collapse prev s = s.
Proof.
  revert prev. induction s as [| c t IH]; intros prev; simpl; [reflexivity|].
  destruct (Ascii.eqb c " ") eqn:E; intros H; apply andb_prop in H as [H1 H2].
  - apply Ascii.eqb_eq in E. subst c.
    destruct prev; [discriminate|]. simpl. f_equal. eauto.
  - destruct (normal_char_fixed c H1) as [_ Hsp]. rewrite Hsp. simpl. f_equal. eauto.
Qed.

Lemma normalize_normal_form (s : text) : normal_form (normalize s).
Proof.
  unfold normalize, normal_form.
  pose proof (collapse_wellspaced s true) as Hw.
  set (out := collapse true (map lower_or_space s)) in *.
  rewrite trim_ws_strip, (wellspaced_lstrip out Hw).
  split.
  - destruct (rstrip_prefix out) as (w & Hout & _).
    apply (wellspaced_app_l (rstrip out) w). rewrite <- Hout. exact Hw.
  - apply rstrip_idem.
Qed.

Lemma normalize_fixes_normal_form (s : text) : normal_form s -> normalize s = s.
Proof.
  intros [Hw Hr]. unfold normalize.
  rewrite (wellspaced_map s true Hw), (wellspaced_collapse s true Hw).
  rewrite trim_ws_strip, (wellspaced_lstrip s Hw). exact Hr.
Qed.

Lemma solid_blank (w : text) : blank w -> solid w = [].
Proof.
  induction 1 as [| c w Hc _ IH]; simpl; [reflexivity|]. rewrite Hc. exact IH.
Qed.

Lemma solid_app (a b : text) : solid (a ++ b) = solid a ++ solid b.
Proof. apply filter_app. Qed.

Lemma solid_trim_ws (s : text) : solid (trim_ws s) = solid s.
Proof.
  rewrite trim_ws_strip.
  destruct (lstrip_suffix s) as (w1 & H1 & B1).
  destruct (rstrip_prefix (lstrip s)) as (w2 & H2 & B2).
  rewrite H1 at 2. rewrite H2 at 2.
  rewrite !solid_app, (solid_blank w1 B1), (solid_blank w2 B2), app_nil_r.
  reflexivity.
Qed.

Lemma solid_collapse (s : text) (prev : bool) : solid (collapse prev s) = solid s.
Proof.
  revert prev. induction s as [| c t IH]; intros prev; simpl; [reflexivity|].
  rewrite solid_app, IH. destruct (isspace c) eqn:E; simpl.
  - destruct prev; reflexivity.
  - rewrite E. reflexivity.
Qed.

Lemma lower_or_space_solid (c : ascii) :
  (isalnum c = true
   /\ lower_or_space c = tolower c /\ isspace (tolower c) = false)
  \/ (isalnum c = false /\ isspace (lower_or_space c) = true).
Proof. all_chars c. Qed.

Lemma solid_lower_or_space (s : text) :
  solid (map lower_or_space s) = map tolower (filter isalnum s).
Proof.
  induction s as [| c t IH]; simpl; [reflexivity|].
  destruct (lower_or_space_solid c) as [(Ha & Hl & Hs) | (Ha & Hs)]; rewrite Ha.
  - rewrite Hl, Hs. simpl. rewrite <- IH. reflexivity.
  - rewrite Hs. simpl. exact IH.
Qed.

(** C9. [normalize] is idempotent. What it computes: every character
    that is neither alphanumeric nor whitespace becomes a space and the
    letters become lower-case ([lower_or_space]); the runs of whitespace
    collapse to one space ([collapse]); the ends are trimmed. The result
    consists of lower-case letters, digits and single inner spaces
    ([normal_form]), such a string is left as it is, and its characters
    other than the spaces are the alphanumeric characters of the input in
    lower case. *)
Theorem C9_normalize_idempotent :
  forall s : text,
    normalize (normalize s) = normalize s
    /\ normal_form (normalize s)
    /\ solid (normalize s) = map tolower (filter isalnum s).
Proof.
  intros s. split; [| split].
  - apply normalize_fixes_normal_form, normalize_normal_form.
  - apply normalize_normal_form.
  - unfold normalize.
    rewrite solid_trim_ws, solid_collapse. apply solid_lower_or_space.
Qed.

End TextProperties.

(** ** Invocation stripping *)

Section InvocationProperties.
Import CLocale Text.

Lemma strip_chain_false (pfxs : list text) (t t' : text) :
  strip_chain pfxs t = (false, t') ->
  t' = t /\ Forall (fun p => starts_with p t = false) pfxs.
Proof.
  induction pfxs as [| p ps IH]; simpl.
  - intros H. inversion H. auto.
  - unfold strip_prefix. destruct (starts_with p t) eqn:E; [discriminate|].
    intros H. destruct (IH H) as [-> HF]. auto.
Qed.

Lemma strip_chain_true (pfxs : list text) (t t' : text) :
  strip_chain pfxs t = (true, t') ->
  exists before p after,
    pfxs = before ++ p :: after
    /\ Forall (fun q => starts_with q t = false) before
    /\ starts_with p t = true
    /\ t' = trim_ws (substr_from t (List.length p)).
Proof.
  induction pfxs as [| p ps IH]; simpl; [discriminate|].
  unfold strip_prefix. destruct (starts_with p t) eqn:E.
  - intros H. inversion H. exists [], p, ps. auto.
  - intros H. destruct (IH H) as (b & q & a & -> & HF & Hq & Ht).
    exists (p :: b), q, a. auto.
Qed.

Lemma starts_with_app_l (a b t : text) :
  starts_with (a ++ b) t = true -> starts_with a t = true.
Proof.
  revert t. induction a as [| c a IH]; intros t; simpl; [reflexivity|].
  destruct t as [| d t]; [discriminate|].
  intros H. apply andb_prop in H as [H1 H2]. rewrite H1. simpl. auto.
Qed.

(** What [strip_invocation] does on every input: without a matching
    prefix the text is left as it is; otherwise the FIRST prefix of the
    chain that matches the normalized text is removed from it and the
    rest is trimmed. *)
Lemma strip_invocation_first_match (txt : text) :
  (strip_invocation txt = (false, txt)
   /\ Forall (fun p => starts_with p (normalize txt) = false) invocation_prefixes)
  \/ (exists before p after,
         invocation_prefixes = before ++ p :: after
         /\ Forall (fun q => starts_with q (normalize txt) = false) before
         /\ starts_with p (normalize txt) = true
         /\ strip_invocation txt
            = (true, trim_ws (substr_from (normalize txt) (List.length p)))).
Proof.
  unfold strip_invocation.
  destruct (strip_chain invocation_prefixes (normalize txt)) as [[|] t'] eqn:E.
  - right. destruct (strip_chain_true _ _ _ E) as (b & p & a & H1 & H2 & H3 & ->).
    exists b, p, a. auto.
  - left. destruct (strip_chain_false _ _ _ E) as [_ HF]. auto.
Qed.

(** C3. On the transcript "ed nah what time" the chain strips "ed", the
    first prefix that matches, and leaves "nah what time"; the longest
    matching prefix of the list is "ed nah", whose removal leaves
    "what time". The entries "ed nah" and "ed na" come after "ed" in the
    chain, so they never apply. *)
Theorem C3_first_match_is_not_longest :
  strip_invocation (lit "ed nah what time") = (true, lit "nah what time")
  /\ longest_match invocation_prefixes (normalize (lit "ed nah what time"))
     = Some (lit "ed nah")
  /\ strip_invocation_longest (lit "ed nah what time") = (true, lit "what time")
  /\ (forall t p, In p [lit "ed nah"; lit "ed na"] ->
                  starts_with p t = true -> starts_with (lit "ed") t = true).
Proof.
  repeat split; try reflexivity.
  intros t p [<- | [<- | []]] H.
  - apply (starts_with_app_l (lit "ed") (lit " nah")). exact H.
  - apply (starts_with_app_l (lit "ed") (lit " na")). exact H.
Qed.

End InvocationProperties.

(** ** The sentence splitter *)

Section SplitterProperties.
Import CLocale Text.

Lemma raw_fragments_cons (s : text) : exists f fs, raw_fragments s = f :: fs.
Proof.
  destruct s as [| c rest]; simpl; [eauto|].
  destruct (boundary c rest); [eauto|].
  destruct (raw_fragments rest); eauto.
Qed.

Lemma raw_fragments_concat (s : text) : List.concat (raw_fragments s) = s.
Proof.
  induction s as [| c rest IH]; simpl; [reflexivity|].
  destruct (boundary c rest); simpl.
  - f_equal. exact IH.
  - destruct (raw_fragments rest) as [| f fs]; simpl in *; rewrite <- IH; reflexivity.
Qed.

Lemma prepend_nil (frs : list text) : frs <> [] -> prepend [] frs = frs.
Proof. destruct frs; simpl; intros H; [contradiction | reflexivity]. Qed.

Lemma flush_out (st : Splitter) :
  out (flush st) = out st ++ clean [trim_ws (cur st)].
Proof.
  unfold flush, clean; simpl.
  destruct (empty (trim_ws (cur st))); simpl; [symmetry; apply app_nil_r | reflexivity].
Qed.

Lemma clean_app (a b : list text) : clean (a ++ b) = clean a ++ clean b.
Proof. apply filter_app. Qed.

Lemma split_loop_spec (s : text) (st : Splitter) :
  out (flush (split_loop s st))
  = out st ++ clean (map trim_ws (prepend (cur st) (raw_fragments s))).
Proof.
  revert st. induction s as [| c rest IH]; intros st.
  - simpl. rewrite app_nil_r. apply flush_out.
  - assert (Hkeep :
      out (flush (split_loop rest {| cur := cur st ++ [c]; out := out st |}))
      = out st ++ clean (map trim_ws
                           (prepend (cur st)
                              (match raw_fragments rest with
                               | f :: fs => (c :: f) :: fs
                               | [] => [[c]]
                               end)))).
    { rewrite IH. simpl.
      destruct (raw_fragments_cons rest) as (f & fs & ->). simpl.
      rewrite <- app_assoc. reflexivity. }
    cbn [split_loop raw_fragments]. unfold boundary.
    destruct (end_punct c); simpl negb; cbv iota; [| exact Hkeep].
    assert (Hb : (empty rest
                  || negb (empty rest)
                     && match rest with n :: _ => isspace n | [] => false end)
                 = match rest with [] => true | n :: _ => isspace n end)
      by (destruct rest; reflexivity).
    rewrite Hb. simpl andb.
    destruct (match rest with [] => true | n :: _ => isspace n end);
      [| exact Hkeep].
    rewrite IH. rewrite flush_out. simpl cur. simpl out.
    rewrite prepend_nil
      by (destruct (raw_fragments_cons rest) as (f & fs & ->); discriminate).
    rewrite <- app_assoc. f_equal.
    change (map trim_ws (prepend (cur st) ([c] :: raw_fragments rest)))
      with ([trim_ws (cur st ++ [c])] ++ map trim_ws (raw_fragments rest)).
    rewrite clean_app. reflexivity.
Qed.

Lemma fragments_spec (s : text) : fragments s = spec_fragments s.
Proof.
  unfold fragments, spec_fragments. rewrite split_loop_spec. simpl.
  destruct (raw_fragments_cons s) as (f & fs & ->). reflexivity.
Qed.

(** [rfind]: the index found holds the character and no later index up
    to [pos] does; [npos] means that no index up to [pos] holds it. *)
Lemma rfind_at_spec (s : text) (ch : ascii) (pos i : nat) :
  match rfind_at i s ch pos with
  | Some j =>
      i <= j <= pos
      /\ nth_error s (j - i) = Some ch
      /\ (forall k, j < k <= pos -> nth_error s (k - i) <> Some ch)
  | None =>
      forall k, i <= k <= pos -> nth_error s (k - i) <> Some ch
  end.
Proof.
  revert i. induction s as [| c t IH]; intros i.
  - simpl. intros k _. destruct (k - i); discriminate.
  - cbn [rfind_at].
    assert (Hstep : forall k, i < k -> nth_error (c :: t) (k - i) = nth_error t (k - S i)).
    { intros k Hk. replace (k - i) with (S (k - S i)) by lia. reflexivity. }
    destruct (i <? pos) eqn:Elt.
    + apply Nat.ltb_lt in Elt. specialize (IH (S i)).
      destruct (rfind_at (S i) t ch pos) as [j |].
      * destruct IH as (Hj & Hn & Hlast). repeat split; try lia.
        -- rewrite Hstep by lia. exact Hn.
        -- intros k Hk. rewrite Hstep by lia. apply Hlast. lia.
      * replace (i <=? pos) with true by (symmetry; apply Nat.leb_le; lia).
        simpl andb. destruct (Ascii.eqb c ch) eqn:Ec.
        -- apply Ascii.eqb_eq in Ec. subst c. repeat split; try lia.
           ++ rewrite Nat.sub_diag. reflexivity.
           ++ intros k Hk. rewrite Hstep by lia. apply IH. lia.
        -- intros k Hk. destruct (Nat.eq_dec k i) as [-> | Hne].
           ++ rewrite Nat.sub_diag. simpl. intros H. inversion H.
              subst c. rewrite Ascii.eqb_refl in Ec. discriminate.
           ++ rewrite Hstep by lia. apply IH. lia.
    + apply Nat.ltb_ge in Elt.
      destruct (i <=? pos) eqn:Ele; simpl andb.
      * apply Nat.leb_le in Ele. destruct (Ascii.eqb c ch) eqn:Ec.
        -- apply Ascii.eqb_eq in Ec. subst c. repeat split; try lia.
           rewrite Nat.sub_diag. reflexivity.
        -- intros k Hk. replace k with i by lia.
           rewrite Nat.sub_diag. simpl. intros H. inversion H.
           subst c. rewrite Ascii.eqb_refl in Ec. discriminate.
      * apply Nat.leb_gt in Ele. intros k Hk. lia.
Qed.

Lemma wrap_cut_good (s : text) (pos : nat) :
  pos < List.length s -> good_cut s pos (wrap_cut s pos).
Proof.
  intros Hpos. unfold good_cut, wrap_cut, rfind, no_space_between.
  set (take := Nat.min 180 (List.length s - pos)).
  assert (Htake : 1 <= take) by (unfold take; lia).
  pose proof (rfind_at_spec s " " (pos + take) 0) as H.
  destruct (rfind_at 0 s " " (pos + take)) as [j |].
  - destruct H as (Hj & Hn & Hlast). rewrite Nat.sub_0_r in Hn.
    destruct (j <=? pos) eqn:E.
    + apply Nat.leb_le in E. split; [lia|]. right. split; [reflexivity|].
      intros k Hk. specialize (Hlast k). rewrite Nat.sub_0_r in Hlast.
      apply Hlast. lia.
    + apply Nat.leb_gt in E. split; [lia|]. left. split; [exact Hn|].
      intros k Hk. specialize (Hlast k). rewrite Nat.sub_0_r in Hlast.
      apply Hlast. lia.
  - split; [lia|]. right. split; [reflexivity|].
    intros k Hk. specialize (H k). rewrite Nat.sub_0_r in H. apply H. lia.
Qed.

(** A window has one good cut only. *)
Lemma good_cut_unique (s : text) (pos c1 c2 : nat) :
  good_cut s pos c1 -> good_cut s pos c2 -> c1 = c2.
Proof.
  unfold good_cut, no_space_between.
  intros (B1 & [(S1 & N1) | (E1 & N1)]) (B2 & [(S2 & N2) | (E2 & N2)]).
  - destruct (Nat.lt_trichotomy c1 c2) as [H | [H | H]]; [| exact H |].
    + exfalso. apply (N1 c2); [lia | exact S2].
    + exfalso. apply (N2 c1); [lia | exact S1].
  - exfalso. apply (N2 c1); [lia | exact S1].
  - exfalso. apply (N1 c2); [lia | exact S2].
  - lia.
Qed.

Lemma good_cut_bounds (s : text) (pos cut : nat) :
  pos < List.length s -> good_cut s pos cut ->
  pos < cut /\ cut <= List.length s /\ cut - pos <= 180.
Proof. unfold good_cut. intros H (B & _). lia. Qed.

Lemma skip_ws_ge (s : text) (pos : nat) : pos <= skip_ws s pos.
Proof. unfold skip_ws. lia. Qed.

Lemma wrap_loop_spec (fuel : nat) (s : text) (pos : nat) (acc : list text) :
  List.length s - pos <= fuel ->
  exists chunks,
    wrap_loop fuel s pos acc = Some (acc ++ chunks) /\ wrapped s pos chunks.
Proof.
  revert pos acc. induction fuel as [| fuel IH]; intros pos acc Hfuel.
  - exists []. simpl.
    replace (List.length s <=? pos) with true by (symmetry; apply Nat.leb_le; lia).
    rewrite app_nil_r. split; [reflexivity|]. constructor. lia.
  - cbn [wrap_loop]. destruct (List.length s <=? pos) eqn:E.
    + apply Nat.leb_le in E. exists []. rewrite app_nil_r.
      split; [reflexivity|]. constructor. exact E.
    + apply Nat.leb_gt in E.
      pose proof (wrap_cut_good s pos E) as Hgood.
      destruct (good_cut_bounds s pos _ E Hgood) as (Hlt & _ & _).
      pose proof (skip_ws_ge s (wrap_cut s pos)) as Hskip.
      destruct (IH (skip_ws s (wrap_cut s pos))
                   (acc ++ [trim_ws (substr s pos (wrap_cut s pos - pos))]))
        as (chunks & Hrun & Hw); [lia|].
      exists (trim_ws (substr s pos (wrap_cut s pos - pos)) :: chunks).
      split.
      * rewrite Hrun, <- app_assoc. reflexivity.
      * apply wrapped_cut; assumption.
Qed.

(** The soft wrap always returns: [s.size()] turns are enough. *)
Lemma wrap_loop_total (s : text) :
  exists chunks, wrap_loop (List.length s) s 0 [] = Some chunks /\ wrapped s 0 chunks.
Proof.
  destruct (wrap_loop_spec (List.length s) s 0 []) as (chunks & H & Hw); [lia|].
  exists chunks. auto.
Qed.

Lemma wrapped_unique (s : text) (pos : nat) (l1 l2 : list text) :
  wrapped s pos l1 -> wrapped s pos l2 -> l1 = l2.
Proof.
  intros H1. revert l2. induction H1 as [pos Hend | pos cut chunks Hpos Hcut Hrest IH];
    intros l2 H2; inversion H2 as [pos' Hend' | pos' cut' chunks' Hpos' Hcut' Hrest']; subst.
  - reflexivity.
  - lia.
  - lia.
  - rewrite (good_cut_unique s pos cut cut' Hcut Hcut') in *.
    f_equal. apply IH. exact Hrest'.
Qed.

Lemma trim_ws_length (s : text) : List.length (trim_ws s) <= List.length s.
Proof.
  unfold trim_ws, substr. rewrite length_firstn, length_skipn. lia.
Qed.

Lemma wrapped_chunks_short (s : text) (pos : nat) (chunks : list text) :
  wrapped s pos chunks -> Forall (fun c => List.length c <= 180) chunks.
Proof.
  induction 1 as [| pos cut chunks Hpos Hcut Hrest IH]; constructor; [| exact IH].
  destruct (good_cut_bounds s pos cut Hpos Hcut) as (_ & _ & H180).
  pose proof (trim_ws_length (substr s pos (cut - pos))) as Hl.
  unfold substr in Hl at 2. rewrite length_firstn in Hl. lia.
Qed.

Lemma clean_nonempty (parts : list text) :
  Forall (fun c => c <> []) (clean parts).
Proof.
  unfold clean. apply Forall_forall. intros c Hc.
  apply filter_In in Hc as [_ Hc]. destruct c; [discriminate | congruence].
Qed.

Lemma clean_short (parts : list text) :
  Forall (fun c => List.length c <= 180) parts ->
  Forall (fun c => List.length c <= 180) (clean parts).
Proof.
  unfold clean. rewrite !Forall_forall. intros H c Hc.
  apply filter_In in Hc as [Hc _]. auto.
Qed.

(** [split_sentences] always returns. *)
Lemma split_sentences_total (input : text) :
  exists parts, split_sentences input = Some parts.
Proof.
  unfold split_sentences.
  destruct (fragments input) as [| f [| g rest]]; eauto.
  destruct (180 <? List.length f); eauto.
  unfold soft_wrap. destruct (wrap_loop_total f) as (chunks & -> & _).
  simpl. eauto.
Qed.

(** C8, in the form the code satisfies.
    The first loop cuts the reply exactly after each [.],
    [!] or [?] that is followed by whitespace or by the end of the input,
    trims the pieces and drops the empty ones; nothing but the cuts is
    changed ([raw_fragments] concatenates back to the input). Unless that
    leaves a single fragment of more than 180 characters, these fragments
    are the result. A single fragment [f] of more than 180 characters is
    wrapped, and the wrap always returns: each window is cut at its last
    space character at most 180 characters after its start, and after
    180 characters (or at the end of [f]) when it holds no space; the
    pieces are trimmed and the empty ones dropped, so every chunk is
    non-empty and at most 180 characters long. "The sky is blue.
    Usually." gives the two chunks "The sky is blue." and "Usually.". *)
Theorem C8_split_sentences_wrap :
  (forall input : text,
      fragments input = spec_fragments input
      /\ List.concat (raw_fragments input) = input)
  /\ (forall input : text,
         (forall f, fragments input = [f] -> List.length f <= 180) ->
         split_sentences input = Some (fragments input))
  /\ (forall input f : text,
         fragments input = [f] -> 180 < List.length f ->
         exists chunks,
           wrapped f 0 chunks
           /\ (forall l, wrapped f 0 l -> l = chunks)
           /\ split_sentences input = Some (clean chunks)
           /\ Forall (fun c => c <> []) (clean chunks)
           /\ Forall (fun c => List.length c <= 180) (clean chunks))
  /\ split_sentences (lit "The sky is blue. Usually.")
     = Some [lit "The sky is blue."; lit "Usually."].
Proof.
  split; [| split; [| split]].
  - intros input. split; [apply fragments_spec | apply raw_fragments_concat].
  - intros input H. unfold split_sentences.
    destruct (fragments input) as [| f [| g rest]] eqn:E; try reflexivity.
    specialize (H f eq_refl).
    replace (180 <? List.length f) with false
      by (symmetry; apply Nat.ltb_ge; exact H).
    reflexivity.
  - intros input f E Hlen. unfold split_sentences. rewrite E.
    replace (180 <? List.length f) with true
      by (symmetry; apply Nat.ltb_lt; exact Hlen).
    destruct (wrap_loop_total f) as (chunks & Hrun & Hw).
    exists chunks. repeat split.
    + exact Hw.
    + intros l Hl. apply (wrapped_unique f 0 l chunks Hl Hw).
    + unfold soft_wrap. rewrite Hrun. reflexivity.
    + apply clean_nonempty.
    + apply clean_short. apply (wrapped_chunks_short f 0 chunks Hw).
  - vm_compute. reflexivity.
Qed.

(** The two directions of C8 at work: a short reply is returned as its
    fragments, a long unpunctuated one is wrapped. *)
Lemma C8_split_sentences_wrap_witness :
  split_sentences (lit "Hello there. How are you")
  = Some (fragments (lit "Hello there. How are you"))
  /\ exists chunks,
       wrapped (repeat "a"%char 181) 0 chunks
       /\ split_sentences (repeat "a"%char 181) = Some (clean chunks).
Proof.
  split.
  - apply (proj1 (proj2 C8_split_sentences_wrap)).
    intros f H. vm_compute in H. discriminate H.
  - destruct (proj1 (proj2 (proj2 C8_split_sentences_wrap))
                (repeat "a"%char 181) (repeat "a"%char 181))
      as (chunks & Hw & _ & Hs & _).
    + vm_compute. reflexivity.
    + rewrite repeat_length. apply Nat.ltb_lt. vm_compute. reflexivity.
    + exists chunks. split; assumption.
Defined.

(** C8 in the wording of the specification does not hold: the wrap does
    not always cut at whitespace. In a fragment of 100 letters, a tab and
    100 letters more, whitespace lies before the 180th character, yet the
    cut falls after the 180th character, inside the second word; [rfind]
    looks for the space character only. *)
Lemma C8_cut_inside_word_counterexample :
  ~ (forall s : text,
        fragments s = [s] -> 180 < List.length s ->
        wrap_cut s 0 < List.length s ->
        isspace (nth (wrap_cut s 0) s " "%char) = true).
Proof.
  intros H.
  specialize (H (repeat "a"%char 100 ++ ["009"%char] ++ repeat "a"%char 100)).
  assert (Hcut : isspace (nth (wrap_cut (repeat "a"%char 100 ++ ["009"%char]
                                           ++ repeat "a"%char 100) 0)
                             (repeat "a"%char 100 ++ ["009"%char]
                                ++ repeat "a"%char 100) " "%char) = true).
  { apply H.
    - vm_compute. reflexivity.
    - apply Nat.ltb_lt. vm_compute. reflexivity.
    - apply Nat.ltb_lt. vm_compute. reflexivity. }
  vm_compute in Hcut. discriminate Hcut.
Qed.

End SplitterProperties.

(** ** The ASR stage *)

Section AsrProperties.
Import CLocale Text Queues EdnaStateMachine Asr.

Lemma text_eqb_eq (a b : text) : text_eqb a b = true <-> a = b.
Proof.
  revert b. induction a as [| x a IH]; intros [| y b]; simpl;
    try (split; [discriminate | congruence]); [tauto|].
  rewrite andb_true_iff, Ascii.eqb_eq, IH.
  split; [intros [-> ->]; reflexivity | intros H; inversion H; auto].
Qed.

Lemma transcribe_failure (whisper : Recognizer) (audio : pcm) :
  rc (whisper audio) <> 0%Z -> transcribe_16k_mono_s16 whisper audio = [].
Proof.
  intros Hrc. unfold transcribe_16k_mono_s16.
  destruct audio as [| a rest]; [reflexivity|].
  apply Z.eqb_neq in Hrc. rewrite Hrc. reflexivity.
Qed.

Lemma transcribe_sentinel (whisper : Recognizer) (audio : pcm) :
  trim_ws (join_segments (segment_text (whisper audio))) = BLANK_AUDIO ->
  transcribe_16k_mono_s16 whisper audio = [].
Proof.
  intros Hs. unfold transcribe_16k_mono_s16.
  destruct audio as [| a rest]; [reflexivity|].
  destruct (negb (rc (whisper (a :: rest)) =? 0)%Z); [reflexivity|].
  rewrite Hs. reflexivity.
Qed.

Lemma asr_turn_blank (whisper : Recognizer) (audio : pcm) (sh : Shared) :
  audio <> [] ->
  List.length (trim_ws (transcribe_16k_mono_s16 whisper audio)) < 2 ->
  asr_turn whisper audio sh = no_command sh "blank audio".
Proof.
  intros Ha Hlen. unfold asr_turn.
  destruct audio as [| a rest]; [contradiction|].
  apply Nat.ltb_lt in Hlen. rewrite Hlen. reflexivity.
Qed.

Lemma asr_turn_enqueue (whisper : Recognizer) (audio : pcm) (sh : Shared) :
  text_q (asr_turn whisper audio sh) = text_q sh
  \/ exists cmd,
      strip_invocation (trim_ws (transcribe_16k_mono_s16 whisper audio)) = (true, cmd)
      /\ trim_ws cmd <> []
      /\ 2 <= List.length (trim_ws (transcribe_16k_mono_s16 whisper audio))
      /\ text_q (asr_turn whisper audio sh) = text_q sh ++ [trim_ws cmd]
      /\ sm (asr_turn whisper audio sh) = dispatch (sm sh) TranscriptReady no_note.
Proof.
  unfold asr_turn. destruct audio as [| a rest]; [left; reflexivity|].
  set (txt := trim_ws (transcribe_16k_mono_s16 whisper (a :: rest))).
  destruct (List.length txt <? 2) eqn:Elen; simpl orb; [left; reflexivity|].
  destruct (text_eqb txt BLANK_AUDIO); [left; reflexivity|].
  destruct (strip_invocation txt) as [invoked cmd].
  destruct invoked; simpl negb; cbv iota; [| left; reflexivity].
  destruct (trim_ws cmd) as [| c0 cmd'] eqn:Ecmd; simpl empty; cbv iota;
    [left; reflexivity|].
  right. exists cmd. rewrite Ecmd. apply Nat.ltb_ge in Elen.
  repeat split; try reflexivity; [discriminate | exact Elen].
Qed.

Lemma no_command_effect (sh : Shared) (note : string) :
  sm (no_command sh note) = dispatch (sm sh) NoCommand note
  /\ text_q (no_command sh note) = text_q sh
  /\ audio_q (no_command sh note) = audio_q sh
  /\ (state (sm sh) = Transcribing \/ state (sm sh) = Thinking ->
      state (sm (no_command sh note)) = AwaitSpeech)
  /\ (state (sm sh) <> Transcribing -> state (sm sh) <> Thinking ->
      state (sm (no_command sh note)) = state (sm sh)).
Proof.
  unfold no_command, state. cbn [sm text_q audio_q].
  split; [reflexivity|]. split; [reflexivity|]. split; [reflexivity|].
  rewrite dispatch_st. split.
  - intros [-> | ->]; reflexivity.
  - intros H1 H2. destruct (st_ (sm sh)); try reflexivity; contradiction.
Qed.

(** C6. A non-zero status of the recognizer and the sentinel
    "[BLANK_AUDIO]" both give the empty transcript. When the trimmed
    transcript is shorter than 2 characters (the empty one included), the
    stage dispatches [NoCommand] with the note "blank audio" to the
    machine, which goes to [AwaitSpeech] from [Transcribing] (and from
    [Thinking]) and stays where it is from any other state, and the
    command queue and the utterance queue stay as they are: nothing is
    enqueued; so it is after a non-zero status. Whenever
    the stage changes the command queue, an invocation prefix matched,
    the trimmed remainder is not empty, and that remainder is the one
    entry appended, after [TranscriptReady] went to the machine. *)
Theorem C6_blank_audio_no_command :
  forall (whisper : Recognizer) (audio : pcm) (sh : Shared),
    (rc (whisper audio) <> 0%Z -> transcribe_16k_mono_s16 whisper audio = [])
    /\ (trim_ws (join_segments (segment_text (whisper audio))) = BLANK_AUDIO ->
        transcribe_16k_mono_s16 whisper audio = [])
    /\ (audio <> [] ->
        List.length (trim_ws (transcribe_16k_mono_s16 whisper audio)) < 2 ->
        sm (asr_turn whisper audio sh) = dispatch (sm sh) NoCommand "blank audio"
        /\ text_q (asr_turn whisper audio sh) = text_q sh
        /\ audio_q (asr_turn whisper audio sh) = audio_q sh
        /\ (state (sm sh) = Transcribing \/ state (sm sh) = Thinking ->
            state (sm (asr_turn whisper audio sh)) = AwaitSpeech)
        /\ (state (sm sh) <> Transcribing -> state (sm sh) <> Thinking ->
            state (sm (asr_turn whisper audio sh)) = state (sm sh)))
    /\ (audio <> [] -> rc (whisper audio) <> 0%Z ->
        sm (asr_turn whisper audio sh) = dispatch (sm sh) NoCommand "blank audio"
        /\ text_q (asr_turn whisper audio sh) = text_q sh
        /\ audio_q (asr_turn whisper audio sh) = audio_q sh
        /\ (state (sm sh) = Transcribing \/ state (sm sh) = Thinking ->
            state (sm (asr_turn whisper audio sh)) = AwaitSpeech)
        /\ (state (sm sh) <> Transcribing -> state (sm sh) <> Thinking ->
            state (sm (asr_turn whisper audio sh)) = state (sm sh)))
    /\ (text_q (asr_turn whisper audio sh) = text_q sh
        \/ exists cmd,
            strip_invocation (trim_ws (transcribe_16k_mono_s16 whisper audio))
            = (true, cmd)
            /\ trim_ws cmd <> []
            /\ 2 <= List.length (trim_ws (transcribe_16k_mono_s16 whisper audio))
            /\ text_q (asr_turn whisper audio sh) = text_q sh ++ [trim_ws cmd]
            /\ sm (asr_turn whisper audio sh) = dispatch (sm sh) TranscriptReady no_note).
Proof.
  intros whisper audio sh. split; [| split; [| split; [| split]]].
  - apply transcribe_failure.
  - apply transcribe_sentinel.
  - intros Ha Hlen. rewrite (asr_turn_blank whisper audio sh Ha Hlen).
    apply no_command_effect.
  - intros Ha Hrc.
    assert (Hlen : List.length (trim_ws (transcribe_16k_mono_s16 whisper audio)) < 2).
    { rewrite (transcribe_failure whisper audio Hrc). simpl. lia. }
    rewrite (asr_turn_blank whisper audio sh Ha Hlen).
    apply no_command_effect.
  - apply asr_turn_enqueue.
Qed.

(** C6 on a recognizer that fails on every buffer, with the machine in
    [Transcribing], the observer installed and a command waiting. *)
Lemma C6_blank_audio_no_command_witness :
  let whisper : Recognizer := fun _ => {| rc := 1; segment_text := [] |} in
  let sh := {| sm := dispatch_all (set_observer initial)
                       [(Start, "start()"%string);
                        (SpeechStart, "VAD start_trigger"%string);
                        (SpeechEndQueued, "VAD stop_trigger"%string)];
               audio_q := []; text_q := [lit "what time is it"] |} in
  transcribe_16k_mono_s16 whisper [0%Z] = []
  /\ state (sm sh) = Transcribing
  /\ state (sm (asr_turn whisper [0%Z] sh)) = AwaitSpeech
  /\ text_q (asr_turn whisper [0%Z] sh) = [lit "what time is it"].
Proof.
  intros whisper sh.
  destruct (C6_blank_audio_no_command whisper [0%Z] sh)
    as (Hfail & _ & _ & Hturn & _).
  split; [apply Hfail; simpl; discriminate|].
  split; [reflexivity|].
  destruct Hturn as (_ & Hq & _ & Hgo & _); [discriminate | simpl; discriminate|].
  split; [apply Hgo; left; reflexivity | exact Hq].
Defined.

End AsrProperties.

(** ** The speech stage *)

Section SpeechProperties.
Import Text EdnaStateMachine Speech.

Lemma speak_parts_spec (E : TtsEngine) (parts : list text) (t : tts E) :
  forall cs ok t',
    speak_parts E t parts = (cs, ok, t') ->
    exists rest,
      chunks_of parts = map fst cs ++ rest
      /\ (ok = true -> rest = [] /\ Forall succeeded cs)
      /\ (ok = false ->
          exists cs0 c, cs = cs0 ++ [(c, false)] /\ Forall succeeded cs0).
Proof.
  revert t. induction parts as [| p parts IH]; intros t cs ok t' H.
  - simpl in H. inversion H; subst. exists []. repeat split; auto. discriminate.
  - cbn [speak_parts] in H. unfold chunks_of, clean in *. cbn [map filter].
    destruct (trim_ws p) as [| c0 chunk] eqn:Ep; cbn [empty negb] in *.
    + apply (IH t cs ok t' H).
    + destruct (speak E t (c0 :: chunk)) as [r t1] eqn:Es.
      destruct r.
      * destruct (speak_parts E t1 parts) as [[more all_ok] t2] eqn:Er.
        inversion H; subst.
        destruct (IH t1 more ok t' Er) as (rest & Hc & Hok & Hfail).
        exists rest. split; [simpl; rewrite Hc; reflexivity|]. split.
        -- intros Hk. destruct (Hok Hk) as [-> HF]. split; [reflexivity|].
           constructor; [reflexivity | exact HF].
        -- intros Hk. destruct (Hfail Hk) as (cs0 & c & -> & HF).
           exists ((c0 :: chunk, true) :: cs0), c. split; [reflexivity|].
           constructor; [reflexivity | exact HF].
      * inversion H; subst.
        exists (filter (fun q => negb (empty q)) (map trim_ws parts)).
        split; [reflexivity|]. split; [discriminate|].
        intros _. exists [], (c0 :: chunk). split; [reflexivity | constructor].
Qed.

(** C7, in the form the code satisfies.
    The stage always comes to its end and dispatches
    [TtsDone] exactly once, whatever [speak] answers, and also when the
    synthesizer is disabled. With the synthesizer enabled, [speak] is
    called on the non-empty trimmed chunks in their order; a chunk that
    fails is logged and ends the loop: the calls made are a prefix of the
    chunks, all of them succeeded but, when [tts_ok] is false, the last
    one, and when [tts_ok] is true every chunk was spoken. *)
Theorem C7_tts_done_once_stop_at_failure :
  forall (E : TtsEngine) (t : tts E) (m : Machine) (reply : text),
  exists (r : SpeechResult E) (parts : list text),
    split_sentences reply = Some parts
    /\ speech_stage E t m reply = Some r
    /\ dispatched r = [(TtsDone, no_note)]
    /\ machine r = dispatch m TtsDone no_note
    /\ (is_enabled E t = false -> calls r = [] /\ tts_ok r = true)
    /\ (is_enabled E t = true ->
        exists rest,
          chunks_of parts = map fst (calls r) ++ rest
          /\ (tts_ok r = true ->
              rest = [] /\ Forall succeeded (calls r) /\ failures_logged r = 0)
          /\ (tts_ok r = false ->
              failures_logged r = 1
              /\ exists cs0 c,
                  calls r = cs0 ++ [(c, false)] /\ Forall succeeded cs0)).
Proof.
  intros E t m reply.
  destruct (split_sentences_total reply) as [parts Hparts].
  unfold speech_stage. rewrite Hparts.
  destruct (is_enabled E t) eqn:Een.
  - destruct (speak_parts E t parts) as [[cs ok] t'] eqn:Es.
    eexists. exists parts. split; [reflexivity|]. split; [reflexivity|].
    simpl. repeat split; try discriminate.
    intros _. destruct (speak_parts_spec E parts t cs ok t' Es)
      as (rest & Hc & Hok & Hfail).
    exists rest. split; [exact Hc|]. split.
    + intros ->. destruct (Hok eq_refl). auto.
    + intros ->. split; [reflexivity|]. apply Hfail. reflexivity.
  - eexists. exists parts. split; [reflexivity|]. split; [reflexivity|].
    simpl. repeat split; discriminate.
Qed.

(** C7 on a synthesizer that fails on every chunk: the first chunk is
    tried, the second is not, and [TtsDone] is dispatched. *)
Lemma C7_tts_done_once_stop_at_failure_witness :
  exists r : SpeechResult failing_engine,
    speech_stage failing_engine tt (start initial) (lit "One. Two.") = Some r
    /\ dispatched r = [(TtsDone, no_note)]
    /\ calls r = [(lit "One.", false)].
Proof.
  destruct (C7_tts_done_once_stop_at_failure
              failing_engine tt (start initial) (lit "One. Two."))
    as (r & parts & _ & Hr & Hd & _).
  exists r. split; [exact Hr|]. split; [exact Hd|].
  vm_compute in Hr. inversion Hr. reflexivity.
Defined.

(** C7 in the wording of the specification does not hold: after a failed
    chunk the next chunk is not attempted. With a synthesizer that fails,
    the reply "One. Two." has two chunks and [speak] is called on the
    first only. *)
Lemma C7_break_on_failure_counterexample :
  ~ (forall (E : TtsEngine) (t : tts E) (m : Machine) (reply : text)
            (parts : list text) (r : SpeechResult E),
        is_enabled E t = true ->
        split_sentences reply = Some parts ->
        speech_stage E t m reply = Some r ->
        map fst (calls r) = chunks_of parts).
Proof.
  intros H.
  specialize (H failing_engine tt initial (lit "One. Two.")
                [lit "One."; lit "Two."]
                (mkSpeechResult failing_engine [(lit "One.", false)] false 1 tt
                                 [(TtsDone, no_note)] initial)
                eq_refl eq_refl eq_refl).
  vm_compute in H. discriminate H.
Qed.

End SpeechProperties.

(** ** The audio loop *)

Section CaptureProperties.
Import Queues EdnaStateMachine Capture.

Lemma update_preroll_length (pre frm : pcm) :
  List.length (update_preroll pre frm) <= max_preroll_samples.
Proof.
  unfold update_preroll.
  destruct (max_preroll_samples <? List.length (pre ++ frm)) eqn:E.
  - apply Nat.ltb_lt in E. rewrite length_skipn. lia.
  - apply Nat.ltb_ge in E. exact E.
Qed.

(** Every case of the turn, one goal each. *)
Ltac turn_cases H :=
  unfold audio_iteration in H; cbv zeta in H;
  repeat match type of H with
         | context [if ?b then _ else _] => destruct b eqn:?
         end;
  inversion H; subst; clear H.

Lemma turn_bounded (tk : Tick) (l l' : Locals) (sh sh' : Shared) (e : option pcm) :
  bounded l -> audio_iteration tk l sh = Next l' sh' e -> bounded l'.
Proof.
  intros (Hv & Hu & Hi & Hp) H.
  pose proof (update_preroll_length (preroll l) (frame tk)) as Hpre.
  unfold bounded.
  turn_cases H; simpl;
    change start_trigger with 3%Z in *; change stop_trigger with 20%Z in *;
    change cooldown_frames with 30%Z in *;
    repeat match goal with
           | E : (_ <? _)%Z = true |- _ => apply Z.ltb_lt in E
           | E : (_ <? _)%Z = false |- _ => apply Z.ltb_ge in E
           | E : (_ <=? _)%Z = true |- _ => apply Z.leb_le in E
           | E : (_ <=? _)%Z = false |- _ => apply Z.leb_gt in E
           end;
    repeat split; try lia; try exact Hpre.
Qed.

Lemma run_snoc (turns : list Turn) (t : Turn) (l : Locals) :
  run (turns ++ [t]) l
  = match run turns l with
    | Some l1 =>
        match audio_iteration (fst t) l1 (snd t) with
        | Die => None
        | Next l2 _ _ => Some l2
        end
    | None => None
    end.
Proof.
  revert l. induction turns as [| [tk sh] turns IH]; intros l; simpl.
  - destruct t as [tk sh]. simpl. destruct (audio_iteration tk l sh); reflexivity.
  - destruct (audio_iteration tk l sh); [reflexivity | apply IH].
Qed.

Lemma initial_bounded : bounded initial_locals.
Proof.
  unfold bounded. simpl.
  change start_trigger with 3%Z. change stop_trigger with 20%Z.
  change cooldown_frames with 30%Z. lia.
Qed.

(** The counters of the loop stay in small ranges, so the [int]s of the
    source never overflow, and the pre-roll never holds more than 15
    frames. *)
Lemma reachable_bounds (turns : list Turn) (l : Locals) :
  run turns initial_locals = Some l -> bounded l.
Proof.
  revert l. induction turns as [| t turns IH] using rev_ind; intros l H.
  - inversion H. apply initial_bounded.
  - rewrite run_snoc in H.
    destruct (run turns initial_locals) as [l1 |]; [| discriminate].
    destruct (audio_iteration (fst t) l1 (snd t)) as [| l2 sh2 e] eqn:E;
      [discriminate|].
    inversion H; subst.
    apply (turn_bounded (fst t) l1 l (snd t) sh2 e); [apply IH; reflexivity | exact E].
Qed.

(** How a turn leaves the loop in speech: it detects the speech and seeds
    the utterance with the pre-roll, or it appends its frame. *)
Lemma turn_in_speech (tk : Tick) (l l' : Locals) (sh sh' : Shared) (e : option pcm) :
  audio_iteration tk l sh = Next l' sh' e ->
  in_speech l' = true ->
  e = None
  /\ ((in_speech l = false
       /\ utterance l' = preroll l'
       /\ preroll l' = update_preroll (preroll l) (frame tk))
      \/ (in_speech l = true /\ utterance l' = utterance l ++ frame tk)).
Proof.
  intros H Hin. turn_cases H; simpl in Hin; try discriminate Hin;
    (split; [reflexivity|]); simpl;
    match goal with
    | E : negb (in_speech l) = true |- _ =>
        apply negb_true_iff in E; left; auto
    | E : negb (in_speech l) = false |- _ =>
        apply negb_false_iff in E; right; auto
    end.
Qed.

(** What a turn that enqueues does. *)
Lemma turn_enqueue (tk : Tick) (l l' : Locals) (sh sh' : Shared) (u : pcm) :
  audio_iteration tk l sh = Next l' sh' (Some u) ->
  in_speech l = true
  /\ u = utterance l ++ frame tk
  /\ min_utterance_samples <= List.length u
  /\ audio_q sh' = [u]
  /\ in_speech l' = false
  /\ utterance l' = []
  /\ sm sh' = dispatch (sm sh) SpeechEndQueued "VAD stop_trigger".
Proof.
  intros H. turn_cases H; simpl;
    match goal with
    | E : negb (in_speech l) = false |- _ => apply negb_false_iff in E
    end;
    match goal with
    | E : (min_utterance_samples <=? _) = true |- _ => apply Nat.leb_le in E
    end;
    repeat split; auto.
Qed.

(** What a turn that ends the speech does with a short utterance. *)
Lemma turn_drop (tk : Tick) (l l' : Locals) (sh sh' : Shared) (e : option pcm) :
  audio_iteration tk l sh = Next l' sh' e ->
  in_speech l = true -> in_speech l' = false ->
  List.length (utterance l ++ frame tk) < min_utterance_samples ->
  e = None
  /\ (audio_q sh' = audio_q sh \/ audio_q sh' = [])
  /\ utterance l' = [].
Proof.
  intros H Hin Hout Hshort. turn_cases H;
    try match goal with
        | E : (min_utterance_samples <=? _) = true |- _ =>
            apply Nat.leb_le in E; lia
        end;
    try match goal with
        | E : negb (in_speech l) = true |- _ => rewrite Hin in E; discriminate E
        end;
    simpl in Hout; try discriminate Hout; simpl;
    repeat split; auto.
Qed.

Lemma frames_of_snoc (turns : list Turn) (t : Turn) :
  frames_of (turns ++ [t]) = frames_of turns ++ frame (fst t).
Proof.
  unfold frames_of. rewrite map_app, concat_app. simpl.
  rewrite app_nil_r. reflexivity.
Qed.

Lemma history_invariant (turns : list Turn) (l : Locals) :
  run turns initial_locals = Some l -> in_speech_inv turns l.
Proof.
  revert l. induction turns as [| t turns IH] using rev_ind; intros l H.
  - inversion H. intros Hin. discriminate Hin.
  - pose proof H as Hall. rewrite run_snoc in H.
    destruct (run turns initial_locals) as [l1 |] eqn:Hrun; [| discriminate].
    destruct (audio_iteration (fst t) l1 (snd t)) as [| l2 sh2 e] eqn:E;
      [discriminate|].
    inversion H; subst. clear H. intros Hin.
    destruct (turn_in_speech (fst t) l1 l (snd t) sh2 e E Hin)
      as (-> & [(Hout & Hu & Hp) | (Hin1 & Hu)]).
    + exists (preroll l), []. split.
      * exists turns, t, l1, l, sh2.
        repeat (split; [solve [auto | rewrite Hp; apply update_preroll_length]|]).
        intros d1 d2 Hd. symmetry in Hd. apply app_eq_nil in Hd as [-> _].
        exists l. split; [exact Hall | exact Hin].
      * rewrite Hu. unfold frames_of. simpl. symmetry. apply app_nil_r.
    + destruct (IH l1 eq_refl Hin1) as (pre & during & Hh & Hutt).
      exists pre, (during ++ [t]). split.
      * destruct Hh as (before & st & l0 & l1' & sh1 & Ht & H1 & H2 & H3 & H4
                        & H5 & H6 & H7 & Hsp).
        exists before, st, l0, l1', sh1.
        split; [rewrite Ht, <- app_assoc; reflexivity|].
        repeat (split; [assumption|]).
        intros d1 d2 Hd. destruct d2 as [| x d2 _] using rev_ind.
        -- rewrite app_nil_r in Hd. subst d1. exists l. split; [| exact Hin].
           rewrite app_comm_cons, app_assoc, <- Ht. exact Hall.
        -- rewrite app_assoc in Hd. apply app_inj_tail in Hd as [Hd _].
           apply (Hsp d1 d2 Hd).
      * rewrite Hu, Hutt, frames_of_snoc, app_assoc. reflexivity.
Qed.

Lemma duration_ms_lower (u : pcm) :
  min_utterance_samples <= List.length u <-> (200 <= duration_ms u)%Z.
Proof.
  unfold duration_ms, min_utterance_samples, sr. split; intros H.
  - apply Z.div_le_lower_bound; lia.
  - destruct (Nat.le_gt_cases 3200 (List.length u)) as [Hle | Hgt]; [exact Hle|].
    exfalso.
    assert (Z.of_nat (List.length u) * 1000 / 16000 < 200)%Z
      by (apply Z.div_lt_upper_bound; lia).
    lia.
Qed.

Lemma duration_ms_preroll (pre : pcm) :
  List.length pre <= max_preroll_samples -> (duration_ms pre <= 300)%Z.
Proof.
  change max_preroll_samples with 4800. unfold duration_ms, sr. intros H.
  apply Z.div_le_upper_bound; lia.
Qed.

(** C4, in the form the code satisfies.
    Every utterance that the audio loop enqueues lasts at
    least 200 ms; it is the pre-roll as it stood when the speech was
    detected, at most 15 frames (300 ms) long, followed by the frames of
    the turns since then, the enqueuing turn included, and by nothing
    else; it is the only entry of the queue afterwards. The pre-roll
    never exceeds 15 frames. A speech that ends with less than 200 ms in
    the utterance is dropped: nothing is enqueued and the utterance is
    reset. No upper bound on the duration is enforced. *)
Theorem C4_enqueued_utterance :
  (forall (turns : list Turn) (l : Locals) (tk : Tick) (sh : Shared)
          (l' : Locals) (sh' : Shared) (u : pcm),
      run turns initial_locals = Some l ->
      audio_iteration tk l sh = Next l' sh' (Some u) ->
      (200 <= duration_ms u)%Z
      /\ audio_q sh' = [u]
      /\ exists pre during,
          speech_history turns pre during
          /\ List.length pre <= Z.to_nat (preroll_frames * frame_samples)
          /\ (duration_ms pre <= 300)%Z
          /\ u = pre ++ frames_of during ++ frame tk)
  /\ (forall (turns : list Turn) (l : Locals),
         run turns initial_locals = Some l ->
         List.length (preroll l) <= Z.to_nat (preroll_frames * frame_samples))
  /\ (forall (tk : Tick) (l l' : Locals) (sh sh' : Shared) (e : option pcm),
         audio_iteration tk l sh = Next l' sh' e ->
         in_speech l = true -> in_speech l' = false ->
         (duration_ms (utterance l ++ frame tk) < 200)%Z ->
         e = None
         /\ (audio_q sh' = audio_q sh \/ audio_q sh' = [])
         /\ utterance l' = []).
Proof.
  split; [| split].
  - intros turns l tk sh l' sh' u Hrun Hstep.
    destruct (turn_enqueue tk l l' sh sh' u Hstep)
      as (Hin & Hu & Hlen & Hq & _).
    split; [apply duration_ms_lower; exact Hlen|]. split; [exact Hq|].
    destruct (history_invariant turns l Hrun Hin) as (pre & during & Hh & Hutt).
    exists pre, during. split; [exact Hh|].
    assert (Hpre : List.length pre <= max_preroll_samples).
    { destruct Hh as (b & st & l0 & l1 & sh1 & _ & _ & _ & _ & _ & _ & _ & Hp & _).
      exact Hp. }
    split; [exact Hpre|]. split; [apply duration_ms_preroll; exact Hpre|].
    rewrite Hu, Hutt, <- app_assoc. reflexivity.
  - intros turns l Hrun.
    destruct (reachable_bounds turns l Hrun) as (_ & _ & _ & Hp). exact Hp.
  - intros tk l l' sh sh' e Hstep Hin Hout Hshort.
    apply (turn_drop tk l l' sh sh' e Hstep Hin Hout).
    destruct (Nat.lt_ge_cases (List.length (utterance l ++ frame tk))
                              min_utterance_samples) as [Hlt | Hge]; [exact Hlt|].
    apply duration_ms_lower in Hge. lia.
Qed.

(** C4 on the shortest speech: three voiced frames and twenty silent ones
    give an utterance of 23 frames, 460 ms. *)
Lemma C4_enqueued_utterance_witness :
  exists u,
    enqueued_after (long_speech 3) silent_tick listening = Some u
    /\ (200 <= duration_ms u)%Z.
Proof.
  assert (Hc : option_map duration_ms
                 (enqueued_after (long_speech 3) silent_tick listening)
               = Some 460%Z) by (vm_compute; reflexivity).
  unfold enqueued_after in *.
  destruct (run (long_speech 3) initial_locals) as [l |] eqn:Hrun;
    [| discriminate Hc].
  destruct (audio_iteration silent_tick l listening) as [| l' sh' e] eqn:Hstep;
    [discriminate Hc|].
  destruct e as [u |]; [| discriminate Hc].
  exists u. split; [reflexivity|].
  apply (proj1 C4_enqueued_utterance (long_speech 3) l silent_tick listening
               l' sh' u Hrun Hstep).
Defined.

(** C4 in the wording of the specification does not hold: nothing caps
    an utterance at 10 s. A speech of 503 voiced frames and 20 silent ones
    is enqueued whole, 523 frames, 10460 ms. *)
Lemma C4_longer_than_ten_seconds_counterexample :
  ~ (forall (turns : list Turn) (l : Locals) (tk : Tick) (sh : Shared)
            (l' : Locals) (sh' : Shared) (u : pcm),
        Forall (fun t => full_frame (fst t)) turns -> full_frame tk ->
        run turns initial_locals = Some l ->
        audio_iteration tk l sh = Next l' sh' (Some u) ->
        (200 <= duration_ms u <= 10000)%Z).
Proof.
  intros H.
  assert (Hc : option_map duration_ms
                 (enqueued_after (long_speech 503) silent_tick listening)
               = Some 10460%Z) by (vm_compute; reflexivity).
  unfold enqueued_after in Hc.
  destruct (run (long_speech 503) initial_locals) as [l |] eqn:Hrun;
    [| discriminate Hc].
  destruct (audio_iteration silent_tick l listening) as [| l' sh' e] eqn:Hstep;
    [discriminate Hc|].
  destruct e as [u |]; [| discriminate Hc].
  simpl in Hc. inversion Hc as [Hd].
  assert (Hfull : Forall (fun t : Turn => full_frame (fst t)) (long_speech 503)).
  { unfold long_speech. apply Forall_app. split;
      apply Forall_forall; intros t Ht; apply repeat_spec in Ht; subst t;
      reflexivity. }
  specialize (H (long_speech 503) l silent_tick listening l' sh' u
                Hfull eq_refl Hrun Hstep).
  lia.
Qed.

(** C2, in the form the code satisfies.
    In a turn of the audio loop that finds the machine in
    [Speaking], or the cooldown counter non-zero, or that follows a turn
    in [Speaking] (the turn that arms the cooldown), the frame is
    discarded: nothing is enqueued, the in-speech flag, the voiced and
    unvoiced runs, the utterance and the pre-roll are reset, and the
    utterance queue is empty at the end of the turn. The machine and the
    command queue are left as they are, and a cooldown already running
    goes down by one. *)
Theorem C2_mic_gate_speaking_or_cooldown :
  forall (turns : list Turn) (l : Locals) (tk : Tick) (sh : Shared),
    run turns initial_locals = Some l ->
    state (sm sh) = Speaking \/ ignore_frames l <> 0%Z
    \/ last_was_speaking l = true ->
    exists l' sh',
      audio_iteration tk l sh = Next l' sh' None
      /\ in_speech l' = false
      /\ voiced_run l' = 0%Z
      /\ unvoiced_run l' = 0%Z
      /\ utterance l' = []
      /\ preroll l' = []
      /\ audio_q sh' = []
      /\ text_q sh' = text_q sh
      /\ sm sh' = sm sh
      /\ (last_was_speaking l = false -> ignore_frames l <> 0%Z ->
          ignore_frames l' = (ignore_frames l - 1)%Z).
Proof.
  intros turns l tk sh Hrun Hgate.
  destruct (reachable_bounds turns l Hrun) as (_ & _ & Hi & _).
  change cooldown_frames with 30%Z in Hi.
  unfold audio_iteration. cbv zeta.
  set (speaking_now := State_beq (state (sm sh)) Speaking).
  set (ignore1 := if last_was_speaking l && negb speaking_now
                  then cooldown_frames else ignore_frames l).
  assert (Hopen : speaking_now || (0 <? ignore1)%Z = true).
  { destruct speaking_now eqn:Es; [reflexivity|]. simpl.
    apply Z.ltb_lt. unfold ignore1.
    destruct Hgate as [Hsp | [Hig | Hlast]].
    - unfold speaking_now in Es. rewrite Hsp in Es. discriminate.
    - destruct (last_was_speaking l); simpl;
        [change cooldown_frames with 30%Z|]; lia.
    - rewrite Hlast. simpl. change cooldown_frames with 30%Z. lia. }
  rewrite Hopen. eexists. eexists. split; [reflexivity|]. simpl.
  repeat split.
  intros Hlast Hig. unfold ignore1. rewrite Hlast. simpl.
  replace (0 <? ignore_frames l)%Z with true by (symmetry; apply Z.ltb_lt; lia).
  reflexivity.
Qed.

(** C2 at the first turn of a loop that finds the machine in [Speaking]. *)
Lemma C2_mic_gate_speaking_or_cooldown_witness :
  exists l' sh',
    audio_iteration voiced_tick initial_locals while_speaking = Next l' sh' None
    /\ preroll l' = [] /\ utterance l' = [] /\ audio_q sh' = [].
Proof.
  destruct (C2_mic_gate_speaking_or_cooldown
              [] initial_locals voiced_tick while_speaking eq_refl
              (or_introl eq_refl))
    as (l' & sh' & H & _ & _ & _ & Hu & Hp & Hq & _).
  exists l', sh'. auto.
Defined.

(** C2 in the wording of the specification does not hold: the gate does
    not cover [Transcribing]. A turn that finds the machine in
    [Transcribing], with no cooldown, keeps its frame in the pre-roll. *)
Lemma C2_no_gate_while_transcribing_counterexample :
  ~ (forall (turns : list Turn) (l : Locals) (tk : Tick) (sh : Shared)
            (l' : Locals) (sh' : Shared) (e : option pcm),
        run turns initial_locals = Some l ->
        state (sm sh) = Transcribing \/ state (sm sh) = Thinking
        \/ state (sm sh) = Speaking \/ ignore_frames l <> 0%Z ->
        audio_iteration tk l sh = Next l' sh' e ->
        (in_speech l' = false /\ voiced_run l' = 0%Z /\ unvoiced_run l' = 0%Z
         /\ utterance l' = [] /\ preroll l' = [])
        /\ audio_q sh' = [] /\ text_q sh' = []).
Proof.
  intros H.
  destruct (audio_iteration silent_tick initial_locals while_transcribing)
    as [| l' sh' e] eqn:E; [vm_compute in E; discriminate E|].
  destruct (H [] initial_locals silent_tick while_transcribing l' sh' e
              eq_refl (or_introl eq_refl) E)
    as ((_ & _ & _ & _ & Hpre) & _).
  vm_compute in E. inversion E; subst. discriminate Hpre.
Qed.

End CaptureProperties.

(** ** The utterance queue under every interleaving *)

Section QueueProperties.
Import Text Queues EdnaStateMachine Asr Capture Pipeline.

Lemma apply_op_length (q : list pcm) (op : QueueOp) :
  List.length (apply_op q op) <= 1.
Proof.
  destruct op as [| u |]; simpl; try lia.
  destruct q; simpl; lia.
Qed.

Lemma ops_length (ops : list QueueOp) (q : list pcm) :
  List.length q <= 1 -> List.length (fold_left apply_op ops q) <= 1.
Proof.
  revert q. induction ops as [| op ops IH]; intros q Hq; simpl; [exact Hq|].
  apply IH. apply apply_op_length.
Qed.

(** A turn of the audio loop leaves the queue alone or runs one of the
    producer's two critical sections on it. *)
Lemma turn_queue_op (tk : Tick) (l l' : Locals) (sh sh' : Shared) (e : option pcm) :
  audio_iteration tk l sh = Next l' sh' e ->
  (e = None /\ audio_q sh' = audio_q sh)
  \/ (e = None /\ audio_q sh' = apply_op (audio_q sh) OpGate)
  \/ (exists u, e = Some u /\ audio_q sh' = apply_op (audio_q sh) (OpEnqueue u)).
Proof.
  intros H. unfold audio_iteration in H; cbv zeta in H.
  repeat match type of H with
         | context [if ?b then _ else _] => destruct b eqn:?
         end;
    inversion H; subst; clear H; simpl; eauto.
Qed.

Lemma asr_turn_audio_q (whisper : Recognizer) (audio : pcm) (sh : Shared) :
  audio_q (asr_turn whisper audio sh) = audio_q sh.
Proof.
  unfold asr_turn, no_command. destruct audio as [| a rest]; [reflexivity|].
  destruct (_ || _); [reflexivity|].
  destruct (strip_invocation _) as [invoked cmd].
  destruct (negb invoked); [reflexivity|].
  destruct (empty (trim_ws cmd)); reflexivity.
Qed.

(** The ASR thread touches the utterance queue in its dequeue only. *)
Lemma asr_step_queue (whisper : Recognizer) (sh : Shared) :
  audio_q (asr_step whisper sh) = apply_op (audio_q sh) OpTake.
Proof.
  unfold asr_step. destruct (audio_q sh) as [| a rest] eqn:E; simpl.
  - exact E.
  - rewrite asr_turn_audio_q. reflexivity.
Qed.

Lemma sys_step_queue (s s' : System) :
  sys_step s s' ->
  List.length (audio_q (shared s)) <= 1 ->
  List.length (audio_q (shared s')) <= 1.
Proof.
  intros Hstep Hq. destruct Hstep as [tk l l' sh sh' e H | l sh | l sh m' tq']; simpl in *.
  - destruct (turn_queue_op tk l l' sh sh' e H)
      as [(_ & ->) | [(_ & ->) | (u & _ & ->)]];
      [exact Hq | apply apply_op_length | apply apply_op_length].
  - apply (apply_op_length (audio_q sh) OpTake).
  - exact Hq.
Qed.

Lemma reachable_queue (s : System) :
  reachable s -> List.length (audio_q (shared s)) <= 1.
Proof.
  induction 1 as [| s s' _ IH Hstep]; [simpl; lia|].
  apply (sys_step_queue s s' Hstep IH).
Qed.

(** A whole turn of the ASR thread is a dequeue and an action on the
    machine and the command queue. *)
Lemma reachable_asr_step (whisper : Recognizer) (l : Locals) (sh : Shared) :
  reachable {| locals := l; shared := sh |} ->
  reachable {| locals := l; shared := asr_step whisper sh |}.
Proof.
  intros Hr.
  pose proof (reachable_step _ _ Hr (step_asr_take l sh)) as Hr1.
  pose proof (reachable_step _ _ Hr1
                (step_other l _ (sm (asr_step whisper sh))
                            (text_q (asr_step whisper sh)))) as Hr2.
  simpl in Hr2.
  replace (asr_step whisper sh)
    with {| sm := sm (asr_step whisper sh);
            audio_q := snd (q_take_newest (audio_q sh));
            text_q := text_q (asr_step whisper sh) |}; [exact Hr2|].
  pose proof (asr_step_queue whisper sh) as Hq. simpl in Hq.
  destruct (asr_step whisper sh) as [m q tq]. simpl in *. rewrite Hq. reflexivity.
Qed.

(** C5. In every state that the threads can reach, in whatever order
    their steps interleave, the utterance queue holds at most one
    utterance; so it does after any sequence of the three critical
    sections that touch it. The producer's enqueue clears first, so the
    queue then holds the new utterance only; the consumer takes the
    newest entry and leaves the queue empty. A turn of the audio loop
    changes the queue by the gate's clear or by that enqueue only, a turn
    of the ASR thread by its dequeue only. *)
Theorem C5_utterance_queue_at_most_one :
  (forall s : System, reachable s -> List.length (audio_q (shared s)) <= 1)
  /\ (forall ops : list QueueOp, List.length (fold_left apply_op ops []) <= 1)
  /\ (forall (q : list pcm) (u : pcm), q_replace q u = [u])
  /\ (forall (q : list pcm), q <> [] -> q_take_newest q = (Some (last q []), []))
  /\ (forall (tk : Tick) (l l' : Locals) (sh sh' : Shared) (e : option pcm),
         audio_iteration tk l sh = Next l' sh' e ->
         (e = None /\ audio_q sh' = audio_q sh)
         \/ (e = None /\ audio_q sh' = q_clear (audio_q sh))
         \/ (exists u, e = Some u /\ audio_q sh' = q_replace (audio_q sh) u))
  /\ (forall (whisper : Recognizer) (sh : Shared),
         audio_q (asr_step whisper sh) = snd (q_take_newest (audio_q sh))).
Proof.
  split; [| split; [| split; [| split; [| split]]]].
  - apply reachable_queue.
  - intros ops. apply ops_length. simpl. lia.
  - reflexivity.
  - intros [| a rest] Hq; [contradiction | reflexivity].
  - apply turn_queue_op.
  - apply asr_step_queue.
Qed.

(** C5 after a speech was enqueued twice with no dequeue in between, and
    on a queue that was filled by hand. *)
Lemma C5_utterance_queue_at_most_one_witness :
  List.length (fold_left apply_op [OpEnqueue [1%Z]; OpEnqueue [2%Z]] []) <= 1
  /\ q_take_newest [[1%Z]; [2%Z]] = (Some [2%Z], [])
  /\ List.length (audio_q (shared initial_system)) <= 1.
Proof.
  destruct C5_utterance_queue_at_most_one as (Hreach & Hops & _ & Htake & _).
  split; [apply Hops|]. split.
  - apply (Htake [[1%Z]; [2%Z]]). discriminate.
  - apply Hreach. apply reachable_init.
Defined.

End QueueProperties.

(* ================================================================== *)
(** * Part III: further properties of the code *)
(* ================================================================== *)

(** ** The state machine: names, observer, [start] *)

Section MachineLogProperties.
Import EdnaStateMachine MachineLog.

(** X1: The names tell the states apart, and the events, and none of them is
    the fallback "Unknown". *)
Theorem names_are_distinct :
  (forall s1 s2 : State, state_name s1 = state_name s2 <-> s1 = s2)
  /\ (forall e1 e2 : Event, event_name e1 = event_name e2 <-> e1 = e2)
  /\ (forall s : State, state_name s <> "Unknown"%string)
  /\ (forall e : Event, event_name e <> "Unknown"%string).
Proof.
  repeat split.
  - destruct s1, s2; simpl; intros H; try reflexivity; discriminate H.
  - intros ->. reflexivity.
  - destruct e1, e2; simpl; intros H; try reflexivity; discriminate H.
  - intros ->. reflexivity.
  - destruct s; discriminate.
  - destruct e; discriminate.
Qed.

Lemma path_end_snoc (log : list Notification) (from mid f t : State)
      (e : Event) (n : string) :
  path_end from log = Some mid ->
  path_end from (log ++ [(f, t, e, n)])
  = if State_beq f mid
       && match table_lookup f e with
          | Some t' => State_beq t' t
          | None => false
          end
    then Some t else None.
Proof.
  revert from. induction log as [| [[[f0 t0] e0] n0] log IH]; intros from H.
  - simpl in H. inversion H; subst. simpl. destruct (_ && _); reflexivity.
  - cbn [path_end app] in *.
    destruct (State_beq f0 from
              && match table_lookup f0 e0 with
                 | Some t' => State_beq t' t0
                 | None => false
                 end); [apply IH; exact H | discriminate H].
Qed.

Lemma State_beq_refl (s : State) : State_beq s s = true.
Proof. destruct s; reflexivity. Qed.

Lemma dispatch_log (m : Machine) (ev : Event) (note : string) (from : State) :
  obs_ m = true ->
  path_end from (observed m) = Some (st_ m) ->
  obs_ (dispatch m ev note) = true
  /\ path_end from (observed (dispatch m ev note)) = Some (st_ (dispatch m ev note))
  /\ List.length (observed (dispatch m ev note)) <= S (List.length (observed m)).
Proof.
  intros Hobs Hpath. unfold dispatch.
  destruct (transition_locked (st_ m) ev note) as [to did] eqn:E.
  destruct did; simpl; rewrite Hobs; simpl.
  - split; [reflexivity|]. split; [| rewrite length_app; simpl; lia].
    rewrite (path_end_snoc (observed m) from (st_ m) (st_ m) to ev note Hpath).
    rewrite State_beq_refl. simpl.
    destruct (st_ m), ev; simpl in E; inversion E; subst; reflexivity.
  - split; [reflexivity|]. split; [exact Hpath | lia].
Qed.

Lemma take_waiting_none (th : nat) (w : list (nat * Notification)) :
  take_waiting th w = None -> by_thread th w = [].
Proof.
  induction w as [| x w IH]; intros H; [reflexivity|].
  cbn [take_waiting] in H. unfold by_thread in *. cbn [filter].
  destruct (Nat.eqb (fst x) th); [discriminate H|].
  destruct (take_waiting th w) as [[y r] |]; [discriminate H|].
  apply IH. reflexivity.
Qed.

Lemma take_waiting_some (th : nat) (w : list (nat * Notification)) (x : nat * Notification)
      (rest : list (nat * Notification)) :
  take_waiting th w = Some (x, rest) ->
  fst x = th
  /\ Permutation w (x :: rest)
  /\ (forall th', by_thread th' w = by_thread th' [x] ++ by_thread th' rest)
  /\ (forall th', List.length (by_thread th' rest)
                  <= List.length (by_thread th' w)).
Proof.
  revert x rest. induction w as [| y w IH]; intros x rest H; [discriminate H|].
  cbn [take_waiting] in H. destruct (Nat.eqb (fst y) th) eqn:Ey.
  - inversion H; subst. apply Nat.eqb_eq in Ey.
    split; [exact Ey|]. split; [apply Permutation_refl|].
    split; intros th'; unfold by_thread; cbn [filter];
      destruct (Nat.eqb (fst x) th'); cbn [app List.length]; auto; lia.
  - destruct (take_waiting th w) as [[z r] |] eqn:Et; [| discriminate H].
    inversion H; subst. destruct (IH x r eq_refl) as (Hx & Hp & Hb & Hl).
    split; [exact Hx|].
    split; [rewrite Hp; apply perm_swap|].
    apply Nat.eqb_neq in Ey.
    split; intros th'; specialize (Hb th'); specialize (Hl th');
      unfold by_thread in *; cbn [filter] in *;
      destruct (Nat.eqb (fst y) th') eqn:E1;
      destruct (Nat.eqb (fst x) th') eqn:E2;
      cbn [app List.length] in *;
      try (apply Nat.eqb_eq in E1; apply Nat.eqb_eq in E2; congruence);
      try (rewrite Hb; reflexivity); try lia.
Qed.

Lemma transition_locked_row (s : State) (ev : Event) (note : string) (to : State) :
  transition_locked s ev note = (to, true) -> table_lookup s ev = Some to.
Proof.
  destruct s, ev; cbn; intros H; inversion H; reflexivity.
Qed.

(** What holds of the threads at every moment. *)
Lemma step_invariant (c c' : Threads) (s : Step) :
  step c s = Some c' ->
  observer c = true ->
  path_end Boot (map snd (taken c)) = Some (shared_st c) ->
  Permutation (notified c ++ waiting c) (taken c) ->
  (forall th, by_thread th (notified c) ++ by_thread th (waiting c)
              = by_thread th (taken c)) ->
  (forall th, List.length (by_thread th (waiting c)) <= 1) ->
  observer c' = true
  /\ path_end Boot (map snd (taken c')) = Some (shared_st c')
  /\ Permutation (notified c' ++ waiting c') (taken c')
  /\ (forall th, by_thread th (notified c') ++ by_thread th (waiting c')
                 = by_thread th (taken c'))
  /\ (forall th, List.length (by_thread th (waiting c')) <= 1).
Proof.
  intros Hstep Hobs Hpath Hperm Hby Hone.
  destruct s as [th ev note | th]; cbn [step] in Hstep.
  - destruct (take_waiting th (waiting c)) as [[y r] |] eqn:Et;
      [discriminate Hstep|].
    apply take_waiting_none in Et.
    destruct (transition_locked (shared_st c) ev note) as [to did] eqn:El.
    inversion Hstep; subst c'; clear Hstep. cbn.
    rewrite Hobs. destruct did; cbn [andb].
    + split; [reflexivity|]. split.
      * rewrite map_app. cbn [map snd].
        etransitivity;
          [apply (path_end_snoc _ Boot (shared_st c) (shared_st c) to ev note
                                Hpath)|].
        rewrite State_beq_refl, (transition_locked_row _ _ _ _ El).
        rewrite State_beq_refl. reflexivity.
      * split; [rewrite app_assoc; apply Permutation_app_tail; exact Hperm|].
        split.
        -- intros th'. unfold by_thread in *. rewrite !filter_app, app_assoc.
           f_equal. apply Hby.
        -- intros th'. unfold by_thread in *. rewrite filter_app, length_app.
           cbn [filter fst]. destruct (Nat.eqb th th') eqn:E.
           ++ apply Nat.eqb_eq in E. subst th'. rewrite Et. cbn. lia.
           ++ cbn. specialize (Hone th'). lia.
    + auto.
  - destruct (take_waiting th (waiting c)) as [[x rest] |] eqn:Et.
    + inversion Hstep; subst c'; clear Hstep. cbn.
      destruct (take_waiting_some _ _ _ _ Et) as (Hx & Hp & Hb & Hl).
      split; [exact Hobs|]. split; [exact Hpath|].
      split.
      * rewrite <- Hperm, <- app_assoc. cbn [app].
        apply Permutation_app_head. symmetry. exact Hp.
      * split.
        -- intros th'. specialize (Hby th'). specialize (Hb th').
           unfold by_thread in *.
           rewrite filter_app, <- Hby, Hb, <- app_assoc. reflexivity.
        -- intros th'. specialize (Hl th'). specialize (Hone th').
           unfold by_thread in *. lia.
    + inversion Hstep; subst c'. auto.
Qed.

Lemma run_threads_invariant (ss : list Step) (c c' : Threads) :
  run_threads c ss = Some c' ->
  observer c = true ->
  path_end Boot (map snd (taken c)) = Some (shared_st c) ->
  Permutation (notified c ++ waiting c) (taken c) ->
  (forall th, by_thread th (notified c) ++ by_thread th (waiting c)
              = by_thread th (taken c)) ->
  (forall th, List.length (by_thread th (waiting c)) <= 1) ->
  path_end Boot (map snd (taken c')) = Some (shared_st c')
  /\ Permutation (notified c' ++ waiting c') (taken c')
  /\ (forall th, by_thread th (notified c') ++ by_thread th (waiting c')
                 = by_thread th (taken c'))
  /\ (forall th, List.length (by_thread th (waiting c')) <= 1).
Proof.
  revert c. induction ss as [| s ss IH]; intros c Hrun Hobs Hpath Hperm Hby Hone.
  - inversion Hrun; subst. auto.
  - cbn [run_threads] in Hrun. destruct (step c s) as [c1 |] eqn:Es;
      [| discriminate Hrun].
    destruct (step_invariant _ _ _ Es Hobs Hpath Hperm Hby Hone)
      as (H1 & H2 & H3 & H4 & H5).
    apply (IH c1 Hrun H1 H2 H3 H4 H5).
Qed.

Lemma path_end_rows (log : list Notification) (from to : State) :
  path_end from log = Some to -> Forall table_row log.
Proof.
  revert from. induction log as [| [[[f t] e] n] log IH]; intros from H;
    [constructor|].
  cbn [path_end] in H.
  destruct (State_beq f from) eqn:Ef; cbn [andb] in H; [| discriminate H].
  destruct (table_lookup f e) as [t' |] eqn:El; [| discriminate H].
  destruct (State_beq t' t) eqn:Et; [| discriminate H].
  constructor; [| apply (IH t H)].
  unfold table_row. cbn [fst snd]. rewrite El. f_equal.
  destruct t', t; try discriminate Et; reflexivity.
Qed.

Lemma sequential_run (th : nat) (evs : list (Event * string))
      (c : Threads) (m : Machine) :
  observer c = true -> obs_ m = true ->
  waiting c = [] -> shared_st c = st_ m ->
  map snd (notified c) = observed m ->
  exists c',
    run_threads c (sequential th evs) = Some c'
    /\ waiting c' = []
    /\ shared_st c' = st_ (dispatch_all m evs)
    /\ map snd (notified c') = observed (dispatch_all m evs).
Proof.
  revert c m. induction evs as [| [ev note] evs IH];
    intros c m Hobs Hm Hw Hst Hlog.
  - exists c. auto.
  - cbn [sequential flat_map app run_threads step fst snd].
    rewrite Hw. cbn [take_waiting].
    destruct (transition_locked (shared_st c) ev note) as [to did] eqn:El.
    rewrite Hobs. unfold dispatch_all. cbn [fold_left fst snd].
    fold (dispatch_all (dispatch m ev note) evs).
    assert (Hd : dispatch m ev note
                 = {| st_ := if did then to else st_ m;
                      obs_ := true;
                      observed := if did
                                  then observed m ++ [(st_ m, to, ev, note)]
                                  else observed m |}).
    { unfold dispatch. rewrite <- Hst, El, Hm.
      destruct did; reflexivity. }
    destruct did; cbn [andb app take_waiting fst waiting].
    + rewrite Nat.eqb_refl.
      cbn [shared_st observer waiting notified taken].
      apply (IH _ (dispatch m ev note)).
      * reflexivity.
      * rewrite Hd. reflexivity.
      * reflexivity.
      * rewrite Hd. reflexivity.
      * rewrite Hd. cbn. rewrite map_app, Hlog, Hst. reflexivity.
    + apply (IH _ (dispatch m ev note)).
      * reflexivity.
      * rewrite Hd. reflexivity.
      * reflexivity.
      * rewrite Hd. exact Hst.
      * rewrite Hd. exact Hlog.
Qed.

Lemma unobserved_run (ss : list Step) (c c' : Threads) :
  run_threads c ss = Some c' ->
  observer c = false -> waiting c = [] -> notified c = [] ->
  waiting c' = [] /\ notified c' = [].
Proof.
  revert c. induction ss as [| s ss IH]; intros c Hrun Hobs Hw Hn.
  - inversion Hrun; subst. auto.
  - cbn [run_threads] in Hrun. destruct (step c s) as [c1 |] eqn:Es;
      [| discriminate Hrun].
    apply (IH c1 Hrun); destruct s as [th ev note | th]; cbn [step] in Es;
      rewrite Hw in Es; cbn [take_waiting] in Es;
      try (destruct (transition_locked (shared_st c) ev note) as [to did]);
      inversion Es; subst; cbn; try assumption;
      rewrite Hobs, andb_false_r; reflexivity.
Qed.

(** X2: The observer among the threads. [dispatch] calls the observer
    after the unlock, so with the audio loop, the ASR thread and the brain
    thread dispatching, a notification can come after the notification of
    a later transition. Under every schedule: the transitions, in the
    order of the critical sections, are a path through the transition
    table from [Boot] to the current state; every transition is notified
    exactly once or still waits for its call, and nothing else is
    notified (the notifications and the waiting calls together are a
    permutation of the transitions); every notification is a row of the
    table; the notifications of one thread come in the order of its
    transitions, and a thread has at most one call waiting. When a single
    thread dispatches, the notifications are the log of the sequential
    machine, a path from [Boot] to the current state. Without an observer
    nothing is notified. *)
Theorem observer_log_is_table_path :
  (forall (ss : list Step) (c : Threads),
      run_threads observed_threads ss = Some c ->
      path_end Boot (map snd (taken c)) = Some (shared_st c)
      /\ Permutation (notified c ++ waiting c) (taken c)
      /\ Forall table_row (map snd (notified c))
      /\ (forall th, by_thread th (notified c) ++ by_thread th (waiting c)
                     = by_thread th (taken c))
      /\ (forall th, List.length (by_thread th (waiting c)) <= 1))
  /\ (forall (th : nat) (evs : list (Event * string)),
         exists c,
           run_threads observed_threads (sequential th evs) = Some c
           /\ waiting c = []
           /\ shared_st c = state (dispatch_all observed_machine evs)
           /\ map snd (notified c) = observed (dispatch_all observed_machine evs)
           /\ path_end Boot (map snd (notified c)) = Some (shared_st c))
  /\ (forall (ss : list Step) (c : Threads),
         run_threads unobserved_threads ss = Some c ->
         notified c = [] /\ waiting c = []).
Proof.
  split; [| split].
  - intros ss c Hrun.
    destruct (run_threads_invariant ss observed_threads c Hrun)
      as (H1 & H2 & H3 & H4); try reflexivity.
    + intros th. cbn. lia.
    + split; [exact H1|]. split; [exact H2|]. split; [| split; assumption].
      apply path_end_rows in H1.
      assert (Hall : Forall table_row (map snd (notified c ++ waiting c))).
      { apply (Permutation_Forall (x := map snd (taken c))); [| exact H1].
        apply Permutation_map. symmetry. exact H2. }
      rewrite map_app in Hall. apply Forall_app in Hall. apply Hall.
  - intros th evs.
    destruct (sequential_run th evs observed_threads observed_machine)
      as (c & Hrun & Hw & Hst & Hlog); try reflexivity.
    exists c. split; [exact Hrun|]. split; [exact Hw|].
    split; [exact Hst|]. split; [exact Hlog|].
    destruct (run_threads_invariant _ observed_threads c Hrun)
      as (H1 & H2 & _); try reflexivity.
    + intros th'. cbn. lia.
    + rewrite Hw, app_nil_r in H2.
      assert (Hsame : notified c = taken c).
      { clear - Hrun Hw.
        assert (G : forall evs0 c0 c1,
                   waiting c0 = [] -> notified c0 = taken c0 ->
                   observer c0 = true ->
                   run_threads c0 (sequential th evs0) = Some c1 ->
                   notified c1 = taken c1).
        { induction evs0 as [| [ev note] evs0 IH];
            intros c0 c1 Hw0 Hn0 Ho0 Hr.
          - inversion Hr; subst. exact Hn0.
          - cbn [sequential flat_map app run_threads step fst snd] in Hr.
            rewrite Hw0 in Hr. cbn [take_waiting] in Hr.
            destruct (transition_locked (shared_st c0) ev note) as [to did].
            rewrite Ho0 in Hr.
            destruct did; cbn [andb app take_waiting fst waiting] in Hr.
            + rewrite Nat.eqb_refl in Hr.
              cbn [shared_st observer waiting notified taken] in Hr.
              apply (IH _ c1) in Hr; cbn; auto. rewrite Hn0. reflexivity.
            + apply (IH _ c1) in Hr; cbn; auto. }
        apply (G evs observed_threads c); reflexivity || exact Hrun. }
      rewrite Hsame. exact H1.
  - intros ss c Hrun.
    destruct (unobserved_run ss unobserved_threads c Hrun) as [H1 H2];
      try reflexivity.
    auto.
Qed.

(** The schedule [late_notification]: every transition is notified once,
    the two threads each in their own order, and the log read from top to
    bottom is no path, since the ASR thread's [Thinking] to [AwaitSpeech]
    comes after the audio loop's [AwaitSpeech] to [CapturingSpeech]. *)
Lemma observer_log_is_table_path_witness :
  run_threads observed_threads late_notification = Some after_late_notification
  /\ shared_st after_late_notification = CapturingSpeech
  /\ path_end Boot (map snd (taken after_late_notification))
     = Some CapturingSpeech
  /\ path_end Boot (map snd (notified after_late_notification)) = None
  /\ Permutation (notified after_late_notification
                  ++ waiting after_late_notification)
                 (taken after_late_notification).
Proof.
  assert (Hrun : run_threads observed_threads late_notification
                 = Some after_late_notification)
    by (vm_compute; reflexivity).
  split; [exact Hrun|].
  split; [vm_compute; reflexivity|].
  split; [vm_compute; reflexivity|].
  split; [vm_compute; reflexivity|].
  apply (proj1 observer_log_is_table_path late_notification
               after_late_notification Hrun).
Defined.

Lemma dispatch_not_boot (m : Machine) (ev : Event) (note : string) :
  st_ m <> Boot -> st_ (dispatch m ev note) <> Boot.
Proof.
  intros H. rewrite dispatch_st. destruct (st_ m), ev; simpl; congruence.
Qed.

(** X3: [start()] is idempotent, and once the machine has left [Boot] no
    event brings it back there. *)
Theorem start_idempotent_boot_left_for_good :
  (forall m : Machine, start (start m) = start m)
  /\ (forall (m : Machine) (evs : list (Event * string)),
         state (dispatch_all (start m) evs) <> Boot).
Proof.
  split.
  - intros [s o l]. unfold start, dispatch. destruct s, o; reflexivity.
  - intros m evs. unfold state.
    assert (Hgen : forall m0, st_ m0 <> Boot -> st_ (dispatch_all m0 evs) <> Boot).
    { induction evs as [| [e n] evs IH]; intros m0 H0; [exact H0|].
      unfold dispatch_all in *. simpl. apply IH. apply dispatch_not_boot. exact H0. }
    apply Hgen. unfold start. rewrite dispatch_st.
    destruct (st_ m); simpl; congruence.
Qed.

End MachineLogProperties.

(** ** [trim_ws], [normalize], [strip_invocation] *)

Section TextMoreProperties.
Import CLocale Text.

Lemma lstrip_head (s : text) (c : ascii) (t : text) :
  lstrip s = c :: t -> isspace c = false.
Proof.
  induction s as [| d s IH]; simpl; [discriminate|].
  destruct (isspace d) eqn:E; [exact IH|].
  intros H. inversion H; subst. exact E.
Qed.

Lemma rstrip_last (s t : text) (c : ascii) :
  rstrip s = t ++ [c] -> isspace c = false.
Proof.
  unfold rstrip. intros H.
  apply (f_equal (@rev ascii)) in H. rewrite rev_involutive, rev_app_distr in H.
  simpl in H. apply (lstrip_head _ _ _ H).
Qed.

Lemma lstrip_fixed (s : text) :
  (forall c t, s = c :: t -> isspace c = false) -> lstrip s = s.
Proof.
  destruct s as [| c t]; simpl; intros H; [reflexivity|].
  rewrite (H c t eq_refl). reflexivity.
Qed.

Lemma trim_ws_head (s : text) (c : ascii) (t : text) :
  trim_ws s = c :: t -> isspace c = false.
Proof.
  rewrite trim_ws_strip. intros H.
  destruct (rstrip_prefix (lstrip s)) as (w & Hw & _).
  rewrite H in Hw. simpl in Hw. apply (lstrip_head s c (t ++ w) Hw).
Qed.

Lemma lstrip_blank (w : text) : blank w -> lstrip w = [].
Proof.
  induction 1 as [| c w Hc _ IH]; simpl; [reflexivity|]. rewrite Hc. exact IH.
Qed.

(** X4: [trim_ws] removes a run of whitespace at each end and nothing else:
    the input is the result between two runs of whitespace, and the
    result neither starts nor ends with a whitespace character. *)
Theorem trim_ws_cuts_whitespace_ends :
  forall s : text,
    (exists w1 w2, s = w1 ++ trim_ws s ++ w2 /\ blank w1 /\ blank w2)
    /\ (forall c t, trim_ws s = c :: t -> isspace c = false)
    /\ (forall t c, trim_ws s = t ++ [c] -> isspace c = false).
Proof.
  intros s. split; [| split].
  - rewrite trim_ws_strip.
    destruct (lstrip_suffix s) as (w1 & H1 & B1).
    destruct (rstrip_prefix (lstrip s)) as (w2 & H2 & B2).
    exists w1, w2. split; [| split; assumption].
    rewrite <- H2. exact H1.
  - apply trim_ws_head.
  - rewrite trim_ws_strip. intros t c H. apply (rstrip_last _ _ _ H).
Qed.

Lemma trim_ws_idem (s : text) : trim_ws (trim_ws s) = trim_ws s.
Proof.
  rewrite (trim_ws_strip (trim_ws s)).
  rewrite (lstrip_fixed (trim_ws s) (trim_ws_head s)).
  rewrite trim_ws_strip. apply rstrip_idem.
Qed.

(** X5: [trim_ws] is idempotent, and its result is empty exactly for the
    strings of whitespace, the empty string among them. *)
Theorem trim_ws_idempotent_empty_iff_blank :
  forall s : text,
    trim_ws (trim_ws s) = trim_ws s
    /\ (trim_ws s = [] <-> blank s).
Proof.
  intros s. split.
  - apply trim_ws_idem.
  - split.
    + intros H.
      destruct (lstrip_suffix s) as (w1 & H1 & B1).
      destruct (rstrip_prefix (lstrip s)) as (w2 & H2 & B2).
      rewrite trim_ws_strip in H. rewrite H in H2. simpl in H2.
      rewrite H1, H2. apply Forall_app. split; assumption.
    + intros H. rewrite trim_ws_strip, (lstrip_blank s H). reflexivity.
Qed.

Lemma normal_form_solid_nil (s : text) :
  normal_form s -> solid s = [] -> s = [].
Proof.
  intros [Hw _] Hs. destruct s as [| c t]; [reflexivity|].
  simpl in Hw. destruct (Ascii.eqb c " "); [discriminate Hw|].
  apply andb_prop in Hw as [Hc _].
  destruct (normal_char_fixed c Hc) as [_ Hsp].
  unfold solid in Hs. simpl in Hs. rewrite Hsp in Hs. discriminate Hs.
Qed.

(** X6: [normalize] gives the empty string exactly when the input holds no
    letter and no digit. *)
Theorem normalize_empty_iff_no_alnum :
  forall s : text, normalize s = [] <-> filter isalnum s = [].
Proof.
  intros s.
  assert (Hsolid : solid (normalize s) = map tolower (filter isalnum s)).
  { unfold normalize. rewrite solid_trim_ws, solid_collapse.
    apply solid_lower_or_space. }
  split; intros H.
  - rewrite H in Hsolid. simpl in Hsolid.
    symmetry in Hsolid. apply map_eq_nil in Hsolid. exact Hsolid.
  - apply normal_form_solid_nil; [apply normalize_normal_form|].
    rewrite Hsolid, H. reflexivity.
Qed.

Lemma wellspaced_skipn (n : nat) (s : text) (prev : bool) :
  wellspaced prev s = true -> exists prev', wellspaced prev' (skipn n s) = true.
Proof.
  revert s prev. induction n as [| n IH]; intros s prev H.
  - exists prev. exact H.
  - destruct s as [| c t]; [exists true; reflexivity|].
    simpl in H. simpl skipn.
    destruct (Ascii.eqb c " "); apply andb_prop in H as [_ H]; eauto.
Qed.

Lemma wellspaced_lstrip_any (s : text) (prev : bool) :
  wellspaced prev s = true -> wellspaced true (lstrip s) = true.
Proof.
  revert prev. induction s as [| c t IH]; intros prev H; [reflexivity|].
  simpl in H. simpl lstrip.
  destruct (Ascii.eqb c " ") eqn:E.
  - apply Ascii.eqb_eq in E. subst c. simpl.
    apply andb_prop in H as [_ H]. apply (IH true H).
  - apply andb_prop in H as [Hc H].
    destruct (normal_char_fixed c Hc) as [_ Hsp]. rewrite Hsp.
    simpl. rewrite E, Hc, H. reflexivity.
Qed.

Lemma trim_ws_normal_form (s : text) (prev : bool) :
  wellspaced prev s = true -> normal_form (trim_ws s).
Proof.
  intros H. rewrite trim_ws_strip. split.
  - destruct (rstrip_prefix (lstrip s)) as (w & Hw & _).
    apply (wellspaced_app_l _ w). rewrite <- Hw.
    apply (wellspaced_lstrip_any s prev H).
  - apply rstrip_idem.
Qed.

Lemma normal_form_trim_ws (s : text) : normal_form s -> trim_ws s = s.
Proof.
  intros [Hw Hr]. rewrite trim_ws_strip, (wellspaced_lstrip s Hw). exact Hr.
Qed.

(** X7: When [strip_invocation] reports a match, the command it leaves is
    already normalized and trimmed, so normalizing or trimming it again
    changes nothing; when it reports no match, the text is the one that
    came in. *)
Theorem strip_invocation_leaves_normalized_command :
  forall (txt out : text) (invoked : bool),
    strip_invocation txt = (invoked, out) ->
    if invoked
    then normal_form out /\ normalize out = out /\ trim_ws out = out
    else out = txt.
Proof.
  intros txt out invoked H.
  destruct (strip_invocation_first_match txt)
    as [(Hno & _) | (b & p & a & _ & _ & _ & Hyes)].
  - rewrite Hno in H. inversion H; subst. reflexivity.
  - rewrite Hyes in H. inversion H; subst.
    destruct (normalize_normal_form txt) as [Hw _].
    destruct (wellspaced_skipn (List.length p) (normalize txt) true Hw)
      as [prev' Hs].
    pose proof (trim_ws_normal_form _ prev' Hs) as Hnf.
    unfold substr_from.
    split; [exact Hnf|]. split.
    + apply normalize_fixes_normal_form. exact Hnf.
    + apply normal_form_trim_ws. exact Hnf.
Qed.

(** The command left of "Hey Edna, what's up?". *)
Lemma strip_invocation_leaves_normalized_command_witness :
  normal_form (lit "what s up")
  /\ normalize (lit "what s up") = lit "what s up"
  /\ trim_ws (lit "what s up") = lit "what s up".
Proof.
  apply (strip_invocation_leaves_normalized_command
           (lit "Hey Edna, what's up?") (lit "what s up") true).
  vm_compute. reflexivity.
Defined.

End TextMoreProperties.

(** ** [split_sentences]: what the chunks are made of *)

Section SplitterMoreProperties.
Import CLocale Text Speech.

(** A chunk ready for [speak]: not empty and trimmed. *)
Lemma clean_trimmed (xs : list text) :
  Forall (fun p => p <> [] /\ trim_ws p = p) (clean (map trim_ws xs)).
Proof.
  apply Forall_forall. intros p Hp. unfold clean in Hp.
  apply filter_In in Hp as [Hin Hne]. apply in_map_iff in Hin as (x & <- & _).
  split; [destruct (trim_ws x); [discriminate Hne | discriminate]|].
  apply trim_ws_idem.
Qed.

Lemma wrapped_as_map (s : text) (pos : nat) (chunks : list text) :
  wrapped s pos chunks -> exists xs, chunks = map trim_ws xs.
Proof.
  induction 1 as [| pos cut chunks _ _ _ [xs ->]].
  - exists []. reflexivity.
  - exists (substr s pos (cut - pos) :: xs). reflexivity.
Qed.

Lemma split_sentences_shape (input : text) (parts : list text) :
  split_sentences input = Some parts ->
  exists xs, parts = clean (map trim_ws xs).
Proof.
  unfold split_sentences. rewrite fragments_spec. unfold spec_fragments.
  set (frs := map trim_ws (raw_fragments input)).
  destruct (clean frs) as [| f [| g rest]] eqn:E.
  - intros H. inversion H. exists []. reflexivity.
  - destruct (180 <? List.length f).
    + unfold soft_wrap. destruct (wrap_loop_total f) as (chunks & -> & Hw).
      simpl. intros H. inversion H.
      destruct (wrapped_as_map f 0 chunks Hw) as [xs ->]. eauto.
    + intros H. inversion H. exists (raw_fragments input). symmetry. exact E.
  - intros H. inversion H. exists (raw_fragments input). symmetry. exact E.
Qed.

Lemma chunks_of_fixed (parts : list text) :
  Forall (fun p => p <> [] /\ trim_ws p = p) parts -> chunks_of parts = parts.
Proof.
  unfold chunks_of, clean.
  induction 1 as [| p parts [Hne Ht] _ IH]; simpl; [reflexivity|].
  rewrite Ht. destruct p; [contradiction|]. simpl. f_equal. exact IH.
Qed.

(** X8: Every chunk that [split_sentences] returns is non-empty and trimmed,
    so the speech stage, which trims each chunk again and skips the empty
    ones, calls [speak] on exactly the chunks it was given. *)
Theorem split_sentences_chunks_ready_to_speak :
  forall (input : text) (parts : list text),
    split_sentences input = Some parts ->
    Forall (fun p => p <> [] /\ trim_ws p = p) parts
    /\ chunks_of parts = parts.
Proof.
  intros input parts H.
  destruct (split_sentences_shape input parts H) as [xs ->].
  pose proof (clean_trimmed xs) as Hready.
  split; [exact Hready | apply chunks_of_fixed; exact Hready].
Qed.

(** The chunks of "Wait! Go." *)
Lemma split_sentences_chunks_ready_to_speak_witness :
  chunks_of [lit "Wait!"; lit "Go."] = [lit "Wait!"; lit "Go."].
Proof.
  apply (split_sentences_chunks_ready_to_speak (lit " Wait!  Go. ")).
  vm_compute. reflexivity.
Defined.

Lemma solid_concat_clean_trim (xs : list text) :
  solid (List.concat (clean (map trim_ws xs))) = solid (List.concat xs).
Proof.
  induction xs as [| x xs IH]; [reflexivity|].
  cbn [map List.concat]. rewrite solid_app, <- IH, <- (solid_trim_ws x).
  unfold clean. cbn [filter].
  destruct (trim_ws x) as [| a t] eqn:E; cbn [empty negb List.concat].
  - reflexivity.
  - rewrite solid_app. reflexivity.
Qed.

Lemma skipn_past_end (s : text) (pos : nat) :
  List.length s <= pos -> skipn pos s = [].
Proof. intros H. apply skipn_all2. exact H. Qed.

(** The pieces of a wrap hold every character of the string from [pos]
    on that is not whitespace, in order. *)
Lemma wrapped_solid (s : text) (pos : nat) (chunks : list text) :
  wrapped s pos chunks -> solid (List.concat chunks) = solid (skipn pos s).
Proof.
  induction 1 as [pos Hend | pos cut chunks Hpos Hcut _ IH].
  - rewrite skipn_past_end by exact Hend. reflexivity.
  - simpl. rewrite solid_app, solid_trim_ws, IH. unfold substr.
    destruct (good_cut_bounds s pos cut Hpos Hcut) as (Hlt & Hle & _).
    transitivity (solid (firstn (cut - pos) (skipn pos s)
                         ++ skipn (cut - pos) (skipn pos s)));
      [| rewrite firstn_skipn; reflexivity].
    rewrite solid_app. f_equal.
    rewrite skipn_skipn. replace (cut - pos + pos) with cut by lia.
    unfold skip_ws. rewrite Nat.add_comm, <- skipn_skipn, skipn_leading_ws.
    destruct (lstrip_suffix (skipn cut s)) as (w & Hw & Bw).
    rewrite Hw at 2. rewrite solid_app, (solid_blank w Bw). reflexivity.
Qed.

(** X9: [split_sentences] loses nothing but whitespace: the characters of the
    chunks that are not whitespace are those of the reply, in the same
    order. *)
Theorem split_sentences_loses_only_whitespace :
  forall (input : text) (parts : list text),
    split_sentences input = Some parts ->
    solid (List.concat parts) = solid input.
Proof.
  intros input parts H.
  assert (Hfr : solid (List.concat (fragments input)) = solid input).
  { rewrite fragments_spec. unfold spec_fragments.
    rewrite solid_concat_clean_trim, raw_fragments_concat. reflexivity. }
  unfold split_sentences in H.
  destruct (fragments input) as [| f [| g rest]] eqn:E;
    try (inversion H; subst; exact Hfr).
  destruct (180 <? List.length f); [| inversion H; subst; exact Hfr].
  unfold soft_wrap in H. destruct (wrap_loop_total f) as (chunks & Hrun & Hw).
  rewrite Hrun in H. simpl in H. inversion H; subst.
  destruct (wrapped_as_map f 0 chunks Hw) as [xs ->].
  rewrite solid_concat_clean_trim.
  pose proof (wrapped_solid f 0 _ Hw) as Hs. simpl skipn in Hs.
  rewrite <- Hfr. cbn [List.concat]. rewrite app_nil_r, <- Hs.
  clear. induction xs as [| x xs IH]; [reflexivity|].
  cbn [map List.concat]. rewrite !solid_app, solid_trim_ws, IH. reflexivity.
Qed.

(** On a reply of two sentences. *)
Lemma split_sentences_loses_only_whitespace_witness :
  solid (List.concat [lit "Wait!"; lit "Go."]) = solid (lit " Wait!  Go. ").
Proof.
  apply (split_sentences_loses_only_whitespace (lit " Wait!  Go. ")).
  vm_compute. reflexivity.
Defined.

End SplitterMoreProperties.

(** ** The brain thread *)

Section BrainProperties.
Import CLocale Text Queues EdnaStateMachine Asr Speech Brain.

Lemma find_at_none (s t : text) (i : nat) :
  find_at i s t = None -> absent t s.
Proof.
  revert i. induction s as [| c s IH]; intros i H p.
  - simpl in H. destruct (starts_with t []) eqn:E; [discriminate H|].
    destruct p; exact E.
  - cbn [find_at] in H. destruct (starts_with t (c :: s)) eqn:E; [discriminate H|].
    destruct p as [| p]; [exact E|]. simpl. apply (IH (S i) H).
Qed.

Lemma find_at_some (s t : text) (i q : nat) :
  find_at i s t = Some q ->
  i <= q /\ q - i <= List.length s
  /\ forall p, p < q - i -> starts_with t (skipn p s) = false.
Proof.
  revert i. induction s as [| c s IH]; intros i H.
  - simpl in H. destruct (starts_with t []); [| discriminate H].
    inversion H; subst. rewrite Nat.sub_diag. repeat split; simpl; lia.
  - cbn [find_at] in H. destruct (starts_with t (c :: s)) eqn:E.
    + inversion H; subst. rewrite Nat.sub_diag. repeat split; simpl; lia.
    + destruct (IH (S i) H) as (Hle & Hlen & Hmin).
      repeat split; [lia | simpl; lia |].
      intros p Hp. destruct p as [| p]; [exact E|].
      simpl. apply Hmin. lia.
Qed.

Lemma starts_with_app_r (t u v : text) :
  starts_with t u = true -> starts_with t (u ++ v) = true.
Proof.
  revert u. induction t as [| c t IH]; intros u H; [reflexivity|].
  destruct u as [| d u]; [discriminate H|]. simpl in *.
  apply andb_prop in H as [H1 H2]. rewrite H1. simpl. auto.
Qed.

Lemma starts_with_nil (t : text) : starts_with t [] = true -> t = [].
Proof. destruct t; [reflexivity | discriminate]. Qed.

(** An occurrence inside a piece of a string is an occurrence in the
    string. *)
Lemma absent_infix (t a x b : text) : absent t (a ++ x ++ b) -> absent t x.
Proof.
  intros H p. destruct (starts_with t (skipn p x)) eqn:E; [| reflexivity].
  destruct (Nat.le_gt_cases p (List.length x)) as [Hle | Hgt].
  - specialize (H (List.length a + p)).
    rewrite skipn_app in H.
    replace (skipn (List.length a + p) a) with (@nil ascii) in H
      by (symmetry; apply skipn_all2; lia).
    replace (List.length a + p - List.length a) with p in H by lia.
    simpl in H. rewrite skipn_app in H.
    replace (p - List.length x) with 0 in H by lia. simpl in H.
    rewrite (starts_with_app_r _ _ b E) in H. discriminate H.
  - rewrite skipn_all2 in E by lia. apply starts_with_nil in E. subst t.
    specialize (H 0). discriminate H.
Qed.

Lemma first_cut_spec (s : text) (toks : list text) (acc : option nat) :
  (forall c, acc = Some c -> c <= List.length s) ->
  match fold_left
          (fun cut t =>
             match find s t with
             | Some p => min_cut cut p
             | None => cut
             end)
          toks acc with
  | None => acc = None /\ forall t, In t toks -> find s t = None
  | Some c =>
      c <= List.length s
      /\ (forall a, acc = Some a -> c <= a)
      /\ (forall t q, In t toks -> find s t = Some q -> c <= q)
      /\ (acc = Some c \/ exists t, In t toks /\ find s t = Some c)
  end.
Proof.
  revert acc. induction toks as [| t toks IH]; intros acc Hacc; simpl.
  - destruct acc as [c |]; [| split; [reflexivity | intros t []]].
    split; [apply Hacc; reflexivity|]. split; [| split].
    + intros a H. inversion H. lia.
    + intros t q [].
    + left. reflexivity.
  - destruct (find s t) as [p |] eqn:Ef.
    + destruct (find_at_some s t 0 p Ef) as (_ & Hp & _). rewrite Nat.sub_0_r in Hp.
      specialize (IH (min_cut acc p)).
      assert (Hb : forall c, min_cut acc p = Some c -> c <= List.length s).
      { intros c Hc. destruct acc as [a |]; simpl in Hc; inversion Hc; subst.
        - specialize (Hacc a eq_refl). lia.
        - exact Hp. }
      specialize (IH Hb).
      destruct (fold_left _ toks (min_cut acc p)) as [c |].
      * destruct IH as (Hc & Ha & Hq & Hwho). split; [exact Hc|].
        split; [| split].
        -- intros a Hacc'. subst acc. specialize (Ha _ eq_refl). lia.
        -- intros t' q [<- | Hin] Hf.
           ++ rewrite Ef in Hf. inversion Hf; subst.
              destruct acc as [a |]; simpl in Ha;
                [specialize (Ha _ eq_refl); lia | apply (Ha _ eq_refl)].
           ++ apply (Hq t' q Hin Hf).
        -- destruct Hwho as [Hm | (t' & Hin & Hf)].
           ++ destruct acc as [a |]; simpl in Hm; inversion Hm; subst.
              ** destruct (Nat.min_dec a p) as [E | E]; rewrite E.
                 --- left. reflexivity.
                 --- right. exists t. split; [left; reflexivity | exact Ef].
              ** right. exists t. split; [left; reflexivity | exact Ef].
           ++ right. exists t'. split; [right; exact Hin | exact Hf].
      * destruct IH as [Hn _]. destruct acc; discriminate Hn.
    + specialize (IH acc Hacc).
      destruct (fold_left _ toks acc) as [c |].
      * destruct IH as (Hc & Ha & Hq & Hwho). split; [exact Hc|].
        split; [exact Ha|]. split.
        -- intros t' q [<- | Hin] Hf; [rewrite Ef in Hf; discriminate Hf|].
           apply (Hq t' q Hin Hf).
        -- destruct Hwho as [Hm | (t' & Hin & Hf)]; [left; exact Hm|].
           right. exists t'. split; [right; exact Hin | exact Hf].
      * destruct IH as [Hn Hall]. split; [exact Hn|].
        intros t' [<- | Hin]; [exact Ef | apply Hall; exact Hin].
Qed.

Lemma absent_firstn (s t : text) (c : nat) :
  t <> [] ->
  (forall q, find s t = Some q -> c <= q) ->
  absent t (firstn c s).
Proof.
  intros Hne Hmin p.
  destruct (starts_with t (skipn p (firstn c s))) eqn:E; [| reflexivity].
  exfalso.
  assert (Hp : p < List.length (firstn c s)).
  { destruct (Nat.lt_ge_cases p (List.length (firstn c s))) as [H | H]; [exact H|].
    rewrite skipn_all2 in E by exact H. apply starts_with_nil in E. contradiction. }
  assert (Hocc : starts_with t (skipn p s) = true).
  { rewrite <- (firstn_skipn c s) at 1. rewrite skipn_app.
    apply starts_with_app_r. exact E. }
  rewrite length_firstn in Hp.
  destruct (find s t) as [q |] eqn:Ef.
  - specialize (Hmin q eq_refl).
    destruct (find_at_some s t 0 q Ef) as (_ & _ & Hfirst).
    rewrite (Hfirst p) in Hocc; [discriminate Hocc | lia].
  - rewrite (find_at_none s t 0 Ef p) in Hocc. discriminate Hocc.
Qed.

Lemma find_at_occurs (s t : text) (i q : nat) :
  find_at i s t = Some q -> starts_with t (skipn (q - i) s) = true.
Proof.
  revert i. induction s as [| c s IH]; intros i H.
  - simpl in H. destruct (starts_with t []) eqn:E; [| discriminate H].
    destruct (q - i); exact E.
  - cbn [find_at] in H. destruct (starts_with t (c :: s)) eqn:E.
    + inversion H; subst. rewrite Nat.sub_diag. exact E.
    + destruct (find_at_some s t (S i) q H) as (Hle & _).
      replace (q - i) with (S (q - S i)) by lia. simpl. apply (IH (S i) H).
Qed.

Lemma absent_find (t s : text) : absent t s -> find s t = None.
Proof.
  intros H. unfold find. destruct (find_at 0 s t) as [q |] eqn:E; [| reflexivity].
  apply find_at_occurs in E. rewrite H in E. discriminate E.
Qed.

Lemma absent_trim_ws (t x : text) : absent t x -> absent t (trim_ws x).
Proof.
  intros H.
  destruct (lstrip_suffix x) as (w1 & H1 & _).
  destruct (rstrip_prefix (lstrip x)) as (w2 & H2 & _).
  rewrite trim_ws_strip. apply (absent_infix t w1 _ w2).
  rewrite <- H2, <- H1. exact H.
Qed.

(** X10: Cutting the reply. When one of the tokens occurs in the reply,
    what [strip_after_any] leaves is exactly the part of the reply before
    the earliest first occurrence of a token, trimmed; when none of them
    occurs, it is the reply, trimmed. None of the tokens occurs in what is
    left, which is trimmed and no longer than the position of any
    occurrence. *)
Theorem strip_after_any_removes_every_marker :
  forall (s : text) (toks : list text),
    (forall t, In t toks -> t <> [] -> find (strip_after_any s toks) t = None)
    /\ trim_ws (strip_after_any s toks) = strip_after_any s toks
    /\ ((forall t, In t toks -> find s t = None) ->
        strip_after_any s toks = trim_ws s)
    /\ (forall t q, In t toks -> find s t = Some q ->
        List.length (strip_after_any s toks) <= q)
    /\ (forall t q, In t toks -> find s t = Some q ->
        exists t0 q0,
          In t0 toks /\ find s t0 = Some q0
          /\ (forall t' q', In t' toks -> find s t' = Some q' -> q0 <= q')
          /\ strip_after_any s toks = trim_ws (firstn q0 s)).
Proof.
  intros s toks. unfold strip_after_any, first_cut.
  pose proof (first_cut_spec s toks None) as Hcut.
  destruct (fold_left _ toks None) as [c |].
  - destruct Hcut as (Hc & _ & Hq & Hwho); [discriminate|].
    split; [| split; [| split; [| split]]].
    + intros t Hin Hne. apply absent_find, absent_trim_ws.
      apply absent_firstn; [exact Hne|]. intros q Hf. apply (Hq t q Hin Hf).
    + apply trim_ws_idem.
    + intros Hnone. exfalso.
      destruct Hwho as [Hm | (t & Hin & Hf)]; [discriminate Hm|].
      rewrite (Hnone t Hin) in Hf. discriminate Hf.
    + intros t q Hin Hf. specialize (Hq t q Hin Hf).
      pose proof (trim_ws_length (firstn c s)) as Hl.
      rewrite length_firstn in Hl. lia.
    + intros _ _ _ _.
      destruct Hwho as [Hm | (t0 & Hin0 & Hf0)]; [discriminate Hm|].
      exists t0, c. split; [exact Hin0|]. split; [exact Hf0|].
      split; [exact Hq | reflexivity].
  - destruct Hcut as [_ Hnone]; [discriminate|].
    split; [| split; [| split; [| split]]].
    + intros t Hin Hne. apply absent_find, absent_trim_ws.
      apply (find_at_none s t 0). apply Hnone. exact Hin.
    + apply trim_ws_idem.
    + reflexivity.
    + intros t q Hin Hf. rewrite (Hnone t Hin) in Hf. discriminate Hf.
    + intros t q Hin Hf. rewrite (Hnone t Hin) in Hf. discriminate Hf.
Qed.

(** The cut on a reply that runs into the next turn of a dialogue and
    then ends: the earlier of the two markers decides, and the sentence
    before it is what is left. *)
Lemma strip_after_any_removes_every_marker_witness :
  find (strip_after_any
          (lit "Blue. " ++ newline :: lit "User: and?<|im_end|>") stop_markers)
       (newline :: lit "User:") = None
  /\ strip_after_any
       (lit "Blue. " ++ newline :: lit "User: and?<|im_end|>") stop_markers
     = lit "Blue."
  /\ exists t0 q0,
      In t0 stop_markers
      /\ find (lit "Blue. " ++ newline :: lit "User: and?<|im_end|>") t0 = Some q0
      /\ strip_after_any
           (lit "Blue. " ++ newline :: lit "User: and?<|im_end|>") stop_markers
         = trim_ws (firstn q0 (lit "Blue. " ++ newline
                                            :: lit "User: and?<|im_end|>")).
Proof.
  destruct (strip_after_any_removes_every_marker
              (lit "Blue. " ++ newline :: lit "User: and?<|im_end|>")
              stop_markers) as (Hnone & _ & _ & _ & Hcut).
  split; [| split; [reflexivity|]].
  - apply Hnone; [simpl; tauto | discriminate].
  - destruct (Hcut (lit "<|im_end|>") 17) as (t0 & q0 & H1 & H2 & _ & H4);
      [simpl; tauto | reflexivity|].
    exists t0, q0. auto.
Defined.

Lemma speech_stage_done (E : TtsEngine) (t : tts E) (m : Machine) (reply : text) :
  exists r, speech_stage E t m reply = Some r
            /\ machine r = dispatch m TtsDone no_note.
Proof.
  unfold speech_stage.
  destruct (split_sentences_total reply) as [parts ->].
  destruct (is_enabled E t).
  - destruct (speak_parts E t parts) as [[cs ok] t']. eexists. split; reflexivity.
  - eexists. split; reflexivity.
Qed.

Lemma text_eqb_neq (a b : text) : a <> b -> text_eqb a b = false.
Proof.
  intros H. destruct (text_eqb a b) eqn:E; [| reflexivity].
  apply text_eqb_eq in E. contradiction.
Qed.

Lemma others_app (sh : Shared) (a b : list Other) :
  others sh (a ++ b) = others (others sh a) b.
Proof. apply fold_left_app. Qed.

Lemma others_text_q (os : list Other) (sh : Shared) :
  text_q (others sh os) = text_q sh ++ appended os.
Proof.
  revert sh. induction os as [| o os IH]; intros sh.
  - cbn. rewrite app_nil_r. reflexivity.
  - cbn [others fold_left]. fold (others (other_step sh o) os). rewrite IH.
    destruct o; cbn; try reflexivity. rewrite <- app_assoc. reflexivity.
Qed.

Lemma foreign_step_speaking (sh : Shared) (o : Other) :
  foreign o = true ->
  (state (sm sh) = Speaking -> state (sm (other_step sh o)) = Speaking)
  /\ (state (sm sh) <> Speaking -> state (sm (other_step sh o)) <> Speaking).
Proof.
  unfold state. intros Hf. destruct o as [ev note | cmd | op]; cbn [other_step sm];
    try tauto.
  rewrite dispatch_st. split.
  - intros ->. destruct ev; try reflexivity; discriminate Hf.
  - intros Hn. destruct (st_ (sm sh)), ev; cbn; try congruence; discriminate Hf.
Qed.

Lemma foreign_speaking (os : list Other) (sh : Shared) :
  Forall (fun o => foreign o = true) os ->
  (state (sm sh) = Speaking -> state (sm (others sh os)) = Speaking)
  /\ (state (sm sh) <> Speaking -> state (sm (others sh os)) <> Speaking).
Proof.
  revert sh. induction os as [| o os IH]; intros sh Hall; [cbn; tauto|].
  inversion Hall as [| ? ? Ho Hos]; subst.
  cbn [others fold_left]. fold (others (other_step sh o) os).
  destruct (foreign_step_speaking sh o Ho) as [H1 H2].
  destruct (IH (other_step sh o) Hos) as [I1 I2]. split; auto.
Qed.

Lemma not_blank (front : text) :
  trim_ws front <> [] -> trim_ws front <> BLANK_AUDIO ->
  empty (trim_ws front) || text_eqb (trim_ws front) BLANK_AUDIO = false.
Proof.
  intros Hne Hnb. rewrite (text_eqb_neq _ _ Hnb), orb_false_r.
  destruct (trim_ws front); [contradiction | reflexivity].
Qed.

Lemma brain_turn_outcome
      (E : TtsEngine) (llm : Llm) (t : tts E) (sh : Shared)
      (front : text) (rest : list text)
      (during_reply during_speech : list Other) :
  text_q sh = front :: rest ->
  Forall (fun o => foreign o = true) (during_reply ++ during_speech) ->
  exists sh' t',
    brain_turn E llm t sh during_reply during_speech = Some (sh', t')
    /\ (trim_ws front = [] \/ trim_ws front = BLANK_AUDIO ->
        sh' = pop_command sh /\ text_q sh' = rest)
    /\ (trim_ws front <> [] -> trim_ws front <> BLANK_AUDIO ->
        (reply_to llm front = [] ->
         text_q sh' = rest ++ appended during_reply)
        /\ (reply_to llm front <> [] ->
            text_q sh' = rest ++ appended during_reply ++ appended during_speech)
        /\ (state (sm (others (pop_command sh) during_reply)) = Thinking ->
            state (sm sh') = AwaitSpeech
            /\ (reply_to llm front <> [] ->
                forall before after,
                  during_speech = before ++ after ->
                  state (sm (others (at_reply_ready sh during_reply) before))
                  = Speaking))
        /\ (state (sm (others (pop_command sh) during_reply)) <> Thinking ->
            reply_to llm front <> [] ->
            state (sm sh) <> Speaking ->
            forall before after,
              during_speech = before ++ after ->
              state (sm (others (at_reply_ready sh during_reply) before))
              <> Speaking))
    /\ (state (sm sh) <> Speaking -> state (sm sh') <> Speaking).
Proof.
  intros Hq Hall. apply Forall_app in Hall. destruct Hall as [Hr Hs].
  unfold brain_turn. rewrite Hq.
  assert (Hpop : text_q (pop_command sh) = rest)
    by (unfold pop_command; cbn; rewrite Hq; reflexivity).
  destruct (empty (trim_ws front) || text_eqb (trim_ws front) BLANK_AUDIO)
    eqn:Eblank.
  - exists (pop_command sh), t. split; [reflexivity|].
    split; [intros _; split; [reflexivity | exact Hpop]|].
    split; [| intros H; exact H].
    intros Hne Hnb. rewrite (not_blank front Hne Hnb) in Eblank.
    discriminate Eblank.
  - assert (Hblank : trim_ws front = [] \/ trim_ws front = BLANK_AUDIO -> False).
    { intros [H0 | H0]; rewrite H0 in Eblank; discriminate Eblank. }
    set (sh1 := others (pop_command sh) during_reply).
    assert (Hq1 : text_q sh1 = rest ++ appended during_reply)
      by (unfold sh1; rewrite others_text_q, Hpop; reflexivity).
    destruct (foreign_speaking during_reply (pop_command sh) Hr) as [_ Hns1].
    fold sh1 in Hns1.
    destruct (reply_to llm front) as [| r0 reply0] eqn:Ereply; cbn [empty].
    + exists (brain_dispatch sh1 NoCommand "empty reply"), t.
      split; [reflexivity|].
      split; [intros H; destruct (Hblank H)|].
      split.
      * intros _ _. split; [intros _; exact Hq1|].
        split; [intros H; contradiction|].
        split; [| intros _ H; contradiction].
        intros Hth. split; [| intros H; contradiction].
        unfold state in *. cbn. rewrite dispatch_st, Hth. reflexivity.
      * intros Hn. specialize (Hns1 Hn). unfold state in *. cbn.
        rewrite dispatch_st.
        destruct (st_ (sm sh1)); cbn; congruence.
    + fold sh1. unfold at_reply_ready. fold sh1.
      set (sh2 := brain_dispatch sh1 ReplyReady no_note).
      set (sh3 := others sh2 during_speech).
      destruct (speech_stage_done E t (sm sh3) (r0 :: reply0)) as (r & -> & Hm).
      eexists. eexists. split; [reflexivity|]. cbn [sm text_q].
      assert (Hq3 : text_q sh3
                    = rest ++ appended during_reply ++ appended during_speech).
      { unfold sh3. rewrite others_text_q. unfold sh2. cbn [brain_dispatch text_q].
        rewrite Hq1, <- app_assoc. reflexivity. }
      assert (Hmid : forall before after,
                 during_speech = before ++ after ->
                 (state (sm sh2) = Speaking ->
                  state (sm (others sh2 before)) = Speaking)
                 /\ (state (sm sh2) <> Speaking ->
                     state (sm (others sh2 before)) <> Speaking)).
      { intros before after Hsplit. apply foreign_speaking.
        rewrite Hsplit in Hs. apply Forall_app in Hs. apply Hs. }
      split; [intros H; destruct (Hblank H)|].
      split.
      * intros _ _. split; [intros H; discriminate H|].
        split; [intros _; exact Hq3|].
        split.
        -- intros Hth.
           assert (H2 : state (sm sh2) = Speaking).
           { unfold sh2, state in *. cbn. rewrite dispatch_st, Hth. reflexivity. }
           split.
           ++ destruct (foreign_speaking during_speech sh2 Hs) as [H3 _].
              specialize (H3 H2). fold sh3 in H3. unfold state in *.
              rewrite Hm, dispatch_st, H3. reflexivity.
           ++ intros _ before after Hsplit.
              apply (proj1 (Hmid before after Hsplit) H2).
        -- intros Hnt _ Hn before after Hsplit.
           apply (proj2 (Hmid before after Hsplit)).
           specialize (Hns1 Hn). unfold sh2, state in *. cbn.
           rewrite dispatch_st.
           destruct (st_ (sm sh1)); cbn; congruence.
      * intros Hn. specialize (Hns1 Hn). unfold state in *.
        rewrite Hm, dispatch_st.
        destruct (st_ (sm sh3)); cbn; congruence.
Qed.

(** X11: A turn of the brain thread among the other threads. While the
    reply is computed and while it is spoken the audio loop and the ASR
    thread take any steps: they dispatch any events but [ReplyReady] and
    [TtsDone], which the brain thread alone dispatches, append commands
    and work on the utterance queue. The turn always comes to its end and
    takes the command at the front of the command queue; the queue is
    then the rest and what the ASR thread appended meanwhile. A blank
    command is dropped without any dispatch. For any other command: if the
    machine is in [Thinking] when the reply is ready, the turn ends in
    [AwaitSpeech], and the machine is in [Speaking] during the whole
    speech, whatever the others dispatch; if the machine has left
    [Thinking] by then (and was not in [Speaking] before the turn), it is
    not in [Speaking] at any moment of the speech. A machine that is not
    in [Speaking] before the turn is not in [Speaking] after it. *)
Theorem brain_turn_answers_every_command :
  forall (E : TtsEngine) (llm : Llm) (t : tts E) (sh : Shared)
         (front : text) (rest : list text)
         (during_reply during_speech : list Other),
    text_q sh = front :: rest ->
    Forall (fun o => foreign o = true) (during_reply ++ during_speech) ->
    exists sh' t',
      brain_turn E llm t sh during_reply during_speech = Some (sh', t')
      /\ (trim_ws front = [] \/ trim_ws front = BLANK_AUDIO ->
          sh' = pop_command sh /\ text_q sh' = rest)
      /\ (trim_ws front <> [] -> trim_ws front <> BLANK_AUDIO ->
          (reply_to llm front = [] ->
           text_q sh' = rest ++ appended during_reply)
          /\ (reply_to llm front <> [] ->
              text_q sh'
              = rest ++ appended during_reply ++ appended during_speech)
          /\ (state (sm (others (pop_command sh) during_reply)) = Thinking ->
              state (sm sh') = AwaitSpeech
              /\ (reply_to llm front <> [] ->
                  forall before after,
                    during_speech = before ++ after ->
                    state (sm (others (at_reply_ready sh during_reply) before))
                    = Speaking))
          /\ (state (sm (others (pop_command sh) during_reply)) <> Thinking ->
              reply_to llm front <> [] ->
              state (sm sh) <> Speaking ->
              forall before after,
                during_speech = before ++ after ->
                state (sm (others (at_reply_ready sh during_reply) before))
                <> Speaking))
      /\ (state (sm sh) <> Speaking -> state (sm sh') <> Speaking).
Proof. exact brain_turn_outcome. Qed.

(** The turn on the command "what time is it", taken in [Thinking], with
    a model that answers "Noon." and a synthesizer that fails. While the
    model works the audio loop hears a sound and enqueues it (its two
    events change nothing in [Thinking]). When the ASR thread finds the
    sound blank only during the speech, the machine is in [Speaking] by
    then and ends in [AwaitSpeech]. When the ASR thread is done before
    the reply is ready, its [NoCommand] takes the machine out of
    [Thinking]: [ReplyReady] and [TtsDone] change nothing, and a start of
    speech during Edna's own speech is not gated. *)
Lemma brain_turn_answers_every_command_witness :
  let sh := {| sm := dispatch (sm Capture.while_transcribing)
                              TranscriptReady no_note;
               audio_q := []; text_q := [lit "what time is it"] |} in
  let heard := [Dispatches SpeechStart "VAD start_trigger";
                Dispatches SpeechEndQueued "VAD stop_trigger";
                Audio (OpEnqueue [0%Z]); Audio OpTake] in
  let blank := [Dispatches NoCommand "blank audio"] in
  (exists sh' t',
      brain_turn failing_engine (fun _ => lit "Noon.") tt sh heard blank
      = Some (sh', t')
      /\ state (sm sh') = AwaitSpeech)
  /\ (exists sh' t',
         brain_turn failing_engine (fun _ => lit "Noon.") tt sh
                    (heard ++ blank)
                    [Dispatches SpeechStart "VAD start_trigger"]
         = Some (sh', t')
         /\ state (sm sh') = CapturingSpeech).
Proof.
  intros sh heard blank. split.
  - destruct (brain_turn_answers_every_command
                failing_engine (fun _ => lit "Noon.") tt sh
                (lit "what time is it") [] heard blank eq_refl)
      as (sh' & t' & H & _ & Hgo & _).
    + repeat constructor.
    + exists sh', t'. split; [exact H|].
      destruct Hgo as (_ & _ & Hth & _);
        [vm_compute; discriminate | vm_compute; discriminate|].
      apply Hth. reflexivity.
  - eexists. eexists. split; [vm_compute; reflexivity | reflexivity].
Defined.

End BrainProperties.

(** ** From the ASR stage to the brain thread *)

Section TurnProperties.
Import CLocale Text Queues EdnaStateMachine Asr Speech Brain.


(** X12: What [transcribe_16k_mono_s16] returns is trimmed and is never the
    sentinel "[BLANK_AUDIO]"; so in the ASR thread the second trim changes
    nothing and the comparison with the sentinel never holds. *)
Theorem transcript_is_trimmed_and_never_the_sentinel :
  forall (whisper : Recognizer) (audio : pcm),
    trim_ws (transcribe_16k_mono_s16 whisper audio)
    = transcribe_16k_mono_s16 whisper audio
    /\ transcribe_16k_mono_s16 whisper audio <> BLANK_AUDIO
    /\ text_eqb (trim_ws (transcribe_16k_mono_s16 whisper audio)) BLANK_AUDIO
       = false.
Proof.
  intros whisper audio.
  assert (Htrim : trim_ws (transcribe_16k_mono_s16 whisper audio)
                  = transcribe_16k_mono_s16 whisper audio).
  { unfold transcribe_16k_mono_s16. destruct audio as [| a rest]; [reflexivity|].
    destruct (negb (rc (whisper (a :: rest)) =? 0)%Z); [reflexivity|].
    destruct (text_eqb _ BLANK_AUDIO); [reflexivity | apply trim_ws_idem]. }
  assert (Hsent : transcribe_16k_mono_s16 whisper audio <> BLANK_AUDIO).
  { unfold transcribe_16k_mono_s16. destruct audio as [| a rest]; [discriminate|].
    destruct (negb (rc (whisper (a :: rest)) =? 0)%Z); [discriminate|].
    destruct (text_eqb _ BLANK_AUDIO) eqn:E; [discriminate|].
    intros H. apply text_eqb_eq in H. rewrite H in E. discriminate E. }
  split; [exact Htrim|]. split; [exact Hsent|].
  rewrite Htrim. apply text_eqb_neq. exact Hsent.
Qed.








End TurnProperties.

(** ** The audio loop: cooldown, triggers, contiguity *)

Section CaptureMoreProperties.
Import Queues EdnaStateMachine Capture CaptureMore.

Ltac loop_cases H :=
  unfold audio_iteration in H; cbv zeta in H;
  repeat match type of H with
         | context [if ?b then _ else _] => destruct b eqn:?
         end;
  inversion H; subst; clear H.

Lemma not_speaking_beq (sh : Shared) :
  state (sm sh) <> Speaking -> State_beq (state (sm sh)) Speaking = false.
Proof. destruct (state (sm sh)); try reflexivity. contradiction. Qed.

(** A turn behind the closed gate. *)
Lemma gated_turn (tk : Tick) (l : Locals) (sh : Shared) :
  gate_closed l sh = true ->
  exists ig,
    audio_iteration tk l sh
    = Next {| in_speech := false; voiced_run := 0; unvoiced_run := 0;
              utterance := []; preroll := [];
              ignore_frames := ig;
              last_was_speaking := State_beq (state (sm sh)) Speaking |}
           {| sm := sm sh; audio_q := []; text_q := text_q sh |} None
    /\ (last_was_speaking l = false -> state (sm sh) <> Speaking ->
        ig = (ignore_frames l - 1)%Z)
    /\ (last_was_speaking l = true -> state (sm sh) <> Speaking ->
        ig = (cooldown_frames - 1)%Z).
Proof.
  unfold gate_closed, audio_iteration. cbv zeta. intros H. rewrite H.
  eexists. split; [reflexivity|]. split; intros Hl Hs.
  - rewrite Hl, (not_speaking_beq sh Hs) in *. simpl in *. rewrite H. reflexivity.
  - rewrite Hl, (not_speaking_beq sh Hs). reflexivity.
Qed.

(** While a cooldown of [k] frames is left, [n <= k] turns with a silent
    loudspeaker are all gated and leave [k - n] frames. *)
Lemma cooldown_counts_down (turns : list Turn) (l : Locals) :
  Forall quiet_speaker turns ->
  last_was_speaking l = false ->
  (Z.of_nat (List.length turns) <= ignore_frames l)%Z ->
  exists l',
    run turns l = Some l'
    /\ (turns <> [] ->
        in_speech l' = false /\ utterance l' = [] /\ preroll l' = []
        /\ voiced_run l' = 0%Z /\ unvoiced_run l' = 0%Z)
    /\ ignore_frames l' = (ignore_frames l - Z.of_nat (List.length turns))%Z
    /\ last_was_speaking l' = false.
Proof.
  revert l. induction turns as [| [tk sh] turns IH]; intros l Hq Hl Hk.
  - exists l. simpl. repeat split; try tauto; try lia.
  - inversion Hq as [| ? ? Hsh Hrest]; subst. unfold quiet_speaker in Hsh.
    simpl in Hsh. simpl List.length in Hk.
    assert (Hgate : gate_closed l sh = true).
    { unfold gate_closed. rewrite Hl, (not_speaking_beq sh Hsh). simpl.
      apply Z.ltb_lt. lia. }
    destruct (gated_turn tk l sh Hgate) as (ig & Hstep & Hig & _).
    specialize (Hig Hl Hsh). subst ig.
    rewrite (not_speaking_beq sh Hsh) in Hstep.
    simpl run. rewrite Hstep.
    match type of Hstep with
    | _ = Next ?l1 _ _ =>
        destruct (IH l1 Hrest eq_refl) as (l' & Hrun & Hreset & Hcount & Hlast);
          [simpl; lia|]
    end.
    exists l'. split; [exact Hrun|]. split; [| split].
    + intros _. destruct turns as [| t turns].
      * simpl in Hrun. inversion Hrun; subst. simpl. auto.
      * apply Hreset. discriminate.
    + rewrite Hcount. simpl. lia.
    + exact Hlast.
Qed.

(** X15: After the loudspeaker falls silent the microphone stays gated for
    exactly [cooldown_frames] = 30 turns, 600 ms: the 30 turns that follow
    a turn in [Speaking] are gated when the machine is not [Speaking] again,
    and the turn after them finds the gate open. *)
Theorem cooldown_lasts_thirty_turns :
  forall (turns : list Turn) (l : Locals) (sh : Shared),
    last_was_speaking l = true ->
    List.length turns = Z.to_nat cooldown_frames ->
    Forall quiet_speaker turns ->
    state (sm sh) <> Speaking ->
    (forall before t after, turns = before ++ t :: after ->
       exists lb, run before l = Some lb /\ gate_closed lb (snd t) = true)
    /\ exists l',
        run turns l = Some l'
        /\ in_speech l' = false /\ utterance l' = [] /\ preroll l' = []
        /\ ignore_frames l' = 0%Z
        /\ gate_closed l' sh = false.
Proof.
  intros turns l sh Hl Hlen Hq Hsh.
  change (Z.to_nat cooldown_frames) with 30 in Hlen.
  destruct turns as [| [tk0 sh0] turns]; [discriminate Hlen|].
  inversion Hq as [| ? ? Hsh0 Hrest]; subst. unfold quiet_speaker in Hsh0.
  simpl in Hsh0. simpl in Hlen.
  assert (Hgate0 : gate_closed l sh0 = true).
  { unfold gate_closed. rewrite Hl, (not_speaking_beq sh0 Hsh0). reflexivity. }
  destruct (gated_turn tk0 l sh0 Hgate0) as (ig & Hstep & _ & Hig).
  specialize (Hig Hl Hsh0). subst ig.
  rewrite (not_speaking_beq sh0 Hsh0) in Hstep.
  change (cooldown_frames - 1)%Z with 29%Z in Hstep.
  set (l1 := {| in_speech := false; voiced_run := 0; unvoiced_run := 0;
                utterance := []; preroll := []; ignore_frames := 29;
                last_was_speaking := false |}) in *.
  split.
  - intros before t after Hsplit.
    destruct before as [| b0 before].
    + simpl in Hsplit. inversion Hsplit; subst. exists l. split; [reflexivity|].
      exact Hgate0.
    + simpl in Hsplit. inversion Hsplit; subst.
      simpl run. rewrite Hstep.
      apply Forall_app in Hrest as [Hb Hta].
      inversion Hta as [| ? ? Ht _]; subst.
      rewrite length_app in Hlen. simpl in Hlen.
      destruct (cooldown_counts_down before l1 Hb eq_refl)
        as (lb & Hrun & _ & Hcount & Hlast);
        [unfold l1; simpl ignore_frames; lia|].
      exists lb. split; [exact Hrun|].
      unfold gate_closed. rewrite Hlast. unfold quiet_speaker in Ht.
      rewrite (not_speaking_beq _ Ht). simpl. apply Z.ltb_lt.
      rewrite Hcount. unfold l1. simpl ignore_frames. lia.
  - simpl run. rewrite Hstep.
    destruct (cooldown_counts_down turns l1 Hrest eq_refl)
      as (l' & Hrun & Hreset & Hcount & Hlast);
      [unfold l1; simpl ignore_frames; lia|].
    exists l'. split; [exact Hrun|].
    assert (Hne : turns <> []) by (destruct turns; [discriminate Hlen | discriminate]).
    destruct (Hreset Hne) as (H1 & H2 & H3 & _).
    assert (Hzero : ignore_frames l' = 0%Z)
      by (rewrite Hcount; unfold l1; simpl ignore_frames; lia).
    repeat (split; [assumption|]).
    unfold gate_closed. rewrite Hlast, (not_speaking_beq sh Hsh), Hzero.
    reflexivity.
Qed.

(** The cooldown after a turn in [Speaking], on thirty silent frames. *)
Lemma cooldown_lasts_thirty_turns_witness :
  exists l',
    run (repeat (silent_tick, listening) 30)
        {| in_speech := false; voiced_run := 0; unvoiced_run := 0;
           utterance := []; preroll := []; ignore_frames := 0;
           last_was_speaking := true |} = Some l'
    /\ gate_closed l' listening = false.
Proof.
  destruct (cooldown_lasts_thirty_turns
              (repeat (silent_tick, listening) 30)
              {| in_speech := false; voiced_run := 0; unvoiced_run := 0;
                 utterance := []; preroll := []; ignore_frames := 0;
                 last_was_speaking := true |} listening)
    as (_ & l' & Hrun & _ & _ & _ & _ & Hopen).
  - reflexivity.
  - apply repeat_length.
  - apply Forall_forall. intros t Ht. apply repeat_spec in Ht. subst t.
    unfold quiet_speaker. simpl. discriminate.
  - simpl. discriminate.
  - exists l'. split; assumption.
Defined.

(** What the turn dispatches is what [turn_dispatch] says. *)
Lemma turn_dispatch_sound (tk : Tick) (l l' : Locals) (sh sh' : Shared)
      (e : option pcm) :
  audio_iteration tk l sh = Next l' sh' e ->
  sm sh' = match turn_dispatch tk l sh with
           | Some (ev, note) => dispatch (sm sh) ev note
           | None => sm sh
           end.
Proof.
  intros H. unfold turn_dispatch, gate_closed. loop_cases H; simpl;
    repeat match goal with
           | E : ?b = _ |- context [?b] => rewrite E
           end; simpl; try reflexivity.
Qed.

(** How the in-speech flag and the dispatch of a turn go together. *)
Lemma turn_dispatch_flag (tk : Tick) (l l' : Locals) (sh sh' : Shared)
      (e : option pcm) :
  audio_iteration tk l sh = Next l' sh' e ->
  match turn_dispatch tk l sh with
  | Some (SpeechStart, _) => in_speech l = false /\ in_speech l' = true
  | Some (SpeechEndQueued, _) => in_speech l = true /\ in_speech l' = false
  | Some _ => False
  | None => in_speech l' = in_speech l \/ in_speech l' = false
  end.
Proof.
  intros H. unfold turn_dispatch, gate_closed. loop_cases H; simpl;
    repeat match goal with
           | E : ?b = _ |- context [?b] => rewrite E
           end; simpl;
    repeat match goal with
           | E : negb (in_speech l) = true |- _ => apply negb_true_iff in E
           | E : negb (in_speech l) = false |- _ => apply negb_false_iff in E
           end; auto.
Qed.

Lemma well_bracketed_open (evs : list Event) :
  well_bracketed false evs = true -> well_bracketed true evs = true.
Proof.
  destruct evs as [| ev evs]; [reflexivity|].
  destruct ev; simpl; try discriminate; auto.
Qed.

Lemma run_dispatches_bracketed (turns : list Turn) (l : Locals) :
  well_bracketed (in_speech l) (run_dispatches turns l) = true.
Proof.
  revert l. induction turns as [| [tk sh] turns IH]; intros l; [reflexivity|].
  simpl. destruct (audio_iteration tk l sh) as [| l' sh' e] eqn:E; [reflexivity|].
  pose proof (turn_dispatch_flag tk l l' sh sh' e E) as Hflag.
  destruct (turn_dispatch tk l sh) as [[ev note] |].
  - specialize (IH l').
    destruct ev; try contradiction; destruct Hflag as [H1 H2]; simpl;
      rewrite H2 in IH.
    + exact IH.
    + rewrite H1. exact IH.
  - specialize (IH l'). destruct Hflag as [H | H]; rewrite H in IH.
    + exact IH.
    + destruct (in_speech l); [apply well_bracketed_open|]; exact IH.
Qed.

(** X16: The audio loop dispatches [SpeechStart] and [SpeechEndQueued] only,
    and never a [SpeechEndQueued] without a [SpeechStart] since the one
    before: between two ends of speech there is a start. (After a start
    the gate may cut the speech short, so a start need not be followed by
    an end.) *)
Theorem speech_events_are_bracketed :
  (forall (tk : Tick) (l l' : Locals) (sh sh' : Shared) (e : option pcm),
      audio_iteration tk l sh = Next l' sh' e ->
      sm sh' = match turn_dispatch tk l sh with
               | Some (ev, note) => dispatch (sm sh) ev note
               | None => sm sh
               end)
  /\ (forall turns : list Turn,
         well_bracketed false (run_dispatches turns initial_locals) = true).
Proof.
  split.
  - apply turn_dispatch_sound.
  - intros turns. apply (run_dispatches_bracketed turns initial_locals).
Qed.

(** On three voiced frames: the turn that starts the speech. *)
Lemma speech_events_are_bracketed_witness :
  run_dispatches (repeat (voiced_tick, listening) 3) initial_locals
  = [SpeechStart]
  /\ well_bracketed false
       (run_dispatches (repeat (voiced_tick, listening) 3) initial_locals)
     = true.
Proof.
  split.
  - vm_compute. reflexivity.
  - apply (proj2 speech_events_are_bracketed).
Defined.

(** The invariants of the runs: out of speech the last [voiced_run]
    turns were voiced, in speech the last [unvoiced_run] turns were
    silent. *)
Lemma runs_invariant (turns : list Turn) (l : Locals) :
  run turns initial_locals = Some l ->
  exists before recent,
    turns = before ++ recent
    /\ if in_speech l
       then (Z.of_nat (List.length recent) = unvoiced_run l
             /\ voiced_run l = 0%Z)
            /\ Forall silent recent
       else Z.of_nat (List.length recent) = voiced_run l
            /\ Forall voiced recent.
Proof.
  revert l. induction turns as [| t turns IH] using rev_ind; intros l H.
  - inversion H; subst. exists [], []. simpl. auto.
  - rewrite run_snoc in H.
    destruct (run turns initial_locals) as [l1 |] eqn:Hrun; [| discriminate H].
    destruct (audio_iteration (fst t) l1 (snd t)) as [| l2 sh2 e] eqn:E;
      [discriminate H|].
    inversion H; subst. clear H.
    destruct (IH l1 eq_refl) as (before & recent & Hsplit & Hinv).
    destruct (reachable_bounds turns l1 Hrun) as (Hv & Hu & _ & _).
    change start_trigger with 3%Z in Hv. change stop_trigger with 20%Z in Hu.
    assert (Hgrow : turns ++ [t] = before ++ (recent ++ [t]))
      by (rewrite Hsplit, app_assoc; reflexivity).
    pose proof E as E'.
    loop_cases E'; simpl;
      change start_trigger with 3%Z in *; change stop_trigger with 20%Z in *;
      repeat match goal with
             | H0 : negb (in_speech l1) = true |- _ =>
                 apply negb_true_iff in H0; rewrite H0 in Hinv
             | H0 : negb (in_speech l1) = false |- _ =>
                 apply negb_false_iff in H0; rewrite H0 in Hinv
             | H0 : negb (_ =? _)%Z = true |- _ => apply negb_true_iff in H0
             | H0 : negb (_ =? _)%Z = false |- _ => apply negb_false_iff in H0
             | H0 : (_ =? _)%Z = true |- _ => apply Z.eqb_eq in H0
             | H0 : (_ =? _)%Z = false |- _ => apply Z.eqb_neq in H0
             | H0 : (_ <? _)%Z = false |- _ => apply Z.ltb_ge in H0
             | H0 : (_ <=? _)%Z = false |- _ => apply Z.leb_gt in H0
             end;
      try (match goal with
           | |- exists b r, ?x = _ /\ _ => exists x, []
           end;
           rewrite app_nil_r;
           split; [reflexivity|];
           split; [simpl; try split; lia || reflexivity | constructor]);
      try (destruct Hinv as [Hn Hall];
           exists before, (recent ++ [t]); split; [exact Hgrow|];
           split; [rewrite length_app; simpl; lia|];
           apply Forall_app; split; [exact Hall|];
           constructor; [| constructor];
           first [ unfold silent; assumption | unfold voiced; lia ]).
Qed.

Ltac to_props :=
  change start_trigger with 3%Z in *; change stop_trigger with 20%Z in *;
  repeat match goal with
         | H0 : context [if ?b then _ else _] |- _ => destruct b eqn:?
         end;
  repeat match goal with
         | H0 : negb (in_speech _) = true |- _ => apply negb_true_iff in H0
         | H0 : negb (in_speech _) = false |- _ => apply negb_false_iff in H0
         | H0 : negb (_ =? _)%Z = true |- _ => apply negb_true_iff in H0
         | H0 : negb (_ =? _)%Z = false |- _ => apply negb_false_iff in H0
         | H0 : (_ =? _)%Z = true |- _ => apply Z.eqb_eq in H0
         | H0 : (_ =? _)%Z = false |- _ => apply Z.eqb_neq in H0
         | H0 : (_ <? _)%Z = false |- _ => apply Z.ltb_ge in H0
         | H0 : (_ <? _)%Z = true |- _ => apply Z.ltb_lt in H0
         | H0 : (_ <=? _)%Z = false |- _ => apply Z.leb_gt in H0
         | H0 : (_ <=? _)%Z = true |- _ => apply Z.leb_le in H0
         end.

(** The turn that starts the speech. *)
Lemma start_turn (tk : Tick) (l l' : Locals) (sh sh' : Shared) (e : option pcm) :
  audio_iteration tk l sh = Next l' sh' e ->
  in_speech l = false -> in_speech l' = true ->
  (3 <= voiced_run l + 1)%Z /\ (0 < is_speech tk)%Z
  /\ sm sh' = dispatch (sm sh) SpeechStart "VAD start_trigger"
  /\ e = None.
Proof.
  intros H Hin Hout. loop_cases H; simpl in Hout; try discriminate Hout;
    to_props; try congruence; simpl; repeat split; try lia.
Qed.

(** The turn that ends the speech with the gate open. *)
Lemma stop_turn (tk : Tick) (l l' : Locals) (sh sh' : Shared) (e : option pcm) :
  audio_iteration tk l sh = Next l' sh' e ->
  in_speech l = true -> in_speech l' = false -> gate_closed l sh = false ->
  (20 <= unvoiced_run l + 1)%Z /\ is_speech tk = 0%Z
  /\ sm sh' = dispatch (sm sh) SpeechEndQueued "VAD stop_trigger"
  /\ (e = None \/ e = Some (utterance l ++ frame tk))
  /\ (min_utterance_samples <= List.length (utterance l ++ frame tk) ->
      e = Some (utterance l ++ frame tk)
      /\ audio_q sh' = [utterance l ++ frame tk]).
Proof.
  intros H Hin Hout Hgate. unfold gate_closed in Hgate.
  loop_cases H; simpl in Hout; try discriminate Hout;
    try (rewrite Hgate in *; discriminate);
    repeat match goal with
           | E1 : (min_utterance_samples <=? _) = _ |- _ =>
               first [apply Nat.leb_le in E1 | apply Nat.leb_gt in E1]
           end;
    to_props; try congruence; simpl;
    repeat split; try lia; auto; intros; try lia.
Qed.

(** A silent turn out of speech. *)
Lemma silent_turn (tk : Tick) (l : Locals) (sh : Shared) :
  in_speech l = false -> utterance l = [] -> is_speech tk = 0%Z ->
  exists l' sh',
    audio_iteration tk l sh = Next l' sh' None
    /\ in_speech l' = false /\ utterance l' = []
    /\ sm sh' = sm sh
    /\ turn_dispatch tk l sh = None.
Proof.
  intros Hin Hutt Hs. unfold turn_dispatch, gate_closed, audio_iteration.
  cbv zeta. rewrite Hin, Hs, Hutt. simpl.
  destruct (State_beq (state (sm sh)) Speaking
            || (0 <? (if last_was_speaking l
                            && negb (State_beq (state (sm sh)) Speaking)
                      then cooldown_frames else ignore_frames l))%Z).
  - eexists. eexists. repeat split.
  - eexists. eexists. repeat split.
Qed.

(** X17: Speech starts only on the third of three voiced frames in a row, and
    ends with the gate open only on the twentieth of twenty silent frames
    in a row: a start needs the two turns before it to be voiced, an end
    the nineteen turns before it to be silent. *)
Theorem triggers_need_full_runs :
  forall (turns : list Turn) (l : Locals) (tk : Tick) (sh : Shared)
         (l' : Locals) (sh' : Shared) (e : option pcm),
    run turns initial_locals = Some l ->
    audio_iteration tk l sh = Next l' sh' e ->
    (in_speech l = false -> in_speech l' = true ->
     (0 < is_speech tk)%Z
     /\ sm sh' = dispatch (sm sh) SpeechStart "VAD start_trigger"
     /\ exists before t1 t2,
         turns = before ++ [t1; t2] /\ voiced t1 /\ voiced t2)
    /\ (in_speech l = true -> in_speech l' = false ->
        gate_closed l sh = false ->
        is_speech tk = 0%Z
        /\ sm sh' = dispatch (sm sh) SpeechEndQueued "VAD stop_trigger"
        /\ exists before recent,
            turns = before ++ recent
            /\ List.length recent = 19 /\ Forall silent recent).
Proof.
  intros turns l tk sh l' sh' e Hrun Hstep.
  destruct (runs_invariant turns l Hrun) as (before & recent & Hsplit & Hinv).
  destruct (reachable_bounds turns l Hrun) as (Hv & Hu & _ & _).
  change start_trigger with 3%Z in Hv. change stop_trigger with 20%Z in Hu.
  split.
  - intros Hin Hout. rewrite Hin in Hinv. destruct Hinv as [Hn Hall].
    destruct (start_turn tk l l' sh sh' e Hstep Hin Hout) as (H3 & Hvo & Hsm & _).
    split; [exact Hvo|]. split; [exact Hsm|].
    destruct recent as [| t1 [| t2 [| t3 recent]]]; simpl in Hn; try lia.
    exists before, t1, t2. split; [exact Hsplit|].
    inversion Hall as [| ? ? H1 Hall']; subst.
    inversion Hall' as [| ? ? H2 _]; subst. auto.
  - intros Hin Hout Hgate. rewrite Hin in Hinv. destruct Hinv as [[Hn _] Hall].
    destruct (stop_turn tk l l' sh sh' e Hstep Hin Hout Hgate)
      as (H20 & Hsi & Hsm & _).
    split; [exact Hsi|]. split; [exact Hsm|].
    exists before, recent. split; [exact Hsplit|]. split; [lia | exact Hall].
Qed.

(** The start of speech on three voiced frames. *)
Lemma triggers_need_full_runs_witness :
  exists before t1 t2,
    repeat (voiced_tick, listening) 2 = before ++ [t1; t2]
    /\ voiced t1 /\ voiced t2.
Proof.
  destruct (audio_iteration voiced_tick
              {| in_speech := false; voiced_run := 2; unvoiced_run := 0;
                 utterance := [];
                 preroll := frame voiced_tick ++ frame voiced_tick;
                 ignore_frames := 0; last_was_speaking := false |} listening)
    as [| l' sh' e] eqn:E; [vm_compute in E; discriminate E|].
  destruct (triggers_need_full_runs
              (repeat (voiced_tick, listening) 2) _ voiced_tick listening l' sh' e
              eq_refl E) as [Hstart _].
  apply Hstart; [reflexivity|].
  vm_compute in E. inversion E. reflexivity.
Defined.

(** X18: While the VAD reports silence nothing happens: the loop does not
    stop, no speech starts, nothing is dispatched to the machine and
    nothing is enqueued, whatever the other threads do to the machine. *)
Theorem silence_never_starts_speech :
  forall turns : list Turn,
    Forall silent turns ->
    run_dispatches turns initial_locals = []
    /\ exists l,
        run turns initial_locals = Some l
        /\ in_speech l = false /\ utterance l = []
        /\ forall tk sh, is_speech tk = 0%Z ->
            exists l' sh',
              audio_iteration tk l sh = Next l' sh' None /\ sm sh' = sm sh.
Proof.
  intros turns Hs.
  assert (H : forall l0, in_speech l0 = false -> utterance l0 = [] ->
            run_dispatches turns l0 = []
            /\ exists l, run turns l0 = Some l
                         /\ in_speech l = false /\ utterance l = []).
  { induction Hs as [| [tk sh] turns Htk _ IH]; intros l0 Hin Hutt.
    - split; [reflexivity|]. exists l0. auto.
    - unfold silent in Htk. simpl in Htk.
      destruct (silent_turn tk l0 sh Hin Hutt Htk)
        as (l1 & sh1 & Hstep & Hin1 & Hutt1 & _ & Hd).
      simpl. rewrite Hstep, Hd. apply (IH l1 Hin1 Hutt1). }
  destruct (H initial_locals eq_refl eq_refl) as (Hd & l & Hrun & Hin & Hutt).
  split; [exact Hd|]. exists l. repeat (split; [assumption|]).
  intros tk sh Htk.
  destruct (silent_turn tk l sh Hin Hutt Htk) as (l1 & sh1 & Hstep & _ & _ & Hsm & _).
  exists l1, sh1. auto.
Qed.

(** Five seconds of silence. *)
Lemma silence_never_starts_speech_witness :
  run_dispatches (repeat (silent_tick, listening) 250) initial_locals = [].
Proof.
  apply (silence_never_starts_speech (repeat (silent_tick, listening) 250)).
  apply Forall_forall. intros t Ht. apply repeat_spec in Ht. subst t.
  reflexivity.
Defined.

Lemma update_preroll_full (pre frm : pcm) :
  List.length (update_preroll pre frm)
  = Nat.min max_preroll_samples (List.length pre + List.length frm).
Proof.
  unfold update_preroll. rewrite length_app.
  destruct (max_preroll_samples <? List.length pre + List.length frm) eqn:E.
  - apply Nat.ltb_lt in E. rewrite length_skipn, length_app. lia.
  - apply Nat.ltb_ge in E. rewrite length_app. lia.
Qed.

Lemma turn_filled (tk : Tick) (l l' : Locals) (sh sh' : Shared) (e : option pcm) :
  bounded l -> filled l -> full_frame tk ->
  audio_iteration tk l sh = Next l' sh' e -> filled l'.
Proof.
  intros (Hv & Hu & _ & _) Hf Hfull H.
  pose proof (update_preroll_full (preroll l) (frame tk)) as Hpre.
  unfold full_frame in Hfull. change (Z.to_nat frame_samples) with 320 in Hfull.
  rewrite Hfull in Hpre. change max_preroll_samples with 4800 in Hpre.
  unfold filled in *.
  loop_cases H;
    cbn [in_speech voiced_run unvoiced_run utterance preroll];
    to_props;
    repeat match goal with
           | E1 : in_speech l = _ |- _ => rewrite E1 in Hf
           end;
    try rewrite length_app; try rewrite Hfull;
    try lia.
Qed.

Lemma reachable_filled (turns : list Turn) (l : Locals) :
  Forall (fun t => full_frame (fst t)) turns ->
  run turns initial_locals = Some l -> filled l.
Proof.
  revert l. induction turns as [| t turns IH] using rev_ind; intros l Hfull H.
  - inversion H; subst. unfold filled. simpl. lia.
  - apply Forall_app in Hfull as [Hturns Ht].
    inversion Ht as [| ? ? Hft _]; subst.
    rewrite run_snoc in H.
    destruct (run turns initial_locals) as [l1 |] eqn:Hrun; [| discriminate H].
    destruct (audio_iteration (fst t) l1 (snd t)) as [| l2 sh2 e] eqn:E;
      [discriminate H|].
    inversion H; subst.
    apply (turn_filled (fst t) l1 l (snd t) sh2 e); auto.
    apply (reachable_bounds turns l1 Hrun).
Qed.

(** X19: With full frames, a speech that ends by the stop trigger is always
    enqueued: what has been collected by then is at least 23 frames, 460
    ms, so the test for 200 ms never drops it. *)
Theorem ended_speech_is_always_enqueued :
  forall (turns : list Turn) (l : Locals) (tk : Tick) (sh : Shared)
         (l' : Locals) (sh' : Shared) (e : option pcm),
    Forall (fun t => full_frame (fst t)) turns -> full_frame tk ->
    run turns initial_locals = Some l ->
    audio_iteration tk l sh = Next l' sh' e ->
    in_speech l = true -> in_speech l' = false -> gate_closed l sh = false ->
    exists u,
      e = Some u /\ audio_q sh' = [u]
      /\ u = utterance l ++ frame tk
      /\ (460 <= duration_ms u)%Z.
Proof.
  intros turns l tk sh l' sh' e Hfull Htk Hrun Hstep Hin Hout Hgate.
  pose proof (reachable_filled turns l Hfull Hrun) as Hf.
  unfold filled in Hf. rewrite Hin in Hf. destruct Hf as [Hlen _].
  destruct (stop_turn tk l l' sh sh' e Hstep Hin Hout Hgate)
    as (H20 & _ & _ & _ & Henq).
  unfold full_frame in Htk. change (Z.to_nat frame_samples) with 320 in Htk.
  assert (Hu : (7360 <= Z.of_nat (List.length (utterance l ++ frame tk)))%Z)
    by (rewrite length_app, Htk; lia).
  destruct Henq as [He Hq]; [unfold min_utterance_samples; lia|].
  exists (utterance l ++ frame tk). repeat (split; [assumption || reflexivity|]).
  unfold duration_ms, sr. apply Z.div_le_lower_bound; lia.
Qed.

(** The shortest speech: three voiced frames and twenty silent ones. *)
Lemma ended_speech_is_always_enqueued_witness :
  exists u,
    enqueued_after (long_speech 3) silent_tick listening = Some u
    /\ (460 <= duration_ms u)%Z.
Proof.
  assert (Hc : option_map duration_ms
                 (enqueued_after (long_speech 3) silent_tick listening)
               = Some 460%Z) by (vm_compute; reflexivity).
  unfold enqueued_after in *.
  destruct (run (long_speech 3) initial_locals) as [l |] eqn:Hrun;
    [| discriminate Hc].
  destruct (audio_iteration silent_tick l listening) as [| l' sh' e] eqn:Hstep;
    [discriminate Hc|].
  assert (Hfull : Forall (fun t : Turn => full_frame (fst t)) (long_speech 3)).
  { unfold long_speech. apply Forall_app. split;
      apply Forall_forall; intros t Ht; apply repeat_spec in Ht; subst t;
      reflexivity. }
  assert (Hl : in_speech l = true /\ gate_closed l listening = false).
  { assert (Hb : option_map
                   (fun l0 => (in_speech l0, gate_closed l0 listening))
                   (run (long_speech 3) initial_locals) = Some (true, false))
      by (vm_compute; reflexivity).
    rewrite Hrun in Hb. simpl in Hb. inversion Hb as [[H1 H2]].
    rewrite H1, H2. split; reflexivity. }
  destruct Hl as [Hin Hgate].
  assert (Hout : in_speech l' = false).
  { assert (Hb : match run (long_speech 3) initial_locals with
                 | Some l0 =>
                     match audio_iteration silent_tick l0 listening with
                     | Next l1 _ _ => in_speech l1
                     | Die => true
                     end
                 | None => true
                 end = false) by (vm_compute; reflexivity).
    rewrite Hrun, Hstep in Hb. exact Hb. }
  destruct (ended_speech_is_always_enqueued
              (long_speech 3) l silent_tick listening l' sh' e
              Hfull eq_refl Hrun Hstep Hin Hout Hgate)
    as (u & He & _ & _ & Hd).
  exists u. split; [exact He | exact Hd].
Defined.

Lemma suffix_of_update (pre frm : pcm) :
  suffix_of (update_preroll pre frm) (pre ++ frm).
Proof.
  unfold update_preroll, suffix_of.
  destruct (max_preroll_samples <? List.length (pre ++ frm)).
  - exists (firstn (List.length (pre ++ frm) - max_preroll_samples) (pre ++ frm)).
    symmetry. apply firstn_skipn.
  - exists []. reflexivity.
Qed.

Lemma suffix_of_trans (a b c : pcm) :
  suffix_of a b -> suffix_of b c -> suffix_of a c.
Proof.
  intros [o1 ->] [o2 ->]. exists (o2 ++ o1). apply app_assoc.
Qed.

Lemma suffix_of_snoc (a b frm : pcm) :
  suffix_of a b -> suffix_of (a ++ frm) (b ++ frm).
Proof. intros [o ->]. exists o. symmetry. apply app_assoc. Qed.

Lemma turn_suffix (tk : Tick) (l l' : Locals) (sh sh' : Shared) (e : option pcm)
      (heard : pcm) :
  suffix_of (preroll l) heard ->
  (in_speech l = true -> suffix_of (utterance l) heard) ->
  audio_iteration tk l sh = Next l' sh' e ->
  suffix_of (preroll l') (heard ++ frame tk)
  /\ (in_speech l' = true -> suffix_of (utterance l') (heard ++ frame tk))
  /\ (forall u, e = Some u -> suffix_of u (heard ++ frame tk)).
Proof.
  intros Hp Hu H.
  assert (Hp1 : suffix_of (update_preroll (preroll l) (frame tk))
                          (heard ++ frame tk)).
  { apply (suffix_of_trans _ (preroll l ++ frame tk)).
    - apply suffix_of_update.
    - apply suffix_of_snoc. exact Hp. }
  assert (Hnil : suffix_of [] (heard ++ frame tk))
    by (exists (heard ++ frame tk); symmetry; apply app_nil_r).
  loop_cases H; simpl; to_props;
    (split; [assumption|]); split;
    try (intros Hx; discriminate Hx);
    try (intros u Hx; discriminate Hx);
    try (intros _; assumption);
    try (intros _; apply suffix_of_snoc; apply Hu; assumption);
    try (intros u Hx; inversion Hx; subst;
         apply suffix_of_snoc; apply Hu; assumption).
Qed.

(** X20: The audio that is kept is a stretch of the audio that was read, with
    no gap and nothing out of order: at every moment the pre-roll is the
    end of the frames read so far, so is the utterance while in speech,
    and an utterance handed to the queue is the end of the frames read up
    to that turn. *)
Theorem kept_audio_is_the_latest_audio :
  forall (turns : list Turn) (l : Locals),
    run turns initial_locals = Some l ->
    suffix_of (preroll l) (frames_of turns)
    /\ (in_speech l = true -> suffix_of (utterance l) (frames_of turns))
    /\ (forall tk sh l' sh' u,
           audio_iteration tk l sh = Next l' sh' (Some u) ->
           suffix_of u (frames_of (turns ++ [(tk, sh)]))).
Proof.
  intros turns.
  assert (H : forall l, run turns initial_locals = Some l ->
            suffix_of (preroll l) (frames_of turns)
            /\ (in_speech l = true -> suffix_of (utterance l) (frames_of turns))).
  { induction turns as [| t turns IH] using rev_ind; intros l H.
    - inversion H; subst. split.
      + exists []. reflexivity.
      + intros Hin. discriminate Hin.
    - rewrite run_snoc in H.
      destruct (run turns initial_locals) as [l1 |] eqn:Hrun; [| discriminate H].
      destruct (audio_iteration (fst t) l1 (snd t)) as [| l2 sh2 e] eqn:E;
        [discriminate H|].
      inversion H; subst.
      destruct (IH l1 eq_refl) as [Hp Hu].
      rewrite frames_of_snoc.
      destruct (turn_suffix (fst t) l1 l (snd t) sh2 e (frames_of turns) Hp Hu E)
        as (H1 & H2 & _).
      split; assumption. }
  intros l Hrun. destruct (H l Hrun) as [Hp Hu].
  split; [exact Hp|]. split; [exact Hu|].
  intros tk sh l' sh' u Hstep. rewrite frames_of_snoc. simpl fst.
  destruct (turn_suffix tk l l' sh sh' (Some u) (frames_of turns) Hp Hu Hstep)
    as (_ & _ & H3).
  apply H3. reflexivity.
Qed.

(** The pre-roll after twenty frames. *)
Lemma kept_audio_is_the_latest_audio_witness :
  exists l,
    run (repeat (silent_tick, listening) 20) initial_locals = Some l
    /\ suffix_of (preroll l) (frames_of (repeat (silent_tick, listening) 20)).
Proof.
  destruct (run (repeat (silent_tick, listening) 20) initial_locals)
    as [l |] eqn:Hrun; [| vm_compute in Hrun; discriminate Hrun].
  exists l. split; [reflexivity|].
  destruct (kept_audio_is_the_latest_audio
              (repeat (silent_tick, listening) 20) l Hrun) as [H _].
  exact H.
Defined.

End CaptureMoreProperties.

(** ** The language model *)

Section LlamaProperties.
Import CLocale Text Brain Llama.

(** X21: The prompt is the system prompt, then "User: ", the command, a
    line break and "Edna:". A line break is put after the system prompt
    exactly when the system prompt is not empty and does not end in one:
    an empty system prompt gives a prompt that begins with "User: ", one
    that ends in a line break is followed by "User: " at once. Two
    commands give the same prompt only if they are the same command. *)
Theorem build_prompt_frames_the_command :
  forall (p : Params) (u : text),
    (system_prompt p = [] ->
     build_prompt p u = lit "User: " ++ u ++ newline :: lit "Edna:")
    /\ (forall front,
           system_prompt p = front ++ [newline] ->
           build_prompt p u
           = system_prompt p ++ lit "User: " ++ u ++ newline :: lit "Edna:")
    /\ (system_prompt p <> [] ->
        (forall front, system_prompt p <> front ++ [newline]) ->
        build_prompt p u
        = system_prompt p ++ newline :: lit "User: " ++ u
            ++ newline :: lit "Edna:")
    /\ (forall u', build_prompt p u = build_prompt p u' -> u = u').
Proof.
  intros p u. unfold build_prompt. split; [| split; [| split]].
  - intros ->. reflexivity.
  - intros front Hs. rewrite Hs.
    assert (He : empty (front ++ [newline]) = false)
      by (destruct front; reflexivity).
    rewrite He, last_last, Ascii.eqb_refl. reflexivity.
  - intros Hne Hend. destruct (system_prompt p) as [| c s] eqn:Es;
      [contradiction|].
    cbn [empty negb andb].
    destruct (Ascii.eqb (last (c :: s) " "%char) newline) eqn:El.
    + exfalso. apply Ascii.eqb_eq in El.
      apply (Hend (removelast (c :: s))). rewrite <- El.
      apply app_removelast_last. discriminate.
    + cbn [negb]. rewrite <- app_assoc. reflexivity.
  - intros u' H.
    apply app_inv_head in H. apply app_inv_head in H.
    apply app_inv_tail in H. exact H.
Qed.

Lemma max_prompt_bounds (p : Params) :
  (16 <= max_prompt p <= context_size p - 32)%Z.
Proof.
  unfold max_prompt, context_size.
  generalize (wrap32 (max_new_tokens p + 8)). intros w.
  destruct (0 <? max_prompt_tokens p)%Z;
    match goal with
    | |- context [if (?m <? 16)%Z then _ else _] =>
        destruct (m <? 16)%Z eqn:E;
        [apply Z.ltb_lt in E | apply Z.ltb_ge in E]
    end; lia.
Qed.

Lemma wrap32_int32 (z : Z) : int32 (wrap32 z).
Proof.
  unfold int32, wrap32, int32_min, int32_max.
  pose proof (Z.mod_pos_bound (z - -2147483648) 4294967296 eq_refl). lia.
Qed.

Lemma wrap32_fixes_int32 (z : Z) : int32 z -> wrap32 z = z.
Proof.
  unfold int32, wrap32, int32_min, int32_max. intros H.
  rewrite Z.mod_small; lia.
Qed.

(** X22: The prompt that goes into the context, for parameters that are
    [int]s. The allowance is at least 16 tokens and at most the context
    size less 32, and while [max_new_tokens + 8] is an [int] it is the
    smaller of [max_prompt_tokens] (when positive) and the context size
    less the safety margin, but not less than 16; when the sum leaves the
    range and wraps, the safety margin is 32. A prompt within the
    allowance is left as it is. A longer one is cut down to its last
    allowed tokens; the beginning-of-sequence token is put in front of
    that tail exactly when the tail does not start with it. In both
    cases the result is shorter than the context, so the prompt loop
    never runs out of positions. *)
Theorem clamp_prompt_fits_the_context :
  forall (p : Params) (bos : token) (toks : list token),
    well_sized p ->
    (16 <= max_prompt p <= context_size p - 32)%Z
    /\ int32 (max_prompt p)
    /\ ((max_new_tokens p <= int32_max - 8)%Z ->
        let room := (context_size p - Z.max 32 (max_new_tokens p + 8))%Z in
        max_prompt p
        = Z.max 16 (if (0 <? max_prompt_tokens p)%Z
                    then Z.min (max_prompt_tokens p) room else room))
    /\ ((int32_max - 8 < max_new_tokens p)%Z ->
        let room := (context_size p - 32)%Z in
        max_prompt p
        = Z.max 16 (if (0 <? max_prompt_tokens p)%Z
                    then Z.min (max_prompt_tokens p) room else room))
    /\ ((Z.of_nat (List.length toks) <= max_prompt p)%Z ->
        clamp_prompt p bos toks = toks)
    /\ ((max_prompt p < Z.of_nat (List.length toks))%Z ->
        exists dropped tail,
          toks = dropped ++ tail
          /\ Z.of_nat (List.length tail) = max_prompt p
          /\ (hd_error tail = Some bos -> clamp_prompt p bos toks = tail)
          /\ (hd_error tail <> Some bos ->
              clamp_prompt p bos toks = bos :: tail)
          /\ hd_error (clamp_prompt p bos toks) = Some bos)
    /\ (Z.of_nat (List.length (clamp_prompt p bos toks)) < context_size p)%Z.
Proof.
  intros p bos toks (Hctx & Hnew & Hpt). pose proof (max_prompt_bounds p) as Hb.
  split; [exact Hb|].
  split.
  { unfold int32, int32_min, int32_max in *. unfold context_size in Hb. lia. }
  split.
  { intros Hsum. cbn zeta. unfold max_prompt.
    rewrite wrap32_fixes_int32
      by (unfold int32, int32_min, int32_max in *; lia).
    destruct (0 <? max_prompt_tokens p)%Z;
      match goal with
      | |- context [if (?m <? 16)%Z then _ else _] =>
          destruct (m <? 16)%Z eqn:E;
          [apply Z.ltb_lt in E | apply Z.ltb_ge in E]
      end; lia. }
  split.
  { intros Hsum. cbn zeta. unfold max_prompt.
    assert (Hw : (wrap32 (max_new_tokens p + 8) < 0)%Z).
    { unfold wrap32, int32, int32_min, int32_max in *.
      replace (max_new_tokens p + 8 - -2147483648)%Z
        with (max_new_tokens p + 8 - 2147483648 + 1 * 4294967296)%Z by lia.
      rewrite Z.mod_add by lia. rewrite Z.mod_small; lia. }
    replace (Z.max 32 (wrap32 (max_new_tokens p + 8))) with 32%Z by lia.
    destruct (0 <? max_prompt_tokens p)%Z;
      match goal with
      | |- context [if (?m <? 16)%Z then _ else _] =>
          destruct (m <? 16)%Z eqn:E;
          [apply Z.ltb_lt in E | apply Z.ltb_ge in E]
      end; lia. }
  assert (Hlong : (max_prompt p < Z.of_nat (List.length toks))%Z ->
            exists dropped tail,
              toks = dropped ++ tail
              /\ Z.of_nat (List.length tail) = max_prompt p
              /\ (hd_error tail = Some bos -> clamp_prompt p bos toks = tail)
              /\ (hd_error tail <> Some bos ->
                  clamp_prompt p bos toks = bos :: tail)
              /\ hd_error (clamp_prompt p bos toks) = Some bos).
  { intros Hl. unfold clamp_prompt.
    replace (max_prompt p <? Z.of_nat (List.length toks))%Z with true
      by (symmetry; apply Z.ltb_lt; exact Hl).
    set (k := List.length toks - Z.to_nat (max_prompt p)).
    exists (firstn k toks), (skipn k toks).
    split; [symmetry; apply firstn_skipn|].
    assert (Hlen : Z.of_nat (List.length (skipn k toks)) = max_prompt p)
      by (rewrite length_skipn; unfold k; lia).
    split; [exact Hlen|].
    destruct (skipn k toks) as [| front rest] eqn:Et.
    - simpl in Hlen. lia.
    - destruct (front =? bos)%Z eqn:Ef.
      + apply Z.eqb_eq in Ef. subst front.
        split; [reflexivity|]. split; [| reflexivity].
        intros Hn. exfalso. apply Hn. reflexivity.
      + apply Z.eqb_neq in Ef.
        split; [| split; reflexivity].
        intros Hh. inversion Hh. contradiction. }
  split; [| split; [exact Hlong|]].
  - intros Hs. unfold clamp_prompt.
    replace (max_prompt p <? Z.of_nat (List.length toks))%Z with false
      by (symmetry; apply Z.ltb_ge; exact Hs).
    reflexivity.
  - destruct (Z.lt_ge_cases (max_prompt p) (Z.of_nat (List.length toks)))
      as [Hl | Hs].
    + destruct (Hlong Hl) as (d & tail & _ & Hlen & Hyes & Hno & _).
      destruct tail as [| front rest]; [simpl in Hlen; lia|].
      destruct (Z.eq_dec front bos) as [-> | Hne].
      * rewrite (Hyes eq_refl). lia.
      * rewrite Hno; [simpl List.length in *; lia|].
        intros Hh. inversion Hh. contradiction.
    + unfold clamp_prompt.
      replace (max_prompt p <? Z.of_nat (List.length toks))%Z with false
        by (symmetry; apply Z.ltb_ge; lia).
      lia.
Qed.

(** A context of 64 positions and an allowance of 16 tokens: a prompt of
    twenty tokens keeps its last sixteen, behind the beginning-of-sequence
    token; the prompt that starts with it at the cut keeps sixteen. With
    the defaults and [max_new_tokens] at the largest [int] the sum wraps
    and the allowance is 384. *)
Lemma clamp_prompt_fits_the_context_witness :
  let p := {| n_ctx := 64; n_batch := 8; max_new_tokens := 8;
              max_prompt_tokens := 16; system_prompt := [];
              stop_on_newline := true |} in
  max_prompt p = 16%Z
  /\ max_prompt {| n_ctx := 512; n_batch := 64;
                   max_new_tokens := 2147483647; max_prompt_tokens := 384;
                   system_prompt := []; stop_on_newline := true |} = 384%Z
  /\ clamp_prompt p 1%Z (map Z.of_nat (seq 2 20))
     = 1%Z :: map Z.of_nat (seq 6 16)
  /\ clamp_prompt p 6%Z (map Z.of_nat (seq 2 20)) = map Z.of_nat (seq 6 16)
  /\ (Z.of_nat (List.length (clamp_prompt p 1%Z (map Z.of_nat (seq 2 20))))
      < context_size p)%Z.
Proof.
  intros p. split; [reflexivity|]. split; [reflexivity|].
  split; [reflexivity|]. split; [reflexivity|].
  apply (clamp_prompt_fits_the_context p 1%Z (map Z.of_nat (seq 2 20))).
  unfold well_sized, int32, int32_min, int32_max, p. cbn. lia.
Defined.

Lemma find_char_at_none (s : text) (c : ascii) (i : nat) :
  find_char_at i s c = None -> ~ In c s.
Proof.
  revert i. induction s as [| d s IH]; intros i H; [intros []|].
  simpl in H. destruct (Ascii.eqb d c) eqn:E; [discriminate H|].
  intros [Hd | Hin].
  - subst d. rewrite Ascii.eqb_refl in E. discriminate E.
  - apply (IH (S i) H Hin).
Qed.

Lemma find_char_at_some (s : text) (c : ascii) (i n : nat) :
  find_char_at i s c = Some n -> i <= n /\ ~ In c (firstn (n - i) s).
Proof.
  revert i. induction s as [| d s IH]; intros i H; [discriminate H|].
  simpl in H. destruct (Ascii.eqb d c) eqn:E.
  - inversion H; subst. rewrite Nat.sub_diag. split; [lia | intros []].
  - destruct (IH (S i) H) as [Hle Hno]. split; [lia|].
    replace (n - i) with (S (n - S i)) by lia. simpl.
    intros [Hd | Hin]; [| exact (Hno Hin)].
    subst d. rewrite Ascii.eqb_refl in E. discriminate E.
Qed.

Lemma literal_without (c : ascii) (s : text) :
  existsb (Ascii.eqb c) s = false -> ~ In c s.
Proof.
  intros H Hin. assert (Ht : existsb (Ascii.eqb c) s = true).
  { apply existsb_exists. exists c. split; [exact Hin | apply Ascii.eqb_refl]. }
  rewrite H in Ht. discriminate Ht.
Qed.

Lemma generate_no_newline (E : Engine) (p : Params) (fuel : nat)
      (hist : list token) (pos : Z) (out : text) :
  stop_on_newline p = true ->
  ~ In newline out -> ~ In newline (generate E p fuel hist pos out).
Proof.
  intros Hstop. revert hist pos out.
  induction fuel as [| fuel IH]; intros hist pos out Hout; [exact Hout|].
  cbn [generate]. rewrite Hstop.
  destruct (context_size p - 1 <=? pos)%Z; [exact Hout|].
  destruct (negb (logits_ready E hist)); [exact Hout|].
  destruct (sample E hist =? vocab_eos E)%Z; [exact Hout|].
  destruct (find_char (out ++ token_to_piece E (sample E hist)) newline)
    as [nl |] eqn:Ef.
  - destruct (find_char_at_some _ _ 0 nl Ef) as [_ Hno].
    rewrite Nat.sub_0_r in Hno. exact Hno.
  - pose proof (find_char_at_none _ _ 0 Ef) as Hno.
    destruct (negb (decode E hist (sample E hist) =? 0)%Z).
    + intros Hin. apply in_app_or in Hin as [Hin | Hin]; [exact (Hno Hin)|].
      revert Hin. apply literal_without. reflexivity.
    + apply IH. exact Hno.
Qed.

Lemma trim_ws_In (c : ascii) (s : text) : In c (trim_ws s) -> In c s.
Proof.
  intros H.
  destruct (lstrip_suffix s) as (w1 & H1 & _).
  destruct (rstrip_prefix (lstrip s)) as (w2 & H2 & _).
  rewrite trim_ws_strip in H. rewrite H1, H2.
  apply in_or_app. right. apply in_or_app. left. exact H.
Qed.

(** X23: What [reply] returns is never empty, is trimmed, and, when
    [stop_on_newline] is set, holds no line break: whatever the engine
    does, and also when it fails. *)
Theorem reply_is_never_empty_and_one_line :
  forall (p : Params) (E : Engine) (u : text),
    reply p E u <> []
    /\ trim_ws (reply p E u) = reply p E u
    /\ (stop_on_newline p = true -> ~ In newline (reply p E u)).
Proof.
  intros p E u. unfold reply.
  assert (Hconst : forall s : text,
            s <> [] -> trim_ws s = s -> existsb (Ascii.eqb newline) s = false ->
            s <> [] /\ trim_ws s = s
            /\ (stop_on_newline p = true -> ~ In newline s)).
  { intros s H1 H2 H3. split; [exact H1|]. split; [exact H2|].
    intros _. apply literal_without. exact H3. }
  destruct (negb (model_loaded E));
    [apply Hconst; [discriminate | reflexivity | reflexivity]|].
  destruct (negb (context_created E));
    [apply Hconst; [discriminate | reflexivity | reflexivity]|].
  destruct (negb (sampler_created E));
    [apply Hconst; [discriminate | reflexivity | reflexivity]|].
  destruct (tokenize_prompt E (build_prompt p u)) as [| t0 toks];
    [apply Hconst; [discriminate | reflexivity | reflexivity]|].
  destruct (decode_prompt E (context_size p)
              (clamp_prompt p (vocab_bos E) (t0 :: toks)) [] 0)
    as [[hist pos] |];
    [| apply Hconst; [discriminate | reflexivity | reflexivity]].
  destruct (trim_ws (generate E p (Z.to_nat (max_new_tokens p)) hist pos []))
    as [| c0 out] eqn:Eo; cbn [empty];
    [apply Hconst; [discriminate | reflexivity | reflexivity]|].
  split; [discriminate|]. split.
  - rewrite <- Eo. apply trim_ws_idem.
  - intros Hstop Hin. rewrite <- Eo in Hin. apply trim_ws_In in Hin.
    revert Hin. apply generate_no_newline; [exact Hstop | intros []].
Qed.

Lemma reply_no_newline_helper (p : Params) (E : Engine) (u : text) :
  stop_on_newline p = true -> ~ In newline (reply p E u).
Proof.
  intros Hstop. unfold reply.
  repeat match goal with
         | |- ~ In newline (if ?b then _ else _) => destruct b
         | |- ~ In newline (lit _) => apply literal_without; reflexivity
         end.
  destruct (decode_prompt _ _ _ _ _) as [[hist pos] |];
    [| apply literal_without; reflexivity].
  destruct (empty _); [apply literal_without; reflexivity|].
  intros Hin. apply trim_ws_In in Hin.
  revert Hin. apply generate_no_newline; [exact Hstop | intros []].
Qed.

Lemma starts_with_head (m s : text) (c : ascii) (m' : text) :
  m = c :: m' -> starts_with m s = true -> exists s', s = c :: s'.
Proof.
  intros -> H. destruct s as [| d s']; [discriminate H|]. simpl in H.
  apply andb_prop in H as [H _]. apply Ascii.eqb_eq in H. subst d. eauto.
Qed.

(** X24: With [stop_on_newline] set, the five stop markers of the brain thread
    that begin with a line break occur in no reply: only "<|endoftext|>"
    and "<|im_end|>" can cut a reply short. *)
Theorem newline_markers_never_match_a_reply :
  forall (p : Params) (E : Engine) (u m : text),
    stop_on_newline p = true ->
    In m stop_markers -> hd_error m = Some newline ->
    find (reply p E u) m = None.
Proof.
  intros p E u m Hstop _ Hm.
  pose proof (reply_no_newline_helper p E u Hstop) as Hno.
  apply absent_find. intros q.
  destruct (starts_with m (skipn q (reply p E u))) eqn:Es; [| reflexivity].
  exfalso. destruct m as [| c m']; [discriminate Hm|].
  simpl in Hm. inversion Hm; subst c.
  destruct (starts_with_head _ _ newline m' eq_refl Es) as [s' Hs'].
  apply Hno. rewrite <- (firstn_skipn q (reply p E u)), Hs'.
  apply in_or_app. right. left. reflexivity.
Qed.

(** A model that goes on with the next turn of the dialogue: the reply
    stops at the line break. *)
Lemma newline_markers_never_match_a_reply_witness :
  reply main_params (scripted_engine (lit "Noon." ++ newline :: lit "User: and?"))
        (lit "what time is it") = lit "Noon."
  /\ find (reply main_params
                 (scripted_engine (lit "Noon." ++ newline :: lit "User: and?"))
                 (lit "what time is it"))
          (newline :: lit "User:") = None.
Proof.
  split; [vm_compute; reflexivity|].
  apply newline_markers_never_match_a_reply.
  - reflexivity.
  - simpl. tauto.
  - reflexivity.
Defined.

Lemma backend_step_invariant (b : Backend) (op : BackendOp) (live : nat) :
  refcnt b = Z.of_nat live ->
  inits b = (if once_done b then 1 else 0) ->
  (once_done b = false -> live = 0) ->
  (once_done b = true -> refcnt b = 0%Z -> 1 <= frees b) ->
  balanced live [op] = true ->
  let b' := backend_step b op in
  let live' := match op with Acquire => S live | Release => pred live end in
  refcnt b' = Z.of_nat live'
  /\ inits b' = 1
  /\ once_done b' = true
  /\ (refcnt b' = 0%Z -> 1 <= frees b').
Proof.
  intros Hr Hi Ho Hf Hb. destruct op; cbn -[Z.of_nat Z.add Z.sub Z.eqb] in *.
  - split; [lia|]. split.
    + destruct (once_done b); [exact Hi | rewrite Hi; reflexivity].
    + split; [reflexivity | intros H0; lia].
  - destruct live as [| live]; [discriminate Hb|].
    assert (Eo : once_done b = true).
    { destruct (once_done b); [reflexivity | specialize (Ho eq_refl); discriminate Ho]. }
    rewrite Eo in Hi. split; [lia|]. split; [exact Hi|]. split; [exact Eo|].
    intros H0. rewrite H0. cbn. lia.
Qed.

Lemma backend_run_invariant (ops : list BackendOp) (b : Backend) (live : nat) :
  refcnt b = Z.of_nat live ->
  inits b = 1 -> once_done b = true ->
  (refcnt b = 0%Z -> 1 <= frees b) ->
  balanced live ops = true ->
  let b' := fold_left backend_step ops b in
  (0 <= refcnt b')%Z /\ inits b' = 1 /\ once_done b' = true
  /\ (refcnt b' = 0%Z -> 1 <= frees b').
Proof.
  revert b live. induction ops as [| op ops IH]; intros b live Hr Hi Ho Hf Hb.
  - cbn. split; [lia|]. split; [exact Hi|]. split; [exact Ho | exact Hf].
  - assert (Hone : balanced live [op] = true
                   /\ balanced (match op with
                                | Acquire => S live
                                | Release => pred live
                                end) ops = true).
    { destruct op; cbn in *; [auto|]. destruct live; [discriminate Hb | auto]. }
    destruct Hone as [H1 H2].
    assert (Hi' : inits b = (if once_done b then 1 else 0)) by (rewrite Ho; exact Hi).
    assert (Ho' : once_done b = false -> live = 0) by (rewrite Ho; discriminate).
    destruct (backend_step_invariant b op live Hr Hi' Ho' (fun _ => Hf) H1)
      as (Hr' & Hi1 & Ho1 & Hf1).
    exact (IH (backend_step b op) _ Hr' Hi1 Ho1 Hf1 H2).
Qed.

Lemma once_done_keeps_inits (ops : list BackendOp) (b : Backend) :
  once_done b = true -> inits (fold_left backend_step ops b) = inits b.
Proof.
  revert b. induction ops as [| op ops IH]; intros b Ho; [reflexivity|].
  cbn [fold_left]. rewrite IH.
  - destruct op; cbn; [rewrite Ho|]; reflexivity.
  - destruct op; cbn; [reflexivity | exact Ho].
Qed.

(** X25: a sequence of constructions and destructions of [LlamaBrain]
    objects that destroys only what was constructed initialises the
    backend exactly once, however often the count of live objects goes
    back to zero: the count is never negative, the backend has been freed
    whenever the count is zero, and no later construction initialises it
    again, so that an object constructed after the last one was destroyed
    works with a backend that was freed. *)
Theorem backend_initialised_once_even_after_free :
  forall ops : list BackendOp,
    balanced 0 ops = true -> ops <> [] ->
    let b := fold_left backend_step ops fresh_backend in
    (0 <= refcnt b)%Z
    /\ inits b = 1
    /\ (refcnt b = 0%Z -> 1 <= frees b)
    /\ (forall more : list BackendOp,
          inits (fold_left backend_step (ops ++ more) fresh_backend) = 1).
Proof.
  intros ops Hb Hne. destruct ops as [| op ops]; [contradiction|].
  destruct op; [| discriminate Hb].
  cbn [balanced] in Hb. cbn [fold_left backend_step].
  assert (H : let b' := fold_left backend_step ops (backend_acquire fresh_backend) in
              (0 <= refcnt b')%Z /\ inits b' = 1 /\ once_done b' = true
              /\ (refcnt b' = 0%Z -> 1 <= frees b')).
  { apply (backend_run_invariant ops (backend_acquire fresh_backend) 1);
      try reflexivity; [cbn; discriminate | exact Hb]. }
  cbn zeta in *. destruct H as (H1 & H2 & H3 & H4).
  split; [exact H1|]. split; [exact H2|]. split; [exact H4|].
  intros more. cbn [app fold_left backend_step]. rewrite fold_left_app.
  rewrite once_done_keeps_inits; assumption.
Qed.

(** Two assistants one after the other: the second works with a backend
    that was initialised once and freed once. *)
Lemma backend_initialised_once_even_after_free_witness :
  let b := fold_left backend_step [Acquire; Release] fresh_backend in
  (0 <= refcnt b)%Z
  /\ inits b = 1
  /\ (refcnt b = 0%Z -> 1 <= frees b)
  /\ (forall more : list BackendOp,
        inits (fold_left backend_step ([Acquire; Release] ++ more) fresh_backend) = 1).
Proof.
  apply (backend_initialised_once_even_after_free [Acquire; Release]).
  - reflexivity.
  - discriminate.
Defined.

End LlamaProperties.

(* ------------------------------------------------------------------ *)
(** ** The speech synthesizer *)
(* ------------------------------------------------------------------ *)

Section CoquiProperties.
Import CLocale Text Coqui.



Lemma find_char_at_split (s : text) (c : ascii) (i n : nat) :
  Llama.find_char_at i s c = Some n ->
  i <= n
  /\ s = firstn (n - i) s ++ c :: skipn (S (n - i)) s
  /\ ~ In c (firstn (n - i) s).
Proof.
  revert i. induction s as [| d s IH]; intros i H; [discriminate H|].
  cbn [Llama.find_char_at] in H. destruct (Ascii.eqb d c) eqn:E.
  - inversion H; subst. apply Ascii.eqb_eq in E. subst d.
    rewrite Nat.sub_diag. cbn. split; [lia|]. split; [reflexivity | tauto].
  - destruct (IH (S i) H) as (Hle & Hs & Hno). split; [lia|].
    replace (n - i) with (S (n - S i)) by lia.
    cbn [firstn skipn app]. split; [f_equal; exact Hs|].
    intros [Hd | Hin]; [| exact (Hno Hin)].
    subst d. rewrite Ascii.eqb_refl in E. discriminate E.
Qed.

Lemma trim_carriage_return (raw : text) :
  let line :=
    if negb (empty raw) && Ascii.eqb (last raw space) carriage_return
    then removelast raw else raw in
  raw = line ++ [carriage_return]
  \/ (line = raw /\ forall front, raw <> front ++ [carriage_return]).
Proof.
  cbn zeta. destruct raw as [| c r].
  - right. split; [reflexivity|]. intros front H.
    destruct front; discriminate H.
  - cbn [empty negb andb].
    destruct (Ascii.eqb (last (c :: r) space) carriage_return) eqn:E.
    + left. apply Ascii.eqb_eq in E. rewrite <- E.
      apply app_removelast_last. discriminate.
    + right. split; [reflexivity|]. intros front H.
      rewrite H, last_last, Ascii.eqb_refl in E. discriminate E.
Qed.

Lemma read_line_loop_sound (evs : list FdEvent) (buf line : text) :
  ~ In Brain.newline buf ->
  read_line_loop evs buf = Some line ->
  exists (k : nat) (raw dropped : text),
    buf ++ bytes (firstn (S k) evs) = raw ++ Brain.newline :: dropped
    /\ ~ In Brain.newline (buf ++ bytes (firstn k evs))
    /\ ~ In Brain.newline raw
    /\ (raw = line ++ [carriage_return]
        \/ (line = raw /\ forall front, raw <> front ++ [carriage_return])).
Proof.
  revert buf. induction evs as [| e rest IH]; intros buf Hbuf H;
    [discriminate H|].
  assert (Hskip : (exists k raw dropped,
                     buf ++ bytes (firstn (S k) rest)
                     = raw ++ Brain.newline :: dropped
                     /\ ~ In Brain.newline (buf ++ bytes (firstn k rest))
                     /\ ~ In Brain.newline raw
                     /\ (raw = line ++ [carriage_return]
                         \/ (line = raw
                             /\ forall front, raw <> front ++ [carriage_return])))
                  -> bytes [e] = [] ->
                  exists k raw dropped,
                    buf ++ bytes (firstn (S k) (e :: rest))
                    = raw ++ Brain.newline :: dropped
                    /\ ~ In Brain.newline (buf ++ bytes (firstn k (e :: rest)))
                    /\ ~ In Brain.newline raw
                    /\ (raw = line ++ [carriage_return]
                        \/ (line = raw
                            /\ forall front, raw <> front ++ [carriage_return]))).
  { intros (k & raw & dropped & H1 & H2 & H3 & H4) He.
    exists (S k), raw, dropped.
    assert (Hb : forall n, bytes (firstn (S n) (e :: rest))
                           = bytes (firstn n rest)).
    { intros n. change (firstn (S n) (e :: rest)) with ([e] ++ firstn n rest).
      unfold bytes in *. rewrite flat_map_app, He. reflexivity. }
    rewrite !Hb. auto. }
  destruct e as [[|] | | [|] | chunk]; cbn [read_line_loop] in H;
    try discriminate H.
  - apply Hskip; [apply IH; assumption | reflexivity].
  - apply Hskip; [apply IH; assumption | reflexivity].
  - destruct (empty chunk); [discriminate H|].
    assert (Hb : forall n, bytes (firstn (S n) (ReadGives chunk :: rest))
                           = chunk ++ bytes (firstn n rest)).
    { intros n. reflexivity. }
    destruct (Llama.find_char (buf ++ chunk) Brain.newline) as [pos |] eqn:Ef.
    + destruct (find_char_at_split _ _ _ _ Ef) as (_ & Hs & Hno).
      rewrite Nat.sub_0_r in Hs, Hno.
      exists 0, (firstn pos (buf ++ chunk)), (skipn (S pos) (buf ++ chunk)).
      rewrite Hb. cbn [firstn bytes flat_map]. rewrite !app_nil_r.
      split; [exact Hs|]. split; [exact Hbuf|]. split; [exact Hno|].
      inversion H; subst line. apply trim_carriage_return.
    + apply find_char_at_none in Ef.
      destruct (IH (buf ++ chunk) Ef H) as (k & raw & dropped & H1 & H2 & H3 & H4).
      exists (S k), raw, dropped. rewrite !Hb, !app_assoc. auto.
Qed.

Lemma read_line_loop_complete (evs : list FdEvent) (buf : text) :
  Forall (fun e => benign e = true) evs ->
  ~ In Brain.newline buf ->
  In Brain.newline (buf ++ bytes evs) ->
  read_line_loop evs buf <> None.
Proof.
  revert buf. induction evs as [| e rest IH]; intros buf Hall Hbuf Hin.
  - cbn in Hin. rewrite app_nil_r in Hin. contradiction.
  - inversion Hall as [| ? ? He Hrest]; subst.
    destruct e as [[|] | | [|] | chunk]; cbn [benign] in He;
      try discriminate He; cbn [read_line_loop].
    + apply IH; assumption.
    + apply IH; assumption.
    + destruct (empty chunk); [discriminate He|].
      destruct (Llama.find_char (buf ++ chunk) Brain.newline) eqn:Ef;
        [discriminate|].
      apply find_char_at_none in Ef. apply IH; [exact Hrest | exact Ef|].
      rewrite <- app_assoc. exact Hin.
Qed.

Lemma first_line_of_read_line_locked
      (t : Tts) (evs : list FdEvent) (line : text) :
  read_line_locked t evs = Some line ->
  read_line_loop evs [] = Some line /\ ~ In Brain.newline line.
Proof.
  unfold read_line_locked. intros H.
  destruct (from_child (worker_ t) <? 0)%Z; [discriminate H|].
  split; [exact H|].
  destruct (read_line_loop_sound evs [] line (fun x => x) H)
    as (k & raw & dropped & _ & _ & H3 & H4).
  destruct H4 as [H4 | [H4 _]].
  - intros Hin. apply H3. rewrite H4. apply in_or_app. left. exact Hin.
  - rewrite H4. exact H3.
Qed.

(** X27: the line that [read_line_locked] returns is what the worker wrote
    before its first line break, less one carriage return at its end. It
    holds no line break, the bytes that came in the same [read] after the
    line break are dropped, and the reads it takes are not counted: with
    interrupted calls and reads of any number between them the line is
    returned as soon as a line break has come. *)
Theorem read_line_locked_gives_first_line :
  forall (t : Tts) (evs : list FdEvent),
    (forall line : text,
        read_line_locked t evs = Some line ->
        ~ In Brain.newline line
        /\ exists (k : nat) (raw dropped : text),
            bytes (firstn (S k) evs) = raw ++ Brain.newline :: dropped
            /\ ~ In Brain.newline (bytes (firstn k evs))
            /\ ~ In Brain.newline raw
            /\ (raw = line ++ [carriage_return]
                \/ (line = raw
                    /\ forall front, raw <> front ++ [carriage_return])))
    /\ ((0 <= from_child (worker_ t))%Z ->
        Forall (fun e => benign e = true) evs ->
        In Brain.newline (bytes evs) ->
        read_line_locked t evs <> None).
Proof.
  intros t evs. unfold read_line_locked. split.
  - intros line H. destruct (from_child (worker_ t) <? 0)%Z; [discriminate H|].
    destruct (read_line_loop_sound evs [] line (fun x => x) H)
      as (k & raw & dropped & H1 & H2 & H3 & H4).
    cbn [app] in H1, H2. split.
    + destruct H4 as [H4 | [H4 _]].
      * intros Hin. apply H3. rewrite H4. apply in_or_app. left. exact Hin.
      * rewrite H4. exact H3.
    + exists k, raw, dropped. auto.
  - intros Hfd Hall Hin.
    destruct (from_child (worker_ t) <? 0)%Z eqn:E; [lia|].
    apply read_line_loop_complete; [exact Hall | intros [] | exact Hin].
Qed.

(** A path that comes in two reads, an interrupted call between them,
    and the beginning of a second line behind it. *)
Lemma read_line_locked_gives_first_line_witness :
  read_line_locked
    (set_worker (new_tts main_params)
                {| to_child := 4; from_child := 5; pid := 100; ready := true |})
    [ReadGives (lit "/tmp/edna"); ReadFails true;
     ReadGives (lit ".wav" ++ carriage_return :: Brain.newline :: lit "ERR")]
  = Some (lit "/tmp/edna.wav")
  /\ ~ In Brain.newline (lit "/tmp/edna.wav").
Proof.
  split; [reflexivity|].
  destruct (read_line_locked_gives_first_line
              (set_worker (new_tts main_params)
                          {| to_child := 4; from_child := 5; pid := 100;
                             ready := true |})
              [ReadGives (lit "/tmp/edna"); ReadFails true;
               ReadGives (lit ".wav" ++ carriage_return :: Brain.newline
                                     :: lit "ERR")]) as [H _].
  destruct (H (lit "/tmp/edna.wav") eq_refl) as [Hno _]. exact Hno.
Defined.

Lemma stop_worker_locked_spec (t t' : Tts) (e : list Effect) :
  stop_worker_locked t = (t', e) ->
  t' = set_worker t no_worker
  /\ spawned e = [] /\ stopped e = held t
  /\ Forall (fun x => reaches_out x = false) e.
Proof.
  unfold stop_worker_locked, held. intros H.
  destruct (pid (worker_ t) <=? 0)%Z eqn:E1; inversion H; subst; clear H.
  - apply Z.leb_le in E1.
    destruct (0 <? pid (worker_ t))%Z eqn:E2; [apply Z.ltb_lt in E2; lia|].
    repeat split; constructor.
  - apply Z.leb_gt in E1.
    destruct (0 <? pid (worker_ t))%Z eqn:E2; [| apply Z.ltb_ge in E2; lia].
    repeat split. constructor; [reflexivity | constructor].
Qed.

Lemma held_no_worker (t : Tts) : worker_ t = no_worker -> held t = [].
Proof. unfold held. intros H. rewrite H. reflexivity. Qed.

Lemma held_running (t : Tts) :
  (0 < pid (worker_ t))%Z -> held t = [pid (worker_ t)].
Proof.
  unfold held. intros H. apply Z.ltb_lt in H. rewrite H. reflexivity.
Qed.

Lemma settled_cases (t : Tts) :
  settled t ->
  (worker_ t = no_worker
   /\ ((0 <? pid (worker_ t))%Z = false /\ (pid (worker_ t) <=? 0)%Z = true))
  \/ ((0 < pid (worker_ t))%Z /\ ready (worker_ t) = true
      /\ (0 <? pid (worker_ t))%Z = true
      /\ (pid (worker_ t) <=? 0)%Z = false
      /\ (to_child (worker_ t) <? 0)%Z = false
      /\ (from_child (worker_ t) <? 0)%Z = false).
Proof.
  intros [H | (H1 & H2 & H3 & H4)].
  - left. rewrite H. cbn. auto.
  - right. split; [exact H1|]. split; [exact H2|].
    split; [apply Z.ltb_lt; exact H1|]. split; [apply Z.leb_gt; exact H1|].
    split; apply Z.ltb_ge; assumption.
Qed.

Lemma start_worker_locked_spec (t : Tts) (os : StartOs)
      (ok : bool) (t' : Tts) (e : list Effect) :
  consistent t ->
  start_worker_locked t os = (ok, t', e) ->
  consistent t' /\ p_ t' = p_ t
  /\ held t ++ spawned e = stopped e ++ held t'
  /\ (ok = false -> enabled_ t' = false)
  /\ (ok = true -> enabled_ t = true -> enabled_ t' = true).
Proof.
  intros [Hs He] H. unfold start_worker_locked in H.
  destruct (settled_cases t Hs) as [(Hw & E1 & E2) | (Hp & Hr & E1 & E2 & E3 & E4)].
  - rewrite E1 in H. cbn [andb] in H.
    rewrite (held_no_worker t Hw).
    assert (Hfail : forall err,
               consistent (set_enabled (set_err t err) false)
               /\ p_ (set_enabled (set_err t err) false) = p_ t
               /\ [] ++ spawned [] = stopped [] ++ held (set_enabled (set_err t err) false)
               /\ (false = false -> enabled_ (set_enabled (set_err t err) false) = false)
               /\ (false = true -> enabled_ t = true ->
                   enabled_ (set_enabled (set_err t err) false) = true)).
    { intros err. split; [split; [left; exact Hw | intros _; exact Hw]|].
      split; [reflexivity|]. split; [rewrite held_no_worker; [reflexivity | exact Hw]|].
      split; [reflexivity | discriminate]. }
    destruct (in_pipe os) as [[in0 in1] |]; [| inversion H; subst; apply Hfail].
    destruct (out_pipe os) as [[out0 out1] |]; [| inversion H; subst; apply Hfail].
    destruct (forked os) as [child |]; [| inversion H; subst; apply Hfail].
    destruct (worker_handshake_locked _ (hello os)) as [hs t2] eqn:Eh.
    unfold worker_handshake_locked in Eh.
    destruct (read_line_locked _ (hello os)) as [line |] eqn:El.
    + destruct (negb (Asr.text_eqb line (lit "READY"))); inversion Eh; subst;
        clear Eh; cbn [negb] in H.
      * cbn in H. inversion H; subst; clear H. cbn.
        split; [split; [left; reflexivity | reflexivity]|].
        split; [reflexivity|]. split; [reflexivity|].
        split; [reflexivity | discriminate].
      * inversion H; subst; clear H.
        split; [split; [right; cbn; lia | discriminate]|].
        split; [reflexivity|].
        split; [cbn; reflexivity|]. split; [discriminate | reflexivity].
    + inversion Eh; subst; clear Eh. cbn in H. inversion H; subst; clear H. cbn.
      split; [split; [left; reflexivity | reflexivity]|].
      split; [reflexivity|]. split; [reflexivity|].
      split; [reflexivity | discriminate].
  - rewrite E1, Hr in H. cbn [andb] in H. inversion H; subst; clear H.
    split; [split; assumption|]. split; [reflexivity|].
    split; [cbn; rewrite app_nil_r; reflexivity|].
    split; [discriminate | auto].
Qed.

Lemma spawned_app (a b : list Effect) : spawned (a ++ b) = spawned a ++ spawned b.
Proof. apply flat_map_app. Qed.

Lemma stopped_app (a b : list Effect) : stopped (a ++ b) = stopped a ++ stopped b.
Proof. apply flat_map_app. Qed.

Lemma play_wav_locked_spec (t : Tts) (wav_path : text) (os : PlayOs)
      (ok : bool) (t' : Tts) (e : list Effect) :
  play_wav_locked t wav_path os = (ok, t', e) ->
  worker_ t' = worker_ t /\ enabled_ t' = enabled_ t /\ p_ t' = p_ t
  /\ spawned e = [] /\ stopped e = []
  /\ (ok = true ->
      e = [Played (aplay_args (p_ t) wav_path)]
      /\ exited os = true /\ exit_status os = 0%Z).
Proof.
  unfold play_wav_locked. intros H.
  destruct (play_forked os); [| inversion H; subst; cbn; repeat split; discriminate].
  destruct (waitpid_fails os);
    [inversion H; subst; cbn; repeat split; discriminate|].
  destruct (exited os); cbn [negb orb] in H;
    [| inversion H; subst; cbn; repeat split; discriminate].
  destruct (exit_status os =? 0)%Z eqn:Ex; cbn [negb] in H;
    inversion H; subst; cbn; repeat split; try discriminate.
  apply Z.eqb_eq. exact Ex.
Qed.

Lemma consistent_same (t t' : Tts) :
  worker_ t' = worker_ t -> enabled_ t' = enabled_ t ->
  consistent t -> consistent t'.
Proof.
  unfold consistent, settled. intros Hw He. rewrite Hw, He. tauto.
Qed.

Lemma held_same (t t' : Tts) : worker_ t' = worker_ t -> held t' = held t.
Proof. unfold held. intros H. rewrite H. reflexivity. Qed.

Lemma consistent_no_worker (t : Tts) : worker_ t = no_worker -> consistent t.
Proof. intros H. split; [left; exact H | intros _; exact H]. Qed.

Lemma speak_spec (t : Tts) (txt : text) (os : SpeakOs)
      (ok : bool) (t' : Tts) (e : list Effect) :
  consistent t ->
  speak t txt os = (ok, t', e) ->
  consistent t' /\ p_ t' = p_ t
  /\ held t ++ spawned e = stopped e ++ held t'.
Proof.
  intros Hc H. unfold speak in H.
  destruct (enabled_ t) eqn:Een; cbn [negb] in H;
    [| inversion H; subst; cbn; rewrite app_nil_r; auto].
  set (st := if (pid (worker_ t) <=? 0)%Z || negb (ready (worker_ t))
             then start_worker_locked t (start_os os) else (true, t, [])) in H.
  assert (Hst : consistent (snd (fst st)) /\ p_ (snd (fst st)) = p_ t
                /\ held t ++ spawned (snd st)
                   = stopped (snd st) ++ held (snd (fst st))).
  { unfold st.
    destruct ((pid (worker_ t) <=? 0)%Z || negb (ready (worker_ t))).
    - destruct (start_worker_locked t (start_os os)) as [[b t0] e0] eqn:Es.
      destruct (start_worker_locked_spec t _ b t0 e0 Hc Es) as (H1 & H2 & H3 & _).
      auto.
    - cbn. rewrite app_nil_r. auto. }
  destruct st as [[started t0] e0]. cbn [fst snd] in Hst.
  destruct Hst as (Hc0 & Hp0 & Hacc).
  destruct started; cbn [negb] in H; [| inversion H; subst; auto].
  assert (Hstop : forall err t1 e2,
             stop_worker_locked (set_enabled (set_err t0 err) false) = (t1, e2) ->
             consistent t1 /\ p_ t1 = p_ t
             /\ held t ++ spawned ((e0 ++ [Written (txt ++ [Brain.newline]) false]) ++ e2)
                = stopped ((e0 ++ [Written (txt ++ [Brain.newline]) false]) ++ e2)
                    ++ held t1).
  { intros err t1 e2 Hs.
    destruct (stop_worker_locked_spec _ _ _ Hs) as (Ht1 & Hsp & Hst & _).
    subst t1. split; [apply consistent_no_worker; reflexivity|].
    split; [exact Hp0|].
    rewrite !spawned_app, !stopped_app, Hsp, Hst. cbn [spawned stopped flat_map app].
    rewrite !app_nil_r, Hacc.
    rewrite (held_same (set_enabled (set_err t0 err) false) t0 eq_refl).
    reflexivity. }
  destruct (write_all_locked t0 (write_os os) (txt ++ [Brain.newline])) eqn:Ew;
    cbn [negb] in H.
  - destruct (read_line_locked t0 (response os)) as [resp |] eqn:Er.
    + destruct (starts_with (lit "ERR") resp).
      * inversion H; subst; clear H.
        split; [apply (consistent_same t0); [reflexivity | reflexivity | exact Hc0]|].
        split; [exact Hp0|].
        rewrite spawned_app, stopped_app. cbn [spawned stopped flat_map app].
        rewrite !app_nil_r, Hacc. reflexivity.
      * destruct (play_wav_locked t0 resp (play_os os)) as [[ok1 t1] e2] eqn:Ep.
        inversion H; subst; clear H.
        destruct (play_wav_locked_spec _ _ _ _ _ _ Ep)
          as (Hw1 & He1 & Hp1 & Hsp & Hst & _).
        split; [apply (consistent_same t0); assumption|].
        split; [rewrite Hp1; exact Hp0|].
        rewrite !spawned_app, !stopped_app, Hsp, Hst.
        cbn [spawned stopped flat_map app].
        rewrite !app_nil_r, Hacc, (held_same t0 t' Hw1). reflexivity.
    + destruct (stop_worker_locked
                  (set_enabled (set_err t0 (lit "TTS worker timeout")) false))
        as [t1 e2] eqn:Es.
      inversion H; subst; clear H.
      destruct (stop_worker_locked_spec _ _ _ Es) as (Ht1 & Hsp & Hst & _).
      subst t'. split; [apply consistent_no_worker; reflexivity|].
      split; [exact Hp0|].
      rewrite !spawned_app, !stopped_app, Hsp, Hst.
      cbn [spawned stopped flat_map app].
      rewrite !app_nil_r, Hacc.
      rewrite (held_same (set_enabled (set_err t0 (lit "TTS worker timeout")) false)
                         t0 eq_refl).
      reflexivity.
  - destruct (stop_worker_locked
                (set_enabled (set_err t0 (lit "Failed writing to TTS worker")) false))
      as [t1 e2] eqn:Es.
    inversion H; subst; clear H. exact (Hstop _ _ _ Es).
Qed.

Lemma call_spec (t : Tts) (c : Call)
      (r : option bool) (t' : Tts) (e : list Effect) :
  consistent t ->
  call t c = (r, t', e) ->
  consistent t' /\ p_ t' = p_ t
  /\ held t ++ spawned e = stopped e ++ held t'.
Proof.
  intros Hc H. destruct c as [txt os | os |]; cbn [call] in H.
  - destruct (speak t txt os) as [[b t1] e1] eqn:Es.
    inversion H; subst; clear H. exact (speak_spec _ _ _ _ _ _ Hc Es).
  - destruct (ensure_worker t os) as [[b t1] e1] eqn:Es.
    inversion H; subst; clear H. unfold ensure_worker in Es.
    destruct (enabled_ t); cbn [negb] in Es;
      [| inversion Es; subst; cbn; rewrite app_nil_r; auto].
    destruct ((0 <? pid (worker_ t))%Z && ready (worker_ t));
      [inversion Es; subst; cbn; rewrite app_nil_r; auto|].
    destruct (start_worker_locked_spec t _ _ _ _ Hc Es) as (H1 & H2 & H3 & _).
    auto.
  - unfold shutdown in H.
    destruct (stop_worker_locked t) as [t1 e1] eqn:Es.
    inversion H; subst; clear H.
    destruct (stop_worker_locked_spec _ _ _ Es) as (Ht1 & Hsp & Hst & _).
    subst t'. split; [apply consistent_no_worker; reflexivity|].
    split; [reflexivity|].
    rewrite Hsp, Hst. change (held (set_worker t no_worker)) with (@nil Z).
    rewrite !app_nil_r. reflexivity.
Qed.

Lemma calls_spec (cs : list Call) (t : Tts) :
  consistent t ->
  consistent (snd (fst (calls t cs)))
  /\ p_ (snd (fst (calls t cs))) = p_ t
  /\ held t ++ spawned (snd (calls t cs))
     = stopped (snd (calls t cs)) ++ held (snd (fst (calls t cs))).
Proof.
  revert t. induction cs as [| c rest IH]; intros t Hc.
  - cbn. rewrite app_nil_r. auto.
  - cbn [calls]. destruct (call t c) as [[r t1] e1] eqn:Ec.
    destruct (call_spec _ _ _ _ _ Hc Ec) as (Hc1 & Hp1 & Ha1).
    destruct (IH t1 Hc1) as (Hc2 & Hp2 & Ha2).
    destruct (calls t1 rest) as [[rs t2] e2]. cbn [fst snd] in *.
    split; [exact Hc2|]. split; [rewrite Hp2; exact Hp1|].
    rewrite spawned_app, stopped_app, app_assoc, Ha1, <- app_assoc, Ha2.
    apply app_assoc.
Qed.

(** X28: whatever calls of [speak], [ensure_worker] and [shutdown] are made
    on a [CoquiTTS] object and whatever the operating system answers,
    between two calls the object has no worker or one that passed the
    handshake, a disabled object has none, and the workers forked are, in
    this order, the workers stopped and then the one the object holds: no
    worker is left behind. *)
Theorem workers_are_ready_and_none_is_left_behind :
  forall (p : Params) (cs : list Call),
    let t := snd (fst (calls (new_tts p) cs)) in
    let trace := snd (calls (new_tts p) cs) in
    settled t
    /\ (enabled_ t = false -> worker_ t = no_worker)
    /\ p_ t = p
    /\ spawned trace = stopped trace ++ held t.
Proof.
  intros p cs.
  destruct (calls_spec cs (new_tts p) (consistent_no_worker (new_tts p) eq_refl))
    as ([H1 H2] & H3 & H4).
  cbn zeta. auto.
Qed.

Lemma call_disabled (t : Tts) (c : Call)
      (r : option bool) (t' : Tts) (e : list Effect) :
  enabled_ t = false ->
  call t c = (r, t', e) ->
  enabled_ t' = false /\ last_err_ t' = last_err_ t /\ p_ t' = p_ t
  /\ r <> Some true
  /\ Forall (fun x => reaches_out x = false) e.
Proof.
  intros Hd H. destruct c as [txt os | os |]; cbn [call] in H.
  - unfold speak in H. rewrite Hd in H. cbn [negb] in H.
    inversion H; subst. split; [exact Hd|]. split; [reflexivity|].
    split; [reflexivity|]. split; [discriminate | constructor].
  - unfold ensure_worker in H. rewrite Hd in H. cbn [negb] in H.
    inversion H; subst. split; [exact Hd|]. split; [reflexivity|].
    split; [reflexivity|]. split; [discriminate | constructor].
  - unfold shutdown in H. destruct (stop_worker_locked t) as [t1 e1] eqn:Es.
    inversion H; subst; clear H.
    destruct (stop_worker_locked_spec _ _ _ Es) as (Ht1 & _ & _ & Hq).
    subst t'. split; [exact Hd|]. split; [reflexivity|].
    split; [reflexivity|]. split; [discriminate | exact Hq].
Qed.

(** X29: once [enabled_] is false, which a failed start of the worker, a
    failed write and a response that does not come make it, it stays
    false: every later [speak] and [ensure_worker] returns [false], no
    process is forked, written to or run by any later call, and the error
    message stays what it was. *)
Theorem disabled_object_stays_silent :
  forall (t : Tts) (cs : list Call),
    enabled_ t = false ->
    let t' := snd (fst (calls t cs)) in
    enabled_ t' = false
    /\ last_err_ t' = last_err_ t
    /\ Forall (fun r => r <> Some true) (fst (fst (calls t cs)))
    /\ Forall (fun x => reaches_out x = false) (snd (calls t cs)).
Proof.
  intros t cs. revert t. induction cs as [| c rest IH]; intros t Hd.
  - cbn. split; [exact Hd|]. split; [reflexivity|]. split; constructor.
  - cbn [calls]. destruct (call t c) as [[r t1] e1] eqn:Ec.
    destruct (call_disabled _ _ _ _ _ Hd Ec) as (H1 & H2 & _ & H4 & H5).
    specialize (IH t1 H1). cbn zeta in IH.
    destruct (calls t1 rest) as [[rs t2] e2]. cbn [fst snd] in *.
    destruct IH as (I1 & I2 & I3 & I4).
    split; [exact I1|]. split; [rewrite I2; exact H2|].
    split; [constructor; assumption|].
    apply Forall_app. split; assumption.
Qed.

(** The worker does not answer the first sentence: the object is
    disabled, and the sentences after it are not spoken, with a system
    that works again. *)
Lemma disabled_object_stays_silent_witness :
  fst (fst (speak (new_tts main_params) (lit "Hello.") mute_os)) = false
  /\ last_err_ (snd (fst (calls (snd (fst (speak (new_tts main_params)
                                                (lit "Hello.") mute_os)))
                               [Speak (lit "It is noon.") good_os;
                                EnsureWorker good_start; Shutdown])))
     = lit "TTS worker timeout"
  /\ Forall (fun r => r <> Some true)
            (fst (fst (calls (snd (fst (speak (new_tts main_params)
                                              (lit "Hello.") mute_os)))
                             [Speak (lit "It is noon.") good_os;
                              EnsureWorker good_start; Shutdown]))).
Proof.
  split; [reflexivity|].
  destruct (disabled_object_stays_silent
              (snd (fst (speak (new_tts main_params) (lit "Hello.") mute_os)))
              [Speak (lit "It is noon.") good_os;
               EnsureWorker good_start; Shutdown] eq_refl)
    as (_ & H2 & H3 & _).
  split; [exact H2 | exact H3].
Defined.

Lemma worker_handshake_locked_spec (t : Tts) (evs : list FdEvent)
      (b : bool) (t' : Tts) :
  worker_handshake_locked t evs = (b, t') ->
  worker_ t' = worker_ t /\ p_ t' = p_ t /\ enabled_ t' = enabled_ t.
Proof.
  unfold worker_handshake_locked. intros H.
  destruct (read_line_locked t evs) as [line |];
    [destruct (negb (Asr.text_eqb line (lit "READY")))|];
    inversion H; subst; auto.
Qed.

Lemma start_worker_locked_true (t : Tts) (os : StartOs)
      (t' : Tts) (e : list Effect) :
  start_worker_locked t os = (true, t', e) ->
  (0 < pid (worker_ t'))%Z /\ ready (worker_ t') = true /\ p_ t' = p_ t
  /\ (enabled_ t = true -> enabled_ t' = true)
  /\ Forall worker_effect e.
Proof.
  intros H. unfold start_worker_locked in H.
  destruct ((0 <? pid (worker_ t))%Z && ready (worker_ t)) eqn:E0.
  - inversion H; subst; clear H. apply andb_prop in E0. destruct E0 as [E1 E2].
    apply Z.ltb_lt in E1. repeat split; auto.
  - destruct (if (0 <? pid (worker_ t))%Z then stop_worker_locked t else (t, []))
      as [t0 e0] eqn:E1.
    assert (H0 : p_ t0 = p_ t /\ Forall worker_effect e0).
    { destruct (0 <? pid (worker_ t))%Z.
      - unfold stop_worker_locked in E1.
        destruct (pid (worker_ t) <=? 0)%Z; inversion E1; subst;
          split; try reflexivity; repeat constructor.
        exists (pid (worker_ t)). right. reflexivity.
      - inversion E1; subst. split; [reflexivity | constructor]. }
    destruct H0 as [Hp0 He0].
    destruct (in_pipe os) as [[in0 in1] |]; [| discriminate H].
    destruct (out_pipe os) as [[out0 out1] |]; [| discriminate H].
    destruct (forked os) as [child |]; [| discriminate H].
    destruct (worker_handshake_locked _ (hello os)) as [hs t2] eqn:Eh.
    destruct (worker_handshake_locked_spec _ _ _ _ Eh) as (Hw & Hp & _).
    destruct hs; cbn [negb] in H.
    + inversion H; subst; clear H. cbn. rewrite Hw, Hp. cbn.
      split; [lia|]. split; [reflexivity|]. split; [exact Hp0|].
      split; [reflexivity|].
      apply Forall_app. split; [exact He0|]. repeat constructor.
      exists (Z.pos child). left. reflexivity.
    + destruct (stop_worker_locked t2). discriminate H.
Qed.

(** X30: when [speak] returns [true], the worker was running or was
    started, the line written to it is the text and a line break, all of
    it, the answer read is the first line of the response, does not
    begin with [ERR] and holds no line break, and the last thing done is
    the player run on that answer as one argument, which exited with 0.
    The object stays enabled and keeps a worker that is ready. *)
Theorem speak_true_played_the_answer :
  forall (t : Tts) (txt : text) (os : SpeakOs) (t' : Tts) (e : list Effect),
    speak t txt os = (true, t', e) ->
    enabled_ t' = true
    /\ (0 < pid (worker_ t'))%Z /\ ready (worker_ t') = true
    /\ p_ t' = p_ t
    /\ exists (resp : text) (before : list Effect),
        e = before ++ [Written (txt ++ [Brain.newline]) true;
                      Played (aplay_args (p_ t) resp)]
        /\ Forall worker_effect before
        /\ read_line_loop (response os) [] = Some resp
        /\ ~ In Brain.newline resp
        /\ starts_with (lit "ERR") resp = false
        /\ exited (play_os os) = true /\ exit_status (play_os os) = 0%Z.
Proof.
  intros t txt os t' e H. unfold speak in H.
  destruct (enabled_ t) eqn:Een; cbn [negb] in H; [| discriminate H].
  set (st := if (pid (worker_ t) <=? 0)%Z || negb (ready (worker_ t))
             then start_worker_locked t (start_os os) else (true, t, [])) in H.
  assert (Hst : fst (fst st) = true ->
                (0 < pid (worker_ (snd (fst st))))%Z
                /\ ready (worker_ (snd (fst st))) = true
                /\ p_ (snd (fst st)) = p_ t
                /\ enabled_ (snd (fst st)) = true
                /\ Forall worker_effect (snd st)).
  { unfold st.
    destruct ((pid (worker_ t) <=? 0)%Z || negb (ready (worker_ t))) eqn:E0.
    - destruct (start_worker_locked t (start_os os)) as [[b t0] e0] eqn:Es.
      cbn [fst snd]. intros Hb. subst b.
      destruct (start_worker_locked_true _ _ _ _ Es) as (H1 & H2 & H3 & H4 & H5).
      split; [exact H1|]. split; [exact H2|]. split; [exact H3|].
      split; [exact (H4 Een) | exact H5].
    - apply orb_false_elim in E0. destruct E0 as [E1 E2].
      apply Z.leb_gt in E1. apply negb_false_iff in E2.
      cbn [fst snd]. intros _.
      split; [exact E1|]. split; [exact E2|]. split; [reflexivity|].
      split; [exact Een | constructor]. }
  destruct st as [[started t0] e0]. cbn [fst snd] in Hst.
  destruct started; cbn [negb] in H; [| discriminate H].
  destruct (Hst eq_refl) as (Hpid & Hready & Hp0 & Hen0 & He0). clear Hst.
  destruct (write_all_locked t0 (write_os os) (txt ++ [Brain.newline])) eqn:Ew;
    cbn [negb] in H.
  - destruct (read_line_locked t0 (response os)) as [resp |] eqn:Er.
    + destruct (starts_with (lit "ERR") resp) eqn:Eerr; [discriminate H|].
      destruct (play_wav_locked t0 resp (play_os os)) as [[ok1 t1] e2] eqn:Ep.
      inversion H; subst; clear H.
      destruct (play_wav_locked_spec _ _ _ _ _ _ Ep)
        as (Hw1 & He1 & Hp1 & _ & _ & Hok).
      destruct (Hok eq_refl) as (He2 & Hex & Hst).
      rewrite Hw1, He1, Hp1. split; [exact Hen0|]. split; [exact Hpid|].
      split; [exact Hready|]. split; [exact Hp0|].
      exists resp, e0. subst e2. rewrite Hp0, <- app_assoc.
      split; [reflexivity|]. split; [exact He0|].
      destruct (first_line_of_read_line_locked t0 (response os) resp Er)
        as [Hloop Hno].
      auto.
    + destruct (stop_worker_locked _). discriminate H.
  - destruct (stop_worker_locked _). discriminate H.
Qed.

(** The first sentence with a system that works. *)
Lemma speak_true_played_the_answer_witness :
  speak (new_tts main_params) (lit "Hello.") good_os
  = (true, snd (fst (speak (new_tts main_params) (lit "Hello.") good_os)),
     snd (speak (new_tts main_params) (lit "Hello.") good_os))
  /\ enabled_ (snd (fst (speak (new_tts main_params) (lit "Hello.") good_os)))
     = true
  /\ (0 < pid (worker_ (snd (fst (speak (new_tts main_params)
                                        (lit "Hello.") good_os)))))%Z.
Proof.
  split; [reflexivity|].
  destruct (speak_true_played_the_answer
              (new_tts main_params) (lit "Hello.") good_os _ _ eq_refl)
    as (H1 & H2 & _).
  split; [exact H1 | exact H2].
Defined.

End CoquiProperties.
